(** * Nuclide debugger bridge: a shallow embedding of its session code

    The development follows four source files of the repository:

    - [pkg/nuclide-debugger/lib/CommandDispatcher.js]
      (module [CommandDispatcher]),
    - the [ExpressionEvaluationManager] of [pkg/nuclide-debugger]
      (module [ExpressionEvaluationManager]),
    - [modules/nuclide-debugger-common/DebuggerInstance.js]
      (module [DebuggerInstance]),
    - [pkg/nuclide-debugger-php-rpc/lib/PhpDebuggerService.js]: its
      [DebuggerHandler] (modules [DebuggerHandler] and
      [DebuggerHandlerVariables]) and its [PhpDebuggerService]
      (module [PhpDebuggerService]).

    Every class is a record of its fields; a method is a function from the
    record to a new record together with the effects it had on its
    collaborators (calls on the bridge adapter, the protocol dispatchers,
    the connection multiplexer, the error reporter, the event stream).
    Effects are kept in the order in which the code performs them. *)

From stdpp Require Import gmap strings list pretty.
From Stdlib Require Import ZArith.

Open Scope string_scope.
Open Scope list_scope.
Open Scope stdpp_scope.

(** ** JavaScript values that cross the command boundary *)

(** Positional arguments of a UI command.  An object is opaque: it has an
    identity and the text that [String(o)] gives for it. *)
Inductive JsVal :=
| JUndefined
| JNull
| JBool (b : bool)
| JNum (z : Z)
| JStr (s : string)
| JObj (ref : nat) (text : string).

(** [`${v}`]: the conversion a template literal applies. *)
Definition toString (v : JsVal) : string :=
  match v with
  | JUndefined => "undefined"
  | JNull => "null"
  | JBool true => "true"
  | JBool false => "false"
  | JNum z => pretty z
  | JStr s => s
  | JObj _ text => text
  end.

(** [v === 'label'] for a string literal label. *)
Definition strict_eq_str (v : JsVal) (label : string) : bool :=
  match v with
  | JStr s => String.eqb s label
  | _ => false
  end.

(** [args[i]]: reading past the end of an array gives [undefined]. *)
Definition arg (args : list JsVal) (i : nat) : JsVal := nth i args JUndefined.

(** A [switch] over string-literal labels whose cases all end in [break]:
    the first label strictly equal to the scrutinee is taken, otherwise
    the [default] branch. *)
Fixpoint switch {A} (v : JsVal) (cases : list (string * A)) (default : A) : A :=
  match cases with
  | [] => default
  | (label, body) :: rest =>
      if strict_eq_str v label then body else switch v rest default
  end.

(** How a method ends: it returns, or an exception leaves it (for an
    [async] method: its promise is rejected). *)
Inductive Completion :=
| Returned
| Thrown (message : string).

(** One run of a method on a receiver of type [S] whose effects on its
    collaborators have type [E]. *)
Record Run (S E : Type) := mkRun {
  final : S;
  effects : list E;
  completion : Completion
}.
Arguments mkRun {S E} _ _ _.
Arguments final {S E} _.
Arguments effects {S E} _.
Arguments completion {S E} _.

Definition returns {S E} (s : S) (es : list E) : Run S E :=
  {| final := s; effects := es; completion := Returned |}.

Definition throws {S E} (s : S) (es : list E) (message : string) : Run S E :=
  {| final := s; effects := es; completion := Thrown message |}.

(** ** CommandDispatcher *)

Module CommandDispatcher.

(** The methods of [BridgeAdapter] that the dispatcher invokes.  The
    adapter itself lives outside this file; a call is recorded with its
    arguments. *)
Inductive AdapterCall :=
| enable
| dispose
| resume
| pause
| stepOver
| stepInto
| stepOut
| runToLocation (a b c : JsVal)
| setInitialBreakpoints (a : JsVal)
| setFilelineBreakpoint (a : JsVal)
| removeBreakpoint (a : JsVal)
| updateBreakpoint (a : JsVal)
| setSelectedCallFrameIndex (a : JsVal)
| evaluateExpression (a b c : JsVal)
| setVariable (a b c d : JsVal)
| completions (a b c : JsVal)
| getProperties (a b : JsVal)
| selectThread (a : JsVal)
| setPauseOnException (a : JsVal)
| setPauseOnCaughtException (a : JsVal)
| setSingleThreadStepping (a : JsVal)
| setShowDisassembly (a : JsVal).

(** What a dispatcher method can do to the world: call a method of the
    adapter instance [adapter], or hand a message to [reportError] of the
    event reporter.  The class imports no logger and has no other sink. *)
Inductive Effect :=
| Call (adapter : nat) (c : AdapterCall)
| ReportError (message : string).

(** The one teardown the class registers on its session subscriptions:
    the closure of [setupNuclideChannel] that disposes and unbinds the
    adapter bound at disposal time. *)
Inductive Teardown :=
| UnbindBridgeAdapter.

Record Dispatcher := mkDispatcher {
  _sessionSubscriptions : option (list Teardown);
  _bridgeAdapter : option nat
}.

(** State after [new CommandDispatcher(...)]: both fields are unset. *)
Definition initial : Dispatcher :=
  {| _sessionSubscriptions := None; _bridgeAdapter := None |}.

Definition _ensureSessionCreated (d : Dispatcher) : Dispatcher :=
  match _sessionSubscriptions d with
  | None => {| _sessionSubscriptions := Some []; _bridgeAdapter := _bridgeAdapter d |}
  | Some _ => d
  end.

(** [setupNuclideChannel] up to its [await]. *)
Definition setupNuclideChannel_begin (d : Dispatcher) : Dispatcher :=
  _ensureSessionCreated d.

(** [setupNuclideChannel] after its [await]: [adapter] is the freshly
    built [BridgeAdapter].  The [invariant] fails when the session was
    cleaned up while the bootstrap was in flight. *)
Definition setupNuclideChannel_bound (adapter : nat) (d : Dispatcher) : Run Dispatcher Effect :=
  match _sessionSubscriptions d with
  | None =>
      throws {| _sessionSubscriptions := None; _bridgeAdapter := Some adapter |} []
             "AssertionError"
  | Some ts =>
      returns {| _sessionSubscriptions := Some (ts ++ [UnbindBridgeAdapter]);
                 _bridgeAdapter := Some adapter |} []
  end.

Definition setupChromeChannel (d : Dispatcher) : Run Dispatcher Effect :=
  let d' := _ensureSessionCreated d in
  match _bridgeAdapter d' with
  | None => throws d' [] "AssertionError"
  | Some a => returns d' [Call a enable]
  end.

(** One teardown run by [UniversalDisposable.dispose]. *)
Definition run_teardown (t : Teardown) (acc : option nat * list Effect)
  : option nat * list Effect :=
  match t, acc with
  | UnbindBridgeAdapter, (Some a, es) => (None, es ++ [Call a dispose])
  | UnbindBridgeAdapter, (None, es) => (None, es)
  end.

Definition cleanupSessionState (d : Dispatcher) : Run Dispatcher Effect :=
  match _sessionSubscriptions d with
  | None => returns d []
  | Some ts =>
      let '(adapter, es) := foldl (λ acc t, run_teardown t acc) (_bridgeAdapter d, []) ts in
      returns {| _sessionSubscriptions := None; _bridgeAdapter := adapter |} es
  end.

Definition _triggerDebuggerAction (actionId : JsVal) (d : Dispatcher) : Run Dispatcher Effect :=
  match _bridgeAdapter d with
  | None => throws d [] "AssertionError"
  | Some a =>
      switch actionId
        [ ("debugger.toggle-pause",
             returns d [ReportError "toggle-pause is not implemented yet."]);
          ("debugger.step-over", returns d [Call a stepOver]);
          ("debugger.step-into", returns d [Call a stepInto]);
          ("debugger.step-out", returns d [Call a stepOut]);
          ("debugger.run-snippet", returns d [Call a resume]) ]
        (throws d []
           ("_triggerDebuggerAction: unrecognized actionId: " +:+ toString actionId))
  end.

Definition _sendViaNuclideChannel (args : list JsVal) (d : Dispatcher) : Run Dispatcher Effect :=
  match _bridgeAdapter d with
  | None => returns d []
  | Some a =>
      let call c := returns d [Call a c] in
      switch (arg args 0)
        [ ("Continue", call resume);
          ("Pause", call pause);
          ("StepOver", call stepOver);
          ("StepInto", call stepInto);
          ("StepOut", call stepOut);
          ("RunToLocation", call (runToLocation (arg args 1) (arg args 2) (arg args 3)));
          ("triggerDebuggerAction", _triggerDebuggerAction (arg args 1) d);
          ("SyncBreakpoints", call (setInitialBreakpoints (arg args 1)));
          ("AddBreakpoint", call (setFilelineBreakpoint (arg args 1)));
          ("DeleteBreakpoint", call (removeBreakpoint (arg args 1)));
          ("UpdateBreakpoint", call (updateBreakpoint (arg args 1)));
          ("setSelectedCallFrameIndex", call (setSelectedCallFrameIndex (arg args 1)));
          ("evaluateOnSelectedCallFrame",
             call (evaluateExpression (arg args 1) (arg args 2) (arg args 3)));
          ("runtimeEvaluate",
             call (evaluateExpression (arg args 1) (arg args 2) (JStr "console")));
          ("setVariable",
             call (setVariable (arg args 1) (arg args 2) (arg args 3) (arg args 4)));
          ("completions", call (completions (arg args 1) (arg args 2) (arg args 3)));
          ("getProperties", call (getProperties (arg args 1) (arg args 2)));
          ("selectThread", call (selectThread (arg args 1)));
          ("setPauseOnException", call (setPauseOnException (arg args 1)));
          ("setPauseOnCaughtException", call (setPauseOnCaughtException (arg args 1)));
          ("setSingleThreadStepping", call (setSingleThreadStepping (arg args 1)));
          ("setShowDisassembly", call (setShowDisassembly (arg args 1))) ]
        (returns d
           [ReportError ("Command " +:+ toString (arg args 0) +:+ " is not implemented yet.")])
  end.

Definition send (args : list JsVal) (d : Dispatcher) : Run Dispatcher Effect :=
  _sendViaNuclideChannel args d.

(** The command names with a [case] of their own in
    [_sendViaNuclideChannel], in source order. *)
Definition commandNames : list string :=
  [ "Continue"; "Pause"; "StepOver"; "StepInto"; "StepOut"; "RunToLocation";
    "triggerDebuggerAction"; "SyncBreakpoints"; "AddBreakpoint";
    "DeleteBreakpoint"; "UpdateBreakpoint"; "setSelectedCallFrameIndex";
    "evaluateOnSelectedCallFrame"; "runtimeEvaluate"; "setVariable";
    "completions"; "getProperties"; "selectThread"; "setPauseOnException";
    "setPauseOnCaughtException"; "setSingleThreadStepping"; "setShowDisassembly" ].

(** The action ids with a [case] of their own in [_triggerDebuggerAction]. *)
Definition actionIds : list string :=
  [ "debugger.toggle-pause"; "debugger.step-over"; "debugger.step-into";
    "debugger.step-out"; "debugger.run-snippet" ].

(** A command name ([args[0]]) outside [commandNames]; a value that is
    not a string is unknown as well. *)
Definition unknown_in (names : list string) (v : JsVal) : Prop :=
  ∀ name, name ∈ names → v ≠ JStr name.

Definition is_report (e : Effect) : bool :=
  match e with ReportError _ => true | Call _ _ => false end.

Definition is_call (e : Effect) : bool :=
  match e with Call _ _ => true | ReportError _ => false end.

(** A dispatcher with a live session: subscriptions exist and adapter
    [a] is bound. *)
Definition connected (a : nat) (d : Dispatcher) : Prop :=
  _bridgeAdapter d = Some a.

(** *** Statements, invariants and sessions used by the properties *)

(** A dispatcher as [setupNuclideChannel] leaves it, bound to adapter 7. *)
Definition bound : Dispatcher :=
  final (setupNuclideChannel_bound 7 (setupNuclideChannel_begin initial)).

(** C6, as the claim has it: with no adapter bound, [send] logs, returns,
    calls nothing on an adapter and leaves the dispatcher as it was. *)
Definition send_unbound_logs (d : Dispatcher) (args : list JsVal) : Prop :=
  _bridgeAdapter d = None →
  (∃ e, e ∈ effects (send args d) ∧ is_report e = true)
  ∧ completion (send args d) = Returned
  ∧ filter (λ e, is_call e = true) (effects (send args d)) = []
  ∧ final (send args d) = d.

(** C8, as the claim has it: an action id without a [case] is reported,
    nothing is thrown, the dispatcher stays as it was. *)
Definition trigger_unknown_is_reported (d : Dispatcher) (actionId : JsVal) : Prop :=
  is_Some (_bridgeAdapter d) →
  unknown_in actionIds actionId →
  completion (send [JStr "triggerDebuggerAction"; actionId] d) = Returned
  ∧ (∃ e, e ∈ effects (send [JStr "triggerDebuggerAction"; actionId] d)
          ∧ is_report e = true)
  ∧ final (send [JStr "triggerDebuggerAction"; actionId] d) = d.

(** *** The whole of [setupNuclideChannel], and the action table *)

(** [setupNuclideChannel] when nothing else runs while it awaits the
    bootstrap. *)
Definition setupNuclideChannel (adapter : nat) (d : Dispatcher) : Run Dispatcher Effect :=
  setupNuclideChannel_bound adapter (setupNuclideChannel_begin d).

(** The action ids of [_triggerDebuggerAction] that end in an adapter
    call, each with the command name whose [case] in
    [_sendViaNuclideChannel] makes the same call. *)
Definition actionCommands : list (string * string) :=
  [ ("debugger.step-over", "StepOver");
    ("debugger.step-into", "StepInto");
    ("debugger.step-out", "StepOut");
    ("debugger.run-snippet", "Continue") ].

Definition adapter_calls (es : list Effect) : list (nat * AdapterCall) :=
  omap (λ e, match e with Call a c => Some (a, c) | ReportError _ => None end) es.

End CommandDispatcher.

(** ** ExpressionEvaluationManager *)

Module ExpressionEvaluationManager.

Definition RemoteObjectId := string.

(** [RemoteObject] of the protocol: what the debuggee returns for a value. *)
Record RemoteObject := mkRemoteObject {
  ro_type : string;
  ro_subtype : option string;
  ro_objectId : option RemoteObjectId;
  ro_value : JsVal;
  ro_description : option string
}.

(** [ExceptionDetails] of the protocol; only its text matters here. *)
Record ExceptionDetails := mkExceptionDetails {
  ex_text : string
}.

(** [EvaluateOnCallFrameResponse] and [EvaluateResponse]. *)
Record EvaluateResponse := mkEvaluateResponse {
  result : option RemoteObject;
  wasThrown : bool;
  exceptionDetails : option ExceptionDetails
}.

Record PropertyDescriptor := mkPropertyDescriptor {
  pd_name : string;
  pd_value : option RemoteObject
}.

Record GetPropertiesResponse := mkGetPropertiesResponse {
  gp_result : list PropertyDescriptor
}.

(** The first argument of a protocol callback when the request failed.
    The value is kept by what the code reads of it: its [JSON.stringify]
    text and, when [typeof error === 'string'], the string itself. *)
Record ProtocolError := mkProtocolError {
  err_string : option string;
  err_json : string
}.

Definition JSON_stringify (e : ProtocolError) : string := err_json e.

(** One entry of an [ExpansionResult]. *)
Record ExpansionEntry := mkExpansionEntry {
  ee_name : string;
  ee_value : RemoteObject
}.

Record ScopeSectionPayload := mkScopeSectionPayload {
  ssp_name : string;
  scopeObjectId : RemoteObjectId
}.

(** The arrays pushed on [_evalutionEvent$]. *)
Inductive IPCEvent :=
| ExpressionEvaluationResponse
    (result : option RemoteObject) (error : option ExceptionDetails)
    (expression : string) (id : Z)
| GetPropertiesResponseEvent
    (result : list ExpansionEntry) (objectId : RemoteObjectId) (id : Z)
| ScopesUpdate (scopes : list ScopeSectionPayload).

Inductive Effect :=
| DebuggerEvaluateOnCallFrame (callFrameId expression objectGroup : string)
| RuntimeEvaluate (expression objectGroup : string)
| RuntimeGetProperties (objectId : RemoteObjectId)
| ReportError (message : string)
| ReportErrorFromConsole (message : string)
| Raise (e : IPCEvent).

Record RemoteObjectProxy := mkRemoteObjectProxy {
  _objectId : RemoteObjectId
}.

(** The manager's mutable state is the [_remoteObjects] map of its
    [RemoteObjectManager]; the dispatchers and the subject are
    collaborators reached through effects. *)
Record Manager := mkManager {
  _remoteObjects : gmap RemoteObjectId RemoteObjectProxy
}.

Definition initial : Manager := {| _remoteObjects := ∅ |}.

(** *** RemoteObjectManager *)

Definition addObject (objectId : RemoteObjectId) (m : Manager) : Manager :=
  {| _remoteObjects := <[objectId := mkRemoteObjectProxy objectId]> (_remoteObjects m) |}.

Definition getRemoteObjectFromId (objectId : RemoteObjectId) (m : Manager)
  : option RemoteObjectProxy :=
  _remoteObjects m !! objectId.

Definition clear (m : Manager) : Manager := {| _remoteObjects := ∅ |}.

(** *** ExpressionEvaluationManager *)

Definition _raiseIPCEvent (e : IPCEvent) : Effect := Raise e.

(** The request half of [evaluateOnCallFrame]. *)
Definition evaluateOnCallFrame
  (transactionId : Z) (callFrameId expression objectGroup : string) (m : Manager)
  : Run Manager Effect :=
  returns m [DebuggerEvaluateOnCallFrame callFrameId expression objectGroup].

(** The [callback] closure of [evaluateOnCallFrame]; [response] is read
    only when [error] is null. *)
Definition evaluateOnCallFrame_callback
  (transactionId : Z) (expression objectGroup : string)
  (error : option ProtocolError) (response : EvaluateResponse) (m : Manager)
  : Run Manager Effect :=
  match error with
  | Some e =>
      let errorMsg :=
        "evaluateOnCallFrame failed with " +:+
        match err_string e with Some s => s | None => JSON_stringify e end in
      if String.eqb objectGroup "console"
      then returns m [ReportErrorFromConsole errorMsg]
      else returns m [ReportError errorMsg]
  | None =>
      let m' :=
        match result response with
        | Some r =>
            match ro_objectId r with
            | Some oid => addObject oid m
            | None => m
            end
        | None => m
        end in
      returns m'
        [_raiseIPCEvent
           (ExpressionEvaluationResponse
              (result response)
              (if wasThrown response then exceptionDetails response else None)
              expression transactionId)]
  end.

Definition runtimeEvaluate
  (transactionId : Z) (expression objectGroup : string) (m : Manager)
  : Run Manager Effect :=
  returns m [RuntimeEvaluate expression objectGroup].

(** The [callback] closure of [runtimeEvaluate]: it reads
    [result.objectId] without a null test on [result]. *)
Definition runtimeEvaluate_callback
  (transactionId : Z) (expression objectGroup : string)
  (error : option ProtocolError) (response : EvaluateResponse) (m : Manager)
  : Run Manager Effect :=
  match error with
  | Some e => returns m [ReportError ("runtimeEvaluate failed with " +:+ JSON_stringify e)]
  | None =>
      match result response with
      | None => throws m [] "TypeError"
      | Some r =>
          let m' :=
            match ro_objectId r with
            | Some oid => addObject oid m
            | None => m
            end in
          returns m'
            [_raiseIPCEvent
               (ExpressionEvaluationResponse
                  (result response)
                  (if wasThrown response then exceptionDetails response else None)
                  expression transactionId)]
      end
  end.

(** [_propertiesToExpansionResult]: properties without a value are
    dropped, every object id met is registered. *)
Fixpoint _propertiesToExpansionResult (properties : list PropertyDescriptor) (m : Manager)
  : Manager * list ExpansionEntry :=
  match properties with
  | [] => (m, [])
  | p :: rest =>
      match pd_value p with
      | None => _propertiesToExpansionResult rest m
      | Some v =>
          let m1 :=
            match ro_objectId v with
            | Some oid => addObject oid m
            | None => m
            end in
          let '(m2, entries) := _propertiesToExpansionResult rest m1 in
          (m2, mkExpansionEntry (pd_name p) v :: entries)
      end
  end.

(** [getProperties] up to the promise of [remoteObject.getProperties()]. *)
Definition getProperties (id : Z) (objectId : RemoteObjectId) (m : Manager)
  : Run Manager Effect :=
  match getRemoteObjectFromId objectId m with
  | None =>
      returns m [ReportError ("Cannot find object id " +:+ objectId +:+ " for getProperties()")]
  | Some remoteObject =>
      returns m [RuntimeGetProperties (_objectId remoteObject)]
  end.

(** The protocol answer to the request of [getProperties]: the callback
    of [RemoteObjectProxy.getProperties] followed, when the promise is
    fulfilled, by the [then] handler of [getProperties]. *)
Definition getProperties_response
  (id : Z) (objectId : RemoteObjectId)
  (error : option ProtocolError) (response : GetPropertiesResponse) (m : Manager)
  : Run Manager Effect :=
  match error with
  | Some e =>
      throws m [ReportError ("getProperties failed with " +:+ JSON_stringify e)]
             "unhandled rejection"
  | None =>
      let '(m', expansionResult) := _propertiesToExpansionResult (gp_result response) m in
      returns m' [_raiseIPCEvent (GetPropertiesResponseEvent expansionResult objectId id)]
  end.

Definition clearPauseStates (m : Manager) : Manager := clear m.

Definition is_report (e : Effect) : bool :=
  match e with
  | ReportError _ | ReportErrorFromConsole _ => true
  | _ => false
  end.

Definition is_event (e : Effect) : bool :=
  match e with
  | Raise _ => true
  | _ => false
  end.

Definition is_request (e : Effect) : bool :=
  match e with
  | DebuggerEvaluateOnCallFrame _ _ _ | RuntimeEvaluate _ _ | RuntimeGetProperties _ => true
  | _ => false
  end.

(** [objectId] is known to the [RemoteObjectManager]. *)
Definition registered (objectId : RemoteObjectId) (m : Manager) : Prop :=
  is_Some (_remoteObjects m !! objectId).

(** *** Statements, invariants and sessions used by the properties *)

(** C5, as the claim has it: the answer to [evaluateOnCallFrame] says the
    evaluation threw; one [ExpressionEvaluationResponse] event carries the
    exception details and the registry of remote objects is as before. *)
Definition thrown_registers_nothing
  (m : Manager) (transactionId : Z) (expression objectGroup : string)
  (response : EvaluateResponse) : Prop :=
  wasThrown response = true →
  effects (evaluateOnCallFrame_callback transactionId expression objectGroup
                                        None response m) =
    [Raise (ExpressionEvaluationResponse (result response) (exceptionDetails response)
                                         expression transactionId)]
  ∧ _remoteObjects (final (evaluateOnCallFrame_callback
                             transactionId expression objectGroup None response m))
    = _remoteObjects m.

(** The answer of a debuggee whose evaluation threw: the result is the
    exception object, with an object id. *)
Definition thrown_with_object : EvaluateResponse :=
  {| result := Some (mkRemoteObject "object" (Some "error") (Some "exc-1") JUndefined
                                    (Some "Error: boom"));
     wasThrown := true;
     exceptionDetails := Some (mkExceptionDetails "Uncaught Error: boom") |}.

(** The object id of the result of a response, if there is one. *)
Definition result_objectId (response : EvaluateResponse) : option RemoteObjectId :=
  result response ≫= ro_objectId.

(** *** Scopes of the current frame *)

(** [Scope] of the protocol. *)
Record Scope := mkScope {
  scope_type : string;
  scope_name : option string;
  scope_object : RemoteObject
}.

(** [_getScopeSectionPayloadFor]: an [async] arrow without [await], so it
    runs to its end when it is called.  The result is the value of its
    promise, [None] when the [invariant] on the object id failed and the
    promise is rejected; nothing is registered in that case. *)
Definition _getScopeSectionPayloadFor (scope : Scope) (m : Manager)
  : Manager * option ScopeSectionPayload :=
  match ro_objectId (scope_object scope) with
  | None => (m, None)
  | Some scopeObjectId =>
      (addObject scopeObjectId m,
       Some {| ssp_name := default EmptyString (ro_description (scope_object scope));
               scopeObjectId := scopeObjectId |})
  end.

(** [scopes.map(this._getScopeSectionPayloadFor)]: every scope is visited,
    also after one of the promises was rejected. *)
Fixpoint map_getScopeSectionPayloadFor (scopes : list Scope) (m : Manager)
  : Manager * list (option ScopeSectionPayload) :=
  match scopes with
  | [] => (m, [])
  | scope :: rest =>
      let '(m1, p) := _getScopeSectionPayloadFor scope m in
      let '(m2, ps) := map_getScopeSectionPayloadFor rest m1 in
      (m2, p :: ps)
  end.

(** [Promise.all] over settled promises: the values when all are
    fulfilled, [None] when one is rejected. *)
Fixpoint Promise_all {A} (promises : list (option A)) : option (list A) :=
  match promises with
  | [] => Some []
  | None :: _ => None
  | Some x :: rest =>
      match Promise_all rest with
      | Some xs => Some (x :: xs)
      | None => None
      end
  end.

(** [updateCurrentFrameScope] with the [then] handler of its
    [Promise.all]; a rejection is handled nowhere. *)
Definition updateCurrentFrameScope (scopes : list Scope) (m : Manager)
  : Run Manager Effect :=
  let '(m', promises) := map_getScopeSectionPayloadFor scopes m in
  match Promise_all promises with
  | Some scopesData => returns m' [_raiseIPCEvent (ScopesUpdate scopesData)]
  | None => throws m' [] "unhandled rejection"
  end.

(** *** Sequences of calls and answers *)

(** What happens to a manager: one of its methods is called, or a
    protocol request it made is answered. *)
Inductive Op :=
| evaluateOnCallFrame_called (transactionId : Z) (callFrameId expression objectGroup : string)
| evaluateOnCallFrame_answered
    (transactionId : Z) (expression objectGroup : string)
    (error : option ProtocolError) (response : EvaluateResponse)
| runtimeEvaluate_called (transactionId : Z) (expression objectGroup : string)
| runtimeEvaluate_answered
    (transactionId : Z) (expression objectGroup : string)
    (error : option ProtocolError) (response : EvaluateResponse)
| getProperties_called (id : Z) (objectId : RemoteObjectId)
| getProperties_answered
    (id : Z) (objectId : RemoteObjectId)
    (error : option ProtocolError) (response : GetPropertiesResponse)
| updateCurrentFrameScope_called (scopes : list Scope)
| clearPauseStates_called.

Definition perform (op : Op) (m : Manager) : Run Manager Effect :=
  match op with
  | evaluateOnCallFrame_called transactionId callFrameId expression objectGroup =>
      evaluateOnCallFrame transactionId callFrameId expression objectGroup m
  | evaluateOnCallFrame_answered transactionId expression objectGroup error response =>
      evaluateOnCallFrame_callback transactionId expression objectGroup error response m
  | runtimeEvaluate_called transactionId expression objectGroup =>
      runtimeEvaluate transactionId expression objectGroup m
  | runtimeEvaluate_answered transactionId expression objectGroup error response =>
      runtimeEvaluate_callback transactionId expression objectGroup error response m
  | getProperties_called id objectId => getProperties id objectId m
  | getProperties_answered id objectId error response =>
      getProperties_response id objectId error response m
  | updateCurrentFrameScope_called scopes => updateCurrentFrameScope scopes m
  | clearPauseStates_called => returns (clearPauseStates m) []
  end.

(** The manager after [ops], with all effects in order; an exception that
    leaves a callback is handled nowhere and stops nothing. *)
Fixpoint run (ops : list Op) (m : Manager) : Manager * list Effect :=
  match ops with
  | [] => (m, [])
  | op :: rest =>
      let r := perform op m in
      let '(m', es) := run rest (final r) in
      (m', effects r ++ es)
  end.

(** The events raised among some effects. *)
Definition events (es : list Effect) : list IPCEvent :=
  omap (λ e, match e with Raise ev => Some ev | _ => None end) es.

(** The transaction id and the expression of an evaluation whose answer
    its callback turns into an event: the answer carries no protocol
    error and, for [runtimeEvaluate], has a result. *)
Definition answered_evaluation (op : Op) : option (Z * string) :=
  match op with
  | evaluateOnCallFrame_answered transactionId expression _ None _ =>
      Some (transactionId, expression)
  | runtimeEvaluate_answered transactionId expression _ None response =>
      match result response with
      | Some _ => Some (transactionId, expression)
      | None => None
      end
  | _ => None
  end.

(** The transaction id and the expression that an
    [ExpressionEvaluationResponse] event carries. *)
Definition evaluation_event (e : IPCEvent) : option (Z * string) :=
  match e with
  | ExpressionEvaluationResponse _ _ expression id => Some (id, expression)
  | _ => None
  end.

(** The object ids that the values of some properties carry. *)
Definition property_objectIds (properties : list PropertyDescriptor)
  : list RemoteObjectId :=
  omap (λ p, pd_value p ≫= ro_objectId) properties.

Definition scope_objectIds (scopes : list Scope) : list RemoteObjectId :=
  omap (λ s, ro_objectId (scope_object s)) scopes.

(** The ids registered in the manager. *)
Definition registered_ids (m : Manager) : gset RemoteObjectId :=
  dom (_remoteObjects m).

(** The proxy stored under an id is the proxy of that id. *)
Definition proxies_match (m : Manager) : Prop :=
  ∀ k p, _remoteObjects m !! k = Some p → _objectId p = k.

(** *** Answers that arrive after the resume *)

(** The object ids that an operation registers. *)
Definition registers (op : Op) : list RemoteObjectId :=
  match op with
  | evaluateOnCallFrame_answered _ _ _ None response
  | runtimeEvaluate_answered _ _ _ None response =>
      option_list (result_objectId response)
  | getProperties_answered _ _ None response => property_objectIds (gp_result response)
  | updateCurrentFrameScope_called scopes => scope_objectIds scopes
  | _ => []
  end.

(** The ids registered after [ops], when [ids] were registered before. *)
Definition registered_from (ids : gset RemoteObjectId) (ops : list Op)
  : gset RemoteObjectId :=
  foldl (λ ids op,
           match op with
           | clearPauseStates_called => ∅
           | _ => ids ∪ list_to_set (registers op)
           end)
        ids ops.

(** The ids that [ops] register on a manager that [clearPauseStates] has
    just emptied. *)
Definition registered_since (ops : list Op) : gset RemoteObjectId :=
  registered_from ∅ ops.

Definition not_found (objectId : RemoteObjectId) : Effect :=
  ReportError ("Cannot find object id " +:+ objectId +:+ " for getProperties()").

(** C4, as the claim has it: [objectId] was registered before the
    resume; after [clearPauseStates], and whatever calls and answers
    [after] follow it, [getProperties] on it reports that the id is
    unknown and does nothing else. *)
Definition stale_id_is_refused
  (m : Manager) (after : list Op) (id : Z) (objectId : RemoteObjectId) : Prop :=
  registered objectId m →
  getProperties id objectId (run after (clearPauseStates m)).1
  = returns (run after (clearPauseStates m)).1 [not_found objectId].

(** The answer to an evaluation of [$this]: an object with the id
    [obj-0]. *)
Definition this_evaluated : EvaluateResponse :=
  {| result := Some (mkRemoteObject "object" None (Some "obj-0") JUndefined (Some "Foo"));
     wasThrown := false;
     exceptionDetails := None |}.

(** The properties of [obj-0]: one child object, [obj-1]. *)
Definition this_expanded : GetPropertiesResponse :=
  {| gp_result :=
       [mkPropertyDescriptor
          "child"
          (Some (mkRemoteObject "object" None (Some "obj-1") JUndefined (Some "Bar")))] |}.

(** A pause: [$this] is evaluated and expanded, which registers [obj-0]
    and its child [obj-1]; then [obj-0] is expanded a second time, and
    the debuggee is resumed before that request is answered. *)
Definition paused : list Op :=
  [evaluateOnCallFrame_called 1 "frame-0" "$this" "watch-group";
   evaluateOnCallFrame_answered 1 "$this" "watch-group" None this_evaluated;
   getProperties_called 2 "obj-0";
   getProperties_answered 2 "obj-0" None this_expanded;
   getProperties_called 3 "obj-0"].

(** After the resume the second expansion of [obj-0] is answered. *)
Definition late_answer : list Op :=
  [getProperties_answered 3 "obj-0" None this_expanded].

End ExpressionEvaluationManager.

(** ** DebuggerInstance *)

Module DebuggerInstance.

(** The two functions a client message passes through on its way to the
    RPC service.  [preProcessClientMessage] is a hook that subclasses
    override (the value its promise resolves to);
    [translateMessageToServer] belongs to [ChromeMessageRemoting]. *)
Record Hooks := mkHooks {
  preProcessClientMessage : string → string;
  translateMessageToServer : string → string
}.

Definition SESSION_END_EVENT : string := "session-end-event".
Definition RECEIVED_MESSAGE_EVENT : string := "received-message-event".

Inductive Effect :=
| LoggerError (text : string) (extra : option string)
| LoggerDebug (text : string)
| RpcSendCommand (message : string)
| DisposeTeardowns
| Emit (event : string) (payload : option string).

(** [_disposables_disposed]: the [disposed] flag of the
    [UniversalDisposable] in [_disposables].  [inFlight]: the calls of
    [_handleChromeSocketMessage] suspended at their [await], oldest first,
    each with the value its awaited promise resolves to. *)
Record Instance := mkInstance {
  _disposed : bool;
  _disposables_disposed : bool;
  inFlight : list string
}.

Definition initial : Instance :=
  {| _disposed := false; _disposables_disposed := false; inFlight := [] |}.

(** [_handleChromeSocketMessage] up to its [await]. *)
Definition _handleChromeSocketMessage (hooks : Hooks) (message : string) (i : Instance)
  : Run Instance Effect :=
  returns {| _disposed := _disposed i;
             _disposables_disposed := _disposables_disposed i;
             inFlight := inFlight i ++ [preProcessClientMessage hooks message] |} [].

(** The oldest suspended [_handleChromeSocketMessage] continues after its
    [await]. *)
Definition _handleChromeSocketMessage_resume (hooks : Hooks) (i : Instance)
  : Run Instance Effect :=
  match inFlight i with
  | [] => returns i []
  | processedMessage :: rest =>
      returns {| _disposed := _disposed i;
                 _disposables_disposed := _disposables_disposed i;
                 inFlight := rest |}
              [RpcSendCommand (translateMessageToServer hooks processedMessage)]
  end.

Definition sendNuclideMessage (hooks : Hooks) (message : string) (i : Instance)
  : Run Instance Effect :=
  if _disposed i
  then returns i [LoggerError "sendNuclideMessage after dispose!" (Some message)]
  else _handleChromeSocketMessage hooks message i.

Definition receiveNuclideMessage (message : string) (i : Instance) : Run Instance Effect :=
  returns i [Emit RECEIVED_MESSAGE_EVENT (Some message)].

(** [dispose]: the flag is set, then the [UniversalDisposable] runs its
    teardowns unless it has already been disposed. *)
Definition dispose (i : Instance) : Run Instance Effect :=
  returns {| _disposed := true; _disposables_disposed := true; inFlight := inFlight i |}
          (if _disposables_disposed i then [] else [DisposeTeardowns]).

Definition _handleServerError (error : string) (i : Instance) : Run Instance Effect :=
  returns i [LoggerError ("Received server error: " +:+ error) None].

Definition _handleSessionEnd (i : Instance) : Run Instance Effect :=
  let r := dispose i in
  returns (final r)
          ([LoggerDebug "Ending Session"; Emit SESSION_END_EVENT None] ++ effects r).

(** The messages handed to [_rpcService.sendCommand] by a list of effects. *)
Definition forwarded (es : list Effect) : list string :=
  omap (λ e, match e with RpcSendCommand m => Some m | _ => None end) es.

(** A client sends [messages] one after the other. *)
Fixpoint sendAll (hooks : Hooks) (messages : list string) (i : Instance)
  : Run Instance Effect :=
  match messages with
  | [] => returns i []
  | m :: rest =>
      let r1 := sendNuclideMessage hooks m i in
      let r2 := sendAll hooks rest (final r1) in
      mkRun (final r2) (effects r1 ++ effects r2) (completion r2)
  end.

(** *** The life of an instance *)

(** What happens to an instance: its client sends a message, the oldest
    suspended [_handleChromeSocketMessage] continues, the owner disposes
    it, or the server stream ends or fails (both reach the instance only
    while its subscriptions are not disposed). *)
Inductive Op :=
| client_sends (message : string)
| await_completes
| owner_disposes
| session_ends
| server_fails (error : string).

Definition perform (hooks : Hooks) (op : Op) (i : Instance) : Run Instance Effect :=
  match op with
  | client_sends message => sendNuclideMessage hooks message i
  | await_completes => _handleChromeSocketMessage_resume hooks i
  | owner_disposes => dispose i
  | session_ends => if _disposables_disposed i then returns i [] else _handleSessionEnd i
  | server_fails error =>
      if _disposables_disposed i then returns i [] else _handleServerError error i
  end.

(** The instance after [ops], with all effects in order. *)
Fixpoint run (hooks : Hooks) (ops : list Op) (i : Instance) : Instance * list Effect :=
  match ops with
  | [] => (i, [])
  | op :: rest =>
      let r := perform hooks op i in
      let '(i', es) := run hooks rest (final r) in
      (i', effects r ++ es)
  end.

(** The messages of [ops] that the client sent while the instance was
    not disposed. *)
Fixpoint accepted (hooks : Hooks) (ops : list Op) (i : Instance) : list string :=
  match ops with
  | [] => []
  | op :: rest =>
      match op with
      | client_sends message => if _disposed i then [] else [message]
      | _ => []
      end ++ accepted hooks rest (final (perform hooks op i))
  end.

Definition is_teardown (e : Effect) : bool :=
  match e with DisposeTeardowns => true | _ => false end.

(** How often the teardowns of [_disposables] ran. *)
Definition teardown_runs (es : list Effect) : nat :=
  length (filter (λ e, is_teardown e = true) es).

(** What a client message becomes on its way to the RPC service. *)
Definition to_server (hooks : Hooks) (message : string) : string :=
  translateMessageToServer hooks (preProcessClientMessage hooks message).

End DebuggerInstance.

(** ** DebuggerHandler *)

Module DebuggerHandler.

(** An object reference.  Descriptors live in a heap and are shared by
    reference between the [_breakpoints] map and the [async] calls that
    work on them. *)
Abbreviation loc := nat (only parsing).

(** *** Collections *)

(** [new Set(array)]: the elements in order of first occurrence, one per
    identity [key]. *)
Fixpoint new_Set {A K} `{EqDecision K} (key : A → K) (array : list A) : list A :=
  match array with
  | [] => []
  | x :: rest => x :: filter (λ y, key y ≠ key x) (new_Set key rest)
  end.

(** Modelled from the spec: [setDifference] of [nuclide-commons/collection]
    is not among the sources.  The spec has the sync compute E − D and
    D − E with elements compared by their line; at both call sites the
    third argument is the hash [v => v.line].  [setDifference a b] keeps,
    in the order of [a], the elements of [a] whose hash is the hash of no
    element of [b]. *)
Definition setDifference {A B H} `{EqDecision H}
  (a : list A) (b : list B) (hash_a : A → H) (hash_b : B → H) : list A :=
  filter (λ x, hash_a x ∉ (hash_b <$> b)) a.

(** A JavaScript [Map] with string keys, in insertion order. *)
Fixpoint Map_get {V} (key : string) (m : list (string * V)) : option V :=
  match m with
  | [] => None
  | (k, v) :: rest => if String.eqb k key then Some v else Map_get key rest
  end.

Fixpoint Map_set {V} (key : string) (value : V) (m : list (string * V))
  : list (string * V) :=
  match m with
  | [] => [(key, value)]
  | (k, v) :: rest =>
      if String.eqb k key then (k, value) :: rest else (k, v) :: Map_set key value rest
  end.

Definition Map_values {V} (m : list (string * V)) : list V := m.*2.

(** *** Protocol data *)

(** [DebugProtocol.SourceBreakpoint]; [sb_ref] is the identity of the
    object the caller passed. *)
Record SourceBreakpoint := mkSourceBreakpoint {
  sb_ref : loc;
  sb_line : Z;
  sb_condition : option string
}.

(** [DebugProtocol.Breakpoint] as built by [new Breakpoint(verified, line)]
    and extended by the handler. *)
Record Breakpoint := mkBreakpoint {
  bp_verified : bool;
  bp_line : Z;
  bp_id : option nat;
  nuclide_hitCount : option Z
}.

(** [Deferred]: its promise is pending or fulfilled.  The [reject] of
    [setBreakpoints] sits behind [error != null] for the second parameter
    of a [then] handler, which is always [undefined]. *)
Inductive Deferred :=
| Pending
| Resolved.

Record VsBreakpointpointDescriptor := mkDescriptor {
  d_id : nat;
  d_path : string;
  d_line : Z;
  d_condition : string;
  vsBp : option Breakpoint;
  vsBpDeferred : Deferred
}.

(** *** The connection multiplexer, as the handler sees it *)

Record Location := mkLocation {
  filename : string;
  lineNumber : Z
}.

Record Connection := mkConnection {
  conn_id : nat;
  conn_stopReason : string;
  conn_stopBreakpointLocation : option Location
}.

(** A breakpoint of the [BreakpointStore].  [chromeId] is the decimal text
    of a number ([String(id)] where the handler creates it,
    [Number(chromeId)] where it reads it); the number itself is kept. *)
Record HhBreakpoint := mkHhBreakpoint {
  chromeId : nat;
  hh_filename : string;
  hh_lineNumber : Z;
  hitCount : Z;
  resolved : bool;
  connectionId : option nat
}.

(** What the handler reads from [_connectionMultiplexer]:
    [getEnabledConnection_defined] tells whether the object has the method
    at all (the handler tests it), [enabledConnection] is what the method
    returns, [breakpointStore] holds the store's breakpoints. *)
Record ConnectionMultiplexer := mkMultiplexer {
  getEnabledConnection_defined : bool;
  enabledConnection : option Connection;
  breakpointStore : list HhBreakpoint;
  requestSwitchMessage : option string
}.

(** Modelled from the spec: the [BREAKPOINT] stop reason of [Connection.js]
    is not among the sources; the spec names the reason "breakpoint". *)
Definition BREAKPOINT : string := "breakpoint".

(** Modelled from the spec: [BreakpointStore.findBreakpoint] is not among
    the sources; the spec speaks of the breakpoint found at the stop
    location.  The result is the position in the store of the first
    breakpoint with that file name and line. *)
Definition findBreakpoint (store : list HhBreakpoint) (file : string) (lineno : Z)
  : option nat :=
  fst <$> list_find (λ b, hh_filename b = file ∧ hh_lineNumber b = lineno) store.

(** [BreakpointStore.getBreakpoint]: the stored breakpoint with that id. *)
Definition getBreakpoint (store : list HhBreakpoint) (breakpointId : nat)
  : option HhBreakpoint :=
  snd <$> list_find (λ b, chromeId b = breakpointId) store.

Definition getEnabledConnectionId (m : ConnectionMultiplexer) : option nat :=
  conn_id <$> enabledConnection m.

(** Modelled from the spec: the members of [ConnectionMultiplexerStatus]
    (declared outside the sources) that the spec names; every other status
    is [OtherStatus]. *)
Inductive Status :=
| AllConnectionsPaused
| SingleConnectionPaused
| End
| OtherStatus (name : string).

Inductive Notification :=
| BREAKPOINT_RESOLVED_NOTIFICATION (breakpoint : HhBreakpoint)
| RequestUpdate
| OtherNotification (name : string).

Inductive ContinuationCommand :=
| COMMAND_STEP_INTO
| COMMAND_STEP_OVER
| COMMAND_STEP_OUT.

(** *** Effects *)

Inductive DebugEvent :=
| OutputEvent (message category : string)
| BreakpointEvent (reason : string) (breakpoint : Breakpoint)
| StoppedEvent (reason : string) (threadId : nat)
| TerminatedEvent.

(** Calls that ask the multiplexer or its breakpoint store to act on the
    debuggee. *)
Inductive MultiplexerCall :=
| mux_pause
| mux_resume
| mux_listen
| mux_sendContinuationCommand (command : ContinuationCommand)
| mux_removeBreakpoint (breakpointId : nat)
| store_setFileLineBreakpoint (chromeId : nat) (path : string) (line : Z) (condition : string)
| store_setFileLineBreakpointForConnection
    (connection chromeId : nat) (path : string) (line : Z) (condition : string)
| store_removeBreakpoint (breakpointId : nat)
| store_setPauseOnExceptions (chromeId : nat) (state : string).

(** What [_subscriptions] holds. *)
Inductive Teardown :=
| StatusSubscription
| NotificationSubscription
| TheConnectionMultiplexer
| ListenSubscription.

(** [Log] keeps the level and the literal text of the message, without the
    values appended to it.  [Settle r] is
    [bpDescriptior.vsBpDeferred.resolve(vsBp)] on the descriptor at [r]. *)
Inductive Effect :=
| Send (event : DebugEvent)
| Call (call : MultiplexerCall)
| Log (level text : string)
| Dispose (teardown : Teardown)
| Settle (descriptor : loc).

(** [UniversalDisposable] of nuclide-commons: once disposed it holds
    nothing and refuses additions. *)
Record UniversalDisposable := mkDisposable {
  disposed : bool;
  teardowns : list Teardown
}.

Definition UniversalDisposable_dispose (u : UniversalDisposable)
  : UniversalDisposable * list Effect :=
  if disposed u then (u, [])
  else ({| disposed := true; teardowns := [] |}, Dispose <$> teardowns u).

Definition UniversalDisposable_add (t : Teardown) (u : UniversalDisposable)
  : option UniversalDisposable :=
  if disposed u then None
  else Some {| disposed := false; teardowns := teardowns u ++ [t] |}.

(** *** The handler *)

Record Handler := mkHandler {
  _connectionMultiplexer : ConnectionMultiplexer;
  _subscriptions : UniversalDisposable;
  _hadFirstContinuationCommand : bool;
  _temporaryBreakpointpointId : option nat;
  _breakpointId : nat;
  _breakpoints : list (string * list loc);
  heap : list VsBreakpointpointDescriptor
}.

Definition with_multiplexer (m : ConnectionMultiplexer) (h : Handler) : Handler :=
  mkHandler m (_subscriptions h) (_hadFirstContinuationCommand h)
            (_temporaryBreakpointpointId h) (_breakpointId h) (_breakpoints h) (heap h).

Definition with_subscriptions (u : UniversalDisposable) (h : Handler) : Handler :=
  mkHandler (_connectionMultiplexer h) u (_hadFirstContinuationCommand h)
            (_temporaryBreakpointpointId h) (_breakpointId h) (_breakpoints h) (heap h).

Definition with_hadFirstContinuationCommand (b : bool) (h : Handler) : Handler :=
  mkHandler (_connectionMultiplexer h) (_subscriptions h) b
            (_temporaryBreakpointpointId h) (_breakpointId h) (_breakpoints h) (heap h).

Definition with_temporaryBreakpointpointId (t : option nat) (h : Handler) : Handler :=
  mkHandler (_connectionMultiplexer h) (_subscriptions h) (_hadFirstContinuationCommand h)
            t (_breakpointId h) (_breakpoints h) (heap h).

Definition with_breakpointId (n : nat) (h : Handler) : Handler :=
  mkHandler (_connectionMultiplexer h) (_subscriptions h) (_hadFirstContinuationCommand h)
            (_temporaryBreakpointpointId h) n (_breakpoints h) (heap h).

Definition with_breakpoints (m : list (string * list loc)) (h : Handler) : Handler :=
  mkHandler (_connectionMultiplexer h) (_subscriptions h) (_hadFirstContinuationCommand h)
            (_temporaryBreakpointpointId h) (_breakpointId h) m (heap h).

Definition with_heap (objects : list VsBreakpointpointDescriptor) (h : Handler) : Handler :=
  mkHandler (_connectionMultiplexer h) (_subscriptions h) (_hadFirstContinuationCommand h)
            (_temporaryBreakpointpointId h) (_breakpointId h) (_breakpoints h) objects.

(** The handler after its constructor, attached to multiplexer [m]. *)
Definition initial (m : ConnectionMultiplexer) : Handler :=
  {| _connectionMultiplexer := m;
     _subscriptions :=
       {| disposed := false;
          teardowns := [StatusSubscription; NotificationSubscription;
                        TheConnectionMultiplexer] |};
     _hadFirstContinuationCommand := false;
     _temporaryBreakpointpointId := None;
     _breakpointId := 0;
     _breakpoints := [];
     heap := [] |}.

(** A multiplexer with nothing connected. *)
Definition idle_multiplexer : ConnectionMultiplexer :=
  {| getEnabledConnection_defined := true;
     enabledConnection := None;
     breakpointStore := [];
     requestSwitchMessage := None |}.

(** [r1] then, when [r1] returned, [k] on its final state. *)
Definition andThen {S E} (r1 : Run S E) (k : S → Run S E) : Run S E :=
  match completion r1 with
  | Returned =>
      let r2 := k (final r1) in
      mkRun (final r2) (effects r1 ++ effects r2) (completion r2)
  | Thrown _ => r1
  end.

Definition setPauseOnExceptions (breakpointId : nat) (state : string) (h : Handler)
  : Run Handler Effect :=
  returns h [Call (store_setPauseOnExceptions breakpointId state)].

Definition _sendContinuationCommand (command : ContinuationCommand) (h : Handler)
  : Run Handler Effect :=
  returns h [Log "debug" "Sending continuation command: ";
             Call (mux_sendContinuationCommand command)].

Definition pause (h : Handler) : Run Handler Effect :=
  returns h [Call mux_pause].

Definition resume (h : Handler) : Run Handler Effect :=
  if _hadFirstContinuationCommand h
  then returns h [Call mux_resume]
  else
    let h1 := with_hadFirstContinuationCommand true h in
    match UniversalDisposable_add ListenSubscription (_subscriptions h1) with
    | Some u => returns (with_subscriptions u h1) [Call mux_listen]
    | None =>
        throws h1 [Call mux_listen]
               "Cannot add to an already disposed UniversalDisposable!"
    end.

Definition stepOver (h : Handler) : Run Handler Effect :=
  _sendContinuationCommand COMMAND_STEP_OVER h.

Definition stepInto (h : Handler) : Run Handler Effect :=
  _sendContinuationCommand COMMAND_STEP_INTO h.

Definition stepOut (h : Handler) : Run Handler Effect :=
  _sendContinuationCommand COMMAND_STEP_OUT h.

(** [_getBreakpointById]: the first descriptor, over all paths in map
    order, whose id is [bpId]; the result is that descriptor's [vsBp]
    (with the descriptor's place, since [vsBp] is updated through it). *)
Definition find_descriptor (bpId : nat) (h : Handler) : option loc :=
  snd <$> list_find (λ r, d_id <$> heap h !! r = Some bpId)
                    (concat (Map_values (_breakpoints h))).

Definition _getBreakpointById (bpId : nat) (h : Handler) : option (loc * Breakpoint) :=
  r ← find_descriptor bpId h;
  d ← heap h !! r;
  b ← vsBp d;
  Some (r, b).

Definition set_vsBp (b : Breakpoint) (d : VsBreakpointpointDescriptor)
  : VsBreakpointpointDescriptor :=
  mkDescriptor (d_id d) (d_path d) (d_line d) (d_condition d) (Some b) (vsBpDeferred d).

Definition resolve_deferred (d : VsBreakpointpointDescriptor)
  : VsBreakpointpointDescriptor :=
  mkDescriptor (d_id d) (d_path d) (d_line d) (d_condition d) (vsBp d) Resolved.

Definition _resolveBreakpoint (bpId : nat) (h : Handler) : Run Handler Effect :=
  match _getBreakpointById bpId h with
  | None => returns h [Log "warn" "Cannot resolve non-existing breakpoint"]
  | Some (r, breakpoint) =>
      let breakpoint' :=
        mkBreakpoint true (bp_line breakpoint) (bp_id breakpoint)
                     (nuclide_hitCount breakpoint) in
      returns (with_heap (alter (set_vsBp breakpoint') r (heap h)) h)
              [Send (BreakpointEvent "update" breakpoint')]
  end.

Definition _onNotification (notifyName : Notification) (h : Handler)
  : Run Handler Effect :=
  match notifyName with
  | BREAKPOINT_RESOLVED_NOTIFICATION breakpoint =>
      _resolveBreakpoint (chromeId breakpoint) h
  | RequestUpdate =>
      returns h [Log "debug" "ConnectionMultiplexerNotification.RequestUpdate"]
  | OtherNotification name =>
      throws h [Log "error" "Unexpected notification: "] "Unexpected notification: "
  end.

Definition bump_hitCount (b : HhBreakpoint) : HhBreakpoint :=
  mkHhBreakpoint (chromeId b) (hh_filename b) (hh_lineNumber b) (hitCount b + 1)
                 (resolved b) (connectionId b).

Definition with_store (store : list HhBreakpoint) (m : ConnectionMultiplexer)
  : ConnectionMultiplexer :=
  mkMultiplexer (getEnabledConnection_defined m) (enabledConnection m) store
                (requestSwitchMessage m).

Definition _updateBreakpointHitCount (h : Handler) : Run Handler Effect :=
  let m := _connectionMultiplexer h in
  if negb (getEnabledConnection_defined m) then returns h [] else
  match enabledConnection m with
  | None => returns h []
  | Some currentConnection =>
      if negb (String.eqb (conn_stopReason currentConnection) BREAKPOINT)
      then returns h [] else
      match conn_stopBreakpointLocation currentConnection with
      | None => returns h []
      | Some stopLocation =>
          match findBreakpoint (breakpointStore m)
                               (filename stopLocation) (lineNumber stopLocation) with
          | None => returns h []
          | Some k =>
              match breakpointStore m !! k with
              | None => returns h []
              | Some hhBp =>
                  let hhBp' := bump_hitCount hhBp in
                  let h1 :=
                    with_multiplexer (with_store (<[k := hhBp']> (breakpointStore m)) m) h in
                  match _getBreakpointById (chromeId hhBp') h1 with
                  | None => returns h1 []
                  | Some (r, vsBreakpoint) =>
                      let vsBreakpoint' :=
                        mkBreakpoint (bp_verified vsBreakpoint) (bp_line vsBreakpoint)
                                     (bp_id vsBreakpoint) (Some (hitCount hhBp')) in
                      returns (with_heap (alter (set_vsBp vsBreakpoint') r (heap h1)) h1)
                              [Send (BreakpointEvent "update" vsBreakpoint')]
                  end
              end
          end
      end
  end.

(** [_sendPausedMessage]: an [async] method without [await]; its throw
    rejects the promise that [_onStatusChanged] awaits. *)
Definition _sendPausedMessage (h : Handler) : Run Handler Effect :=
  let m := _connectionMultiplexer h in
  let requestSwitchMessage := requestSwitchMessage m in
  let h1 :=
    with_multiplexer
      (mkMultiplexer (getEnabledConnection_defined m) (enabledConnection m)
                     (breakpointStore m) None) h in
  let output :=
    match requestSwitchMessage with
    | Some message => [Send (OutputEvent message "info")]
    | None => []
    end in
  match getEnabledConnectionId m with
  | None => throws h1 output "No active hhvm connection to pause!"
  | Some enabledConnectionId =>
      returns h1 (output ++ [Send (StoppedEvent "breakpoint" enabledConnectionId)])
  end.

Definition _endSession (h : Handler) : Run Handler Effect :=
  let '(u, es) := UniversalDisposable_dispose (_subscriptions h) in
  returns (with_subscriptions u h)
          ([Log "debug" "DebuggerHandler: Ending session"; Send TerminatedEvent] ++ es).

Definition dispose (h : Handler) : Run Handler Effect := _endSession h.

Definition _onStatusChanged (status : Status) (h : Handler) : Run Handler Effect :=
  andThen (returns h [Log "debug" "Sending status: "]) (λ h,
    match status with
    | AllConnectionsPaused | SingleConnectionPaused =>
        andThen (_updateBreakpointHitCount h) _sendPausedMessage
    | End => _endSession h
    | OtherStatus _ => returns h [Log "warn" "Unused ConnectionMultiplexerStatus:  "]
    end).

(** *** The asynchronous methods

    An [async] method runs up to its first [await] when it is called and
    is then a task of the event loop, suspended at that [await].  A task
    names the [await] it is suspended at and holds the variables that are
    live there. *)

(** The variables of [setBreakpoints] after the diff. *)
Record Diff := mkDiff {
  addBpDescriptors : list loc;
  toRemoveBpDesciptiors : list loc;
  newBreakpoints : list loc
}.

Inductive Task :=
| remove_await_deferred (bpDescriptior : loc)
| remove_await_multiplexer (bpDescriptior : loc)
| set_await_store (bpDescriptior : loc)
| set_then (bpDescriptior : loc) (vsBp : Breakpoint)
| sync_await_removals (removals : list nat) (diff : Diff) (nSources : nat)
| sync_await_synced (newBreakpoints : list loc) (nSources : nat)
| continue_await_remove (connection : Connection) (path : option string) (line : Z)
| continue_await_set (connection : Connection)
| continue_sleep
| fulfilled (value : list loc)
| rejected (message : string).

Definition line_of (h : Handler) (r : loc) : option Z := d_line <$> heap h !! r.

Definition id_of (h : Handler) (r : loc) : option nat := d_id <$> heap h !! r.

Definition deferred_of (h : Handler) (r : loc) : option Deferred :=
  vsBpDeferred <$> heap h !! r.

(** [setBreakpoints] from its first line to the assignment of the map:
    the diff of the desired sources against the descriptors of [path],
    one fresh descriptor per source to add. *)
Definition setBreakpoints_diff
  (path : string) (bpSources : list SourceBreakpoint) (h : Handler) : Handler * Diff :=
  let existingBreakpoints := default [] (Map_get path (_breakpoints h)) in
  let existingBsSet := new_Set (λ r : loc, r) existingBreakpoints in
  let newBpSources := new_Set sb_ref bpSources in
  let toAdd :=
    setDifference newBpSources existingBsSet (λ v, Some (sb_line v)) (line_of h) in
  let objects :=
    imap (λ i bpSrc,
            mkDescriptor (_breakpointId h + S i) path (sb_line bpSrc)
                         (default EmptyString (sb_condition bpSrc)) None Pending)
         toAdd in
  let addBpDescriptors := seq (length (heap h)) (length toAdd) in
  let toRemoveBpDesciptiors :=
    setDifference existingBsSet newBpSources (line_of h) (λ v, Some (sb_line v)) in
  let toRemoveBpIds := id_of h <$> toRemoveBpDesciptiors in
  let newBreakpoints :=
    filter (λ bp, id_of h bp ∉ toRemoveBpIds) existingBreakpoints ++ addBpDescriptors in
  (with_breakpoints (Map_set path newBreakpoints (_breakpoints h))
     (with_breakpointId (_breakpointId h + length toAdd)
        (with_heap (heap h ++ objects) h)),
   mkDiff addBpDescriptors toRemoveBpDesciptiors newBreakpoints).

(** [_setBreakpointFromDesciptior] up to its [await]: the request to the
    breakpoint store. *)
Definition _setBreakpointFromDesciptior (h : Handler) (bpDescriptior : loc)
  : list Effect :=
  match heap h !! bpDescriptior with
  | Some d =>
      [Call (store_setFileLineBreakpoint (d_id d) (d_path d) (d_line d) (d_condition d))]
  | None => []
  end.

(** [_setBreakpointFromDesciptior] after its [await]: the value it
    returns once the store answered [breakpointId]. *)
Definition _setBreakpointFromDesciptior_result
  (h : Handler) (bpDescriptior : loc) (breakpointId : nat) : option Breakpoint :=
  d ← heap h !! bpDescriptior;
  hhBreakpoint ← getBreakpoint (breakpointStore (_connectionMultiplexer h)) breakpointId;
  Some (mkBreakpoint (resolved hhBreakpoint) (d_line d) (Some (d_id d)) None).

(** The event loop: the handler, the suspended tasks (a task keeps its
    place when it settles) and everything done so far. *)
Record World := mkWorld {
  handler : Handler;
  tasks : list Task;
  trace : list Effect
}.

Definition boot (m : ConnectionMultiplexer) : World :=
  {| handler := initial m; tasks := []; trace := [] |}.

Definition perform (r : Run Handler Effect) (w : World) : World :=
  {| handler := final r; tasks := tasks w; trace := trace w ++ effects r |}.

Definition spawn (ts : list Task) (w : World) : World :=
  {| handler := handler w; tasks := tasks w ++ ts; trace := trace w |}.

Definition become (t : nat) (task : Task) (w : World) : World :=
  {| handler := handler w; tasks := <[t := task]> (tasks w); trace := trace w |}.

Definition emit (es : list Effect) (w : World) : World :=
  {| handler := handler w; tasks := tasks w; trace := trace w ++ es |}.

Definition update (f : Handler → Handler) (w : World) : World :=
  {| handler := f (handler w); tasks := tasks w; trace := trace w |}.

Definition is_fulfilled (ts : list Task) (t : nat) : bool :=
  match ts !! t with
  | Some (fulfilled _) => true
  | _ => false
  end.

Definition is_rejected (ts : list Task) (t : nat) : bool :=
  match ts !! t with
  | Some (rejected _) => true
  | _ => false
  end.

Definition is_resolved (h : Handler) (r : loc) : bool :=
  match deferred_of h r with
  | Some Resolved => true
  | _ => false
  end.

(** [setBreakpoints] when it is called: the diff, one [_removeBreakpoint]
    per descriptor to remove, then the [await] of their [Promise.all]. *)
Definition setBreakpoints (path : string) (bpSources : list SourceBreakpoint) (w : World)
  : World :=
  let '(h, diff) := setBreakpoints_diff path bpSources (handler w) in
  let removals := seq (length (tasks w)) (length (toRemoveBpDesciptiors diff)) in
  spawn ((remove_await_deferred <$> toRemoveBpDesciptiors diff)
           ++ [sync_await_removals removals diff (length bpSources)])
        (update (λ _, h) w).

(** [_removeBreakpoint] when it is called: it stops at
    [await bpDescriptior.vsBpDeferred.promise] before anything else. *)
Definition _removeBreakpoint (bpDescriptior : loc) (w : World) : World :=
  spawn [remove_await_deferred bpDescriptior] w.

(** [continueToLocation] from the assignment of
    [_temporaryBreakpointpointId] on; [t] is the task that runs it, or
    [None] when the method has not been suspended yet. *)
Definition continueToLocation_set
  (t : option nat) (connection : Connection) (path : option string) (line : Z) (w : World)
  : World :=
  let settle task w :=
    match t with
    | Some t => become t task w
    | None => spawn [task] w
    end in
  let w1 := update (λ h, with_breakpointId (S (_breakpointId h)) h) w in
  match path with
  | None => settle (rejected "nullthrows") w1
  | Some p =>
      settle (continue_await_set connection)
        (emit [Call (store_setFileLineBreakpointForConnection
                       (conn_id connection) (_breakpointId (handler w1)) p line EmptyString)]
              w1)
  end.

Definition continueToLocation (path : option string) (line : Z) (w : World) : World :=
  match enabledConnection (_connectionMultiplexer (handler w)) with
  | None => spawn [rejected "No active connection to continue on!"] w
  | Some enabledConnection =>
      match _temporaryBreakpointpointId (handler w) with
      | Some temporary =>
          spawn [continue_await_remove enabledConnection path line]
                (emit [Call (store_removeBreakpoint temporary)] w)
      | None => continueToLocation_set None enabledConnection path line w
      end
  end.

(** The event loop continues task [t], when the promise it awaits inside
    the handler is settled: a deferred of a descriptor, a [Promise.all]
    over tasks or deferreds, the timer of [continueToLocation]. *)
Definition run_task (t : nat) (w : World) : World :=
  let h := handler w in
  match tasks w !! t with
  | Some (remove_await_deferred r) =>
      match heap h !! r with
      | Some d =>
          match vsBpDeferred d with
          | Resolved =>
              become t (remove_await_multiplexer r)
                     (emit [Call (mux_removeBreakpoint (d_id d))] w)
          | Pending => w
          end
      | None => w
      end
  | Some (set_then r vsBp) =>
      become t (fulfilled [])
        (emit [Settle r]
           (update (λ h, with_heap (alter (λ d, set_vsBp vsBp (resolve_deferred d)) r (heap h)) h)
                   w))
  | Some (sync_await_removals removals diff nSources) =>
      if existsb (is_rejected (tasks w)) removals
      then become t (rejected "removeBreakpoint") w
      else if forallb (is_fulfilled (tasks w)) removals
      then
        become t (sync_await_synced (newBreakpoints diff) nSources)
          (spawn (set_await_store <$> addBpDescriptors diff)
             (emit (addBpDescriptors diff ≫= _setBreakpointFromDesciptior h) w))
      else w
  | Some (sync_await_synced newBreakpoints nSources) =>
      if forallb (is_resolved h) newBreakpoints
      then
        become t (fulfilled newBreakpoints)
          (emit (if decide (length newBreakpoints = nSources) then []
                 else [Log "error" "Breakpoint sources are different from set breakpoints"])
                w)
      else w
  | Some continue_sleep =>
      become t (fulfilled []) (perform (resume h) w)
  | _ => w
  end.

(** The multiplexer fulfils, with [value], the promise that task [t]
    awaits from it. *)
Definition fulfil (t : nat) (value : nat) (w : World) : World :=
  let h := handler w in
  match tasks w !! t with
  | Some (remove_await_multiplexer r) => become t (fulfilled []) w
  | Some (set_await_store r) =>
      match _setBreakpointFromDesciptior_result h r value with
      | Some vsBp => become t (set_then r vsBp) w
      | None => become t (rejected "AssertionError") w
      end
  | Some (continue_await_remove connection path line) =>
      continueToLocation_set (Some t) connection path line
        (update (with_temporaryBreakpointpointId None) w)
  | Some (continue_await_set connection) =>
      let w1 := update (with_temporaryBreakpointpointId (Some value)) w in
      match getBreakpoint (breakpointStore (_connectionMultiplexer h)) value with
      | Some breakpoint =>
          if decide (connectionId breakpoint = Some (conn_id connection))
          then become t continue_sleep w1
          else become t (rejected "AssertionError") w1
      | None => become t (rejected "AssertionError") w1
      end
  | _ => w
  end.

(** The multiplexer rejects the promise that task [t] awaits from it. *)
Definition reject (t : nat) (w : World) : World :=
  match tasks w !! t with
  | Some (remove_await_multiplexer _) | Some (set_await_store _)
  | Some (continue_await_remove _ _ _) | Some (continue_await_set _) =>
      become t (rejected "multiplexer") w
  | _ => w
  end.

(** What can happen to the handler: a request of its client, a
    notification of the multiplexer (delivered while the handler is
    subscribed), a task continuing, the multiplexer settling a promise or
    changing its own state. *)
Inductive Action :=
| do_setBreakpoints (path : string) (bpSources : list SourceBreakpoint)
| do_removeBreakpoint (bpDescriptior : loc)
| do_continueToLocation (path : option string) (line : Z)
| do_setPauseOnExceptions (breakpointId : nat) (state : string)
| do_pause
| do_resume
| do_stepOver
| do_stepInto
| do_stepOut
| do_dispose
| on_status (status : Status)
| on_notification (notifyName : Notification)
| continue_task (t : nat)
| multiplexer_fulfils (t : nat) (value : nat)
| multiplexer_rejects (t : nat)
| multiplexer_becomes (m : ConnectionMultiplexer).

Definition step (a : Action) (w : World) : World :=
  match a with
  | do_setBreakpoints path bpSources => setBreakpoints path bpSources w
  | do_removeBreakpoint r =>
      if decide (r < length (heap (handler w))) then _removeBreakpoint r w else w
  | do_continueToLocation path line => continueToLocation path line w
  | do_setPauseOnExceptions breakpointId state =>
      perform (setPauseOnExceptions breakpointId state (handler w)) w
  | do_pause => perform (pause (handler w)) w
  | do_resume => perform (resume (handler w)) w
  | do_stepOver => perform (stepOver (handler w)) w
  | do_stepInto => perform (stepInto (handler w)) w
  | do_stepOut => perform (stepOut (handler w)) w
  | do_dispose => perform (dispose (handler w)) w
  | on_status status =>
      if disposed (_subscriptions (handler w)) then w
      else perform (_onStatusChanged status (handler w)) w
  | on_notification notifyName =>
      if disposed (_subscriptions (handler w)) then w
      else perform (_onNotification notifyName (handler w)) w
  | continue_task t => run_task t w
  | multiplexer_fulfils t value => fulfil t value w
  | multiplexer_rejects t => reject t w
  | multiplexer_becomes m => update (with_multiplexer m) w
  end.

Definition run (actions : list Action) (w : World) : World :=
  foldl (λ w a, step a w) w actions.

(** The calls on the multiplexer among some effects. *)
Definition calls (es : list Effect) : list MultiplexerCall :=
  omap (λ e, match e with Call c => Some c | _ => None end) es.

(** The events sent to the client among some effects. *)
Definition sent (es : list Effect) : list DebugEvent :=
  omap (λ e, match e with Send ev => Some ev | _ => None end) es.

(** *** Statements, invariants and sessions used by the properties *)

(** The requests a client makes after the session has started, as far as
    they are answered without waiting. *)
Inductive Command :=
| cmd_pause
| cmd_resume
| cmd_stepOver
| cmd_stepInto
| cmd_stepOut
| cmd_setPauseOnExceptions (breakpointId : nat) (state : string).

Definition execute (c : Command) (h : Handler) : Run Handler Effect :=
  match c with
  | cmd_pause => pause h
  | cmd_resume => resume h
  | cmd_stepOver => stepOver h
  | cmd_stepInto => stepInto h
  | cmd_stepOut => stepOut h
  | cmd_setPauseOnExceptions breakpointId state => setPauseOnExceptions breakpointId state h
  end.

(** C1, as the claim has it: [End] sends the terminated event and
    disposes the subscriptions, and command [c], issued afterwards, calls
    nothing on the multiplexer. *)
Definition End_is_terminal (h : Handler) (c : Command) : Prop :=
  TerminatedEvent ∈ sent (effects (_onStatusChanged End h))
  ∧ disposed (_subscriptions (final (_onStatusChanged End h))) = true
  ∧ calls (effects (execute c (final (_onStatusChanged End h)))) = [].

(** [d'] is a later state of the descriptor [d]: the fields written once
    at creation are the same, and a fulfilled deferred stays fulfilled. *)
Definition later_state (d d' : VsBreakpointpointDescriptor) : Prop :=
  d_id d' = d_id d ∧ d_path d' = d_path d ∧ d_line d' = d_line d
  ∧ d_condition d' = d_condition d
  ∧ (vsBpDeferred d = Resolved → vsBpDeferred d' = Resolved).

Definition heap_le (old new : list VsBreakpointpointDescriptor) : Prop :=
  ∀ r d, old !! r = Some d → ∃ d', new !! r = Some d' ∧ later_state d d'.

(** No deferred was fulfilled between [old] and [new]. *)
Definition none_settled (old new : list VsBreakpointpointDescriptor) : Prop :=
  ∀ r d', new !! r = Some d' → vsBpDeferred d' = Resolved →
          ∃ d, old !! r = Some d ∧ vsBpDeferred d = Resolved.

(** A removal call and the fulfilment of a deferred are the two effects
    whose order matters below; everything else is [quiet]. *)
Definition quiet (e : Effect) : bool :=
  match e with
  | Call (mux_removeBreakpoint _) | Settle _ => false
  | _ => true
  end.

(** A method run that neither writes the map of descriptors or the id
    counter, nor fulfils a deferred, nor asks for a removal. *)
Definition benign (h : Handler) (r : Run Handler Effect) : Prop :=
  _breakpoints (final r) = _breakpoints h
  ∧ _breakpointId (final r) = _breakpointId h
  ∧ heap_le (heap h) (heap (final r))
  ∧ none_settled (heap h) (heap (final r))
  ∧ forallb quiet (effects r) = true
  ∧ length (heap (final r)) = length (heap h).

(** [w'] follows [w] with the effects [es]: the trace grew by [es], the
    descriptors only moved forward, every removal asked for in [es] is for
    a descriptor whose deferred was fulfilled in [w], and a deferred
    fulfilled in [w'] was fulfilled in [w] or is settled in [es]. *)
Definition follows (w w' : World) (es : list Effect) : Prop :=
  trace w' = trace w ++ es
  ∧ heap_le (heap (handler w)) (heap (handler w'))
  ∧ (_breakpointId (handler w) ≤ _breakpointId (handler w'))%nat
  ∧ (∀ i, Call (mux_removeBreakpoint i) ∈ es →
          ∃ r d, heap (handler w) !! r = Some d ∧ d_id d = i
                 ∧ vsBpDeferred d = Resolved)
  ∧ (∀ r d', heap (handler w') !! r = Some d' → vsBpDeferred d' = Resolved →
             (∃ d, heap (handler w) !! r = Some d ∧ vsBpDeferred d = Resolved)
             ∨ Settle r ∈ es).

(** The order kept by every trace: a fulfilled deferred was settled in
    the trace, and before each removal call the deferred of a descriptor
    with the id of the call was settled. *)
Definition removal_order (w : World) : Prop :=
  (∀ r d, heap (handler w) !! r = Some d → vsBpDeferred d = Resolved →
          Settle r ∈ trace w)
  ∧ (∀ before after i,
       trace w = before ++ Call (mux_removeBreakpoint i) :: after →
       ∃ r d, heap (handler w) !! r = Some d ∧ d_id d = i
              ∧ vsBpDeferred d = Resolved ∧ Settle r ∈ before).

(** A turn that is not a [setBreakpoints] keeps the map of descriptors and
    allocates nothing. *)
Definition keeps (w w' : World) : Prop :=
  _breakpoints (handler w') = _breakpoints (handler w)
  ∧ length (heap (handler w')) = length (heap (handler w)).

(** The descriptors of a session: ids come from the counter and are never
    shared, and the map refers to descriptors that exist. *)
Definition well_formed (h : Handler) : Prop :=
  (∀ r d, heap h !! r = Some d → (d_id d ≤ _breakpointId h)%nat)
  ∧ (∀ r1 r2 d1 d2, heap h !! r1 = Some d1 → heap h !! r2 = Some d2 →
                    d_id d1 = d_id d2 → r1 = r2)
  ∧ (∀ path existing r,
       Map_get path (_breakpoints h) = Some existing → r ∈ existing →
       (r < length (heap h))%nat).

(** The descriptors of [path] and the desired sources [desired] are on
    the same lines. *)
Definition in_sync (path : string) (desired : list SourceBreakpoint) (h : Handler) : Prop :=
  ∃ existing,
    Map_get path (_breakpoints h) = Some existing
    ∧ (∀ r, r ∈ existing → line_of h r ∈ ((λ v, Some (sb_line v)) <$> desired))
    ∧ (∀ v, v ∈ desired → Some (sb_line v) ∈ (line_of h <$> existing)).

(** Two breakpoints in the store of the debuggee. *)
Definition example_store : list HhBreakpoint :=
  [mkHhBreakpoint 1 "a.php" 10 0 true None; mkHhBreakpoint 2 "a.php" 20 0 true None].

(** A multiplexer whose enabled connection, number 5, last stopped for
    [reason] at [line] of [a.php]. *)
Definition stopped_at (reason : string) (line : option Z) : ConnectionMultiplexer :=
  {| getEnabledConnection_defined := true;
     enabledConnection := Some (mkConnection 5 reason (mkLocation "a.php" <$> line));
     breakpointStore := example_store;
     requestSwitchMessage := None |}.

Definition example_sources : list SourceBreakpoint :=
  [mkSourceBreakpoint 0 10 None; mkSourceBreakpoint 1 20 (Some "x > 1")].

(** The client syncs two breakpoints of [a.php] and the store confirms
    both. *)
Definition example_session : list Action :=
  [do_setBreakpoints "a.php" example_sources;
   continue_task 0;
   multiplexer_fulfils 1 1;
   multiplexer_fulfils 2 2;
   continue_task 1;
   continue_task 2;
   continue_task 0].

(** The client syncs one breakpoint and, before the store has confirmed
    it, syncs the empty list; the event loop then tries the removal. *)
Definition pending_removal : list Action :=
  [do_setBreakpoints "a.php" [mkSourceBreakpoint 0 10 None];
   continue_task 0;
   do_setBreakpoints "a.php" [];
   continue_task 2].

(** The store then confirms the breakpoint, the deferred is fulfilled and
    the removal is tried again. *)
Definition resolved_removal : list Action :=
  pending_removal ++ [multiplexer_fulfils 1 1; continue_task 1; continue_task 2].

(** *** The order of a session *)

(** The calls that start or continue the debuggee: the [listen] and the
    [resume] that the handler's [resume] makes, and the step commands of
    [_sendContinuationCommand]. *)
Definition is_continuation (c : MultiplexerCall) : bool :=
  match c with
  | mux_listen | mux_resume | mux_sendContinuationCommand _ => true
  | _ => false
  end.

Definition continuations (es : list Effect) : list MultiplexerCall :=
  filter (λ c, is_continuation c = true) (calls es).

Definition is_step (c : MultiplexerCall) : bool :=
  match c with
  | mux_sendContinuationCommand _ => true
  | _ => false
  end.

(** The calls that the handler's [resume] makes on the multiplexer. *)
Definition is_resumption (c : MultiplexerCall) : bool :=
  match c with
  | mux_listen | mux_resume => true
  | _ => false
  end.

Definition resumptions (es : list Effect) : list MultiplexerCall :=
  filter (λ c, is_resumption c = true) (calls es).

(** The teardowns disposed among some effects. *)
Definition disposals (es : list Effect) : list Teardown :=
  omap (λ e, match e with Dispose t => Some t | _ => None end) es.

(** An effect that is neither a call made by [resume] nor the end of the
    session. *)
Definition plain (e : Effect) : bool :=
  match e with
  | Call mux_listen | Call mux_resume | Dispose _ | Send TerminatedEvent => false
  | _ => true
  end.

(** A method run with plain effects that leaves [_subscriptions] and
    [_hadFirstContinuationCommand] alone. *)
Definition calm (h : Handler) (r : Run Handler Effect) : Prop :=
  _hadFirstContinuationCommand (final r) = _hadFirstContinuationCommand h
  ∧ _subscriptions (final r) = _subscriptions h
  ∧ forallb plain (effects r) = true.

(** One turn of the event loop, as far as the order of the session goes:
    plain effects, then nothing, a [resume] or an [_endSession]. *)
Definition turn (w w' : World) : Prop :=
  ∃ before r,
    forallb plain before = true
    ∧ trace w' = trace w ++ before ++ effects r
    ∧ _hadFirstContinuationCommand (handler w') = _hadFirstContinuationCommand (final r)
    ∧ _subscriptions (handler w') = _subscriptions (final r)
    ∧ (r = returns (handler w) [] ∨ r = resume (handler w) ∨ r = _endSession (handler w)).

(** What every trace keeps: of the calls that [resume] makes the first is
    the [listen], all later ones are [resume]s; nothing is disposed and no end is announced
    while the subscriptions are live, and once they are disposed the
    teardowns of the constructor, and the [listen] if it was subscribed,
    have been disposed once. *)
Definition session_order (w : World) : Prop :=
  let h := handler w in
  (if _hadFirstContinuationCommand h
   then ∃ n, resumptions (trace w) = mux_listen :: replicate n mux_resume
   else resumptions (trace w) = [])
  ∧ (if disposed (_subscriptions h)
     then teardowns (_subscriptions h) = []
          ∧ TerminatedEvent ∈ sent (trace w)
          ∧ ∃ l, disposals (trace w)
                 = [StatusSubscription; NotificationSubscription;
                    TheConnectionMultiplexer] ++ l
                 ∧ (l = [] ∨ l = [ListenSubscription])
     else disposals (trace w) = []
          ∧ (TerminatedEvent ∉ sent (trace w))
          ∧ teardowns (_subscriptions h)
            = [StatusSubscription; NotificationSubscription; TheConnectionMultiplexer]
                ++ (if _hadFirstContinuationCommand h then [ListenSubscription] else [])).


End DebuggerHandler.

(** ** DebuggerHandler: variable handles and stack frames *)

(** The methods of [DebuggerHandler] that answer the client's questions
    about a paused debuggee: [getStackFrames], [getScopesForFrame],
    [getProperties], [evaluate] and [setVariable].  Of the handler's
    fields they use [_variableHandles] only; the multiplexer is reached
    through one call each, whose answer continues the method. *)

Module DebuggerHandlerVariables.

(** *** [Handles] of vscode-debugadapter

    [create] stores the value under the next number, counting from
    [START_HANDLE]; [get] looks a number up and gives [undefined] for a
    number that was never handed out. *)
Definition START_HANDLE : Z := 1000.

Record Handles (T : Type) := mkHandles {
  _nextHandle : Z;
  _handleMap : gmap Z T
}.
Arguments mkHandles {T} _ _.
Arguments _nextHandle {T} _.
Arguments _handleMap {T} _.

Definition new_Handles {T} : Handles T :=
  {| _nextHandle := START_HANDLE; _handleMap := ∅ |}.

Definition Handles_create {T} (value : T) (h : Handles T) : Z * Handles T :=
  (_nextHandle h,
   {| _nextHandle := _nextHandle h + 1;
      _handleMap := <[_nextHandle h := value]> (_handleMap h) |}).

Definition Handles_get {T} (handle : Z) (h : Handles T) : option T :=
  _handleMap h !! handle.

(** *** Data *)

(** [DebugVariable]: what a handle stands for. *)
Record DebugVariable := mkDebugVariable {
  frameId : option Z;
  objectId : option ExpressionEvaluationManager.RemoteObjectId
}.

(** A string-valued operand of [||], [&&] or [?:]: [None] when the value
    is falsy (absent, null or the empty string). *)
Definition truthy (s : option string) : option string :=
  match s with
  | Some t => if String.eqb t EmptyString then None else Some t
  | None => None
  end.

(** [DebugProtocol.Scope] as built by [new Scope(name, reference, expensive)]. *)
Record Scope := mkScope {
  s_name : string;
  s_variablesReference : Z;
  s_expensive : bool
}.

(** [DebugProtocol.Variable]. *)
Record VsVariable := mkVariable {
  v_name : string;
  v_type : string;
  v_value : string;
  v_variablesReference : Z
}.

Record Source := mkSource {
  src_name : string;
  src_path : string
}.

(** [DebugProtocol.StackFrame] as built by
    [new StackFrame(id, name, source, line, column)]. *)
Record StackFrame := mkStackFrame {
  sf_id : nat;
  sf_name : string;
  sf_source : Source;
  sf_line : Z;
  sf_column : Z
}.

(** What [locationOfFrame] gives for a frame. *)
Record FrameLocation := mkFrameLocation {
  scriptId : string;
  lineNumber : Z
}.

(** The functions of other modules that the methods apply to their
    data: [makeExpressionHphpdCompatible] of [./utils], [locationOfFrame]
    and [functionOfFrame] of [./frame], [nuclideUri.basename]. *)
Record Helpers (Frame : Type) := mkHelpers {
  makeExpressionHphpdCompatible : string → string;
  locationOfFrame : Frame → FrameLocation;
  functionOfFrame : Frame → string;
  basename : string → string
}.
Arguments mkHelpers {Frame} _ _ _ _.
Arguments makeExpressionHphpdCompatible {Frame} _ _.
Arguments locationOfFrame {Frame} _ _.
Arguments functionOfFrame {Frame} _ _.
Arguments basename {Frame} _ _.

(** The error of a thrown evaluation: [error.$.code] and the array
    [error.message]. *)
Record HhError := mkHhError {
  code : string;
  message : list string
}.

(** The answer of the multiplexer to an evaluation, told apart by its
    [wasThrown]. *)
Inductive HhResult :=
| wasThrown (error : HhError)
| evaluated (result : ExpressionEvaluationManager.RemoteObject).

(** The [body] that a method assigns to the response it was given. *)
Inductive Body :=
| ErrorBody (id : string) (format : option string)
| EvaluateBody (type result : string) (variablesReference : Z)
| ValueBody (value : string)
| FormatBody (format : string).

Record Response := mkResponse {
  success : bool;
  body : option Body
}.

(** *** Effects *)

Inductive MultiplexerCall :=
| mux_getConnectionStackFrames (id : Z)
| mux_getScopesForFrame (frameIndex : Z)
| mux_getProperties (objectId : ExpressionEvaluationManager.RemoteObjectId)
| mux_runtimeEvaluate (expression : string)
| mux_evaluateOnCallFrame (frameId : Z) (expression : string).

(** How the promise of an [async] method is settled. *)
Inductive Outcome (A : Type) :=
| fulfilled (value : A)
| rejected (reason : string).
Arguments fulfilled {A} _.
Arguments rejected {A} _.

(** An [async] method after it was called: settled before any [await],
    or suspended at the [await] of a call on the multiplexer. *)
Inductive Started (A : Type) :=
| settled (outcome : Outcome A)
| awaiting (call : MultiplexerCall).
Arguments settled {A} _.
Arguments awaiting {A} _.

(** *** getStackFrames *)

Definition getStackFrames (id : Z) : MultiplexerCall := mux_getConnectionStackFrames id.

(** [_convertFrame], without the debug line it logs. *)
Definition _convertFrame {Frame} (helpers : Helpers Frame) (frame : Frame) (frameIndex : nat)
  : StackFrame :=
  let location := locationOfFrame helpers frame in
  mkStackFrame frameIndex
               (functionOfFrame helpers frame)
               (mkSource (basename helpers (scriptId location)) (scriptId location))
               (lineNumber location)
               0%Z.

(** [getStackFrames] after its [await].  [frames] is the answer: [None]
    for null, otherwise its [stack], which may be null as well; an empty
    stack gives the empty array on either branch. *)
Definition getStackFrames_answer {Frame} (helpers : Helpers Frame)
  (frames : option (option (list Frame))) : list StackFrame :=
  match frames with
  | Some (Some stack) => imap (λ frameIndex frame, _convertFrame helpers frame frameIndex) stack
  | _ => []
  end.

(** *** getScopesForFrame *)

Definition getScopesForFrame (frameIndex : Z) : MultiplexerCall :=
  mux_getScopesForFrame frameIndex.

(** [scope.object.description || scope.name || scope.type]. *)
Definition scope_label (scope : ExpressionEvaluationManager.Scope) : string :=
  match truthy (ExpressionEvaluationManager.ro_description (ExpressionEvaluationManager.scope_object scope)) with
  | Some description => description
  | None =>
      match truthy (ExpressionEvaluationManager.scope_name scope) with
      | Some name => name
      | None => ExpressionEvaluationManager.scope_type scope
      end
  end.

(** [getScopesForFrame] after its [await]: the [map] over the scopes.
    [nullthrows] stops the map at the first scope whose object has no
    id; the handles created up to there stay. *)
Fixpoint getScopesForFrame_answer
  (frameIndex : Z) (scopes : list ExpressionEvaluationManager.Scope) (hs : Handles DebugVariable)
  : Handles DebugVariable * Outcome (list Scope) :=
  match scopes with
  | [] => (hs, fulfilled [])
  | scope :: rest =>
      match ExpressionEvaluationManager.ro_objectId (ExpressionEvaluationManager.scope_object scope) with
      | None => (hs, rejected "nullthrows")
      | Some id =>
          let '(handle, hs1) :=
            Handles_create {| objectId := Some id; frameId := Some frameIndex |} hs in
          let '(hs2, outcome) := getScopesForFrame_answer frameIndex rest hs1 in
          (hs2,
           match outcome with
           | fulfilled converted =>
               fulfilled (mkScope (scope_label scope) handle true :: converted)
           | rejected reason => rejected reason
           end)
      end
  end.

(** *** getProperties *)

(** [getProperties] up to its [await].  Destructuring the [undefined]
    that [get] gives for an unknown reference is a [TypeError]. *)
Definition getProperties (variablesReference : Z) (hs : Handles DebugVariable)
  : Started (list VsVariable) :=
  match Handles_get variablesReference hs with
  | None => settled (rejected "TypeError")
  | Some variable =>
      match objectId variable with
      | None => settled (fulfilled [])
      | Some id => awaiting (mux_getProperties id)
      end
  end.

(** [prop.value && prop.value.objectId], when it is truthy. *)
Definition expandable (prop : ExpressionEvaluationManager.PropertyDescriptor)
  : option string :=
  ExpressionEvaluationManager.pd_value prop
    ≫= (λ v, truthy (ExpressionEvaluationManager.ro_objectId v)).

(** The arrow that [getProperties] maps over the properties; a property
    without a value has the value [undefined]. *)
Definition toVariable (prop : ExpressionEvaluationManager.PropertyDescriptor) (hs : Handles DebugVariable)
  : Handles DebugVariable * VsVariable :=
  let type :=
    default "unknown" (truthy (ExpressionEvaluationManager.ro_type <$> ExpressionEvaluationManager.pd_value prop)) in
  let value :=
    match ExpressionEvaluationManager.pd_value prop with
    | None => "undefined"
    | Some v =>
        match truthy (ExpressionEvaluationManager.ro_description v) with
        | Some description => description
        | None => toString (ExpressionEvaluationManager.ro_value v)
        end
    end in
  match expandable prop with
  | Some id =>
      let '(handle, hs1) := Handles_create {| objectId := Some id; frameId := None |} hs in
      (hs1, mkVariable (ExpressionEvaluationManager.pd_name prop) type value handle)
  | None => (hs, mkVariable (ExpressionEvaluationManager.pd_name prop) type value 0%Z)
  end.

(** [getProperties] after its [await]. *)
Fixpoint getProperties_answer
  (properties : list ExpressionEvaluationManager.PropertyDescriptor) (hs : Handles DebugVariable)
  : Handles DebugVariable * list VsVariable :=
  match properties with
  | [] => (hs, [])
  | prop :: rest =>
      let '(hs1, variable) := toVariable prop hs in
      let '(hs2, variables) := getProperties_answer rest hs1 in
      (hs2, variable :: variables)
  end.

(** *** evaluate *)

Definition evaluate {Frame} (helpers : Helpers Frame) (expression : string)
  (frameId : option Z) : MultiplexerCall :=
  let hphpdExpression := makeExpressionHphpdCompatible helpers expression in
  match frameId with
  | None => mux_runtimeEvaluate hphpdExpression
  | Some frameId => mux_evaluateOnCallFrame frameId hphpdExpression
  end.

Definition error_body (error : HhError) : Body :=
  ErrorBody (code error) (head (message error)).

(** [evaluate] after its [await]: what it writes into [response]. *)
Definition evaluate_answer
  (hhResult : HhResult) (response : Response) (hs : Handles DebugVariable)
  : Handles DebugVariable * Response :=
  match hhResult with
  | wasThrown error =>
      (hs, {| success := false; body := Some (error_body error) |})
  | evaluated result =>
      let text :=
        match truthy (ExpressionEvaluationManager.ro_description result) with
        | Some description => description
        | None => toString (ExpressionEvaluationManager.ro_value result)
        end in
      let '(variablesReference, hs1) :=
        match truthy (ExpressionEvaluationManager.ro_objectId result) with
        | Some id => Handles_create {| objectId := Some id; frameId := None |} hs
        | None => (0%Z, hs)
        end in
      (hs1, {| success := success response;
               body := Some (EvaluateBody (ExpressionEvaluationManager.ro_type result) text variablesReference) |})
  end.

(** *** setVariable *)

(** [setVariable] up to its [await]; when the handle has no frame the
    method ends there with what it wrote into [response]. *)
Definition setVariable {Frame} (helpers : Helpers Frame)
  (variablesReference : Z) (name value : string) (response : Response)
  (hs : Handles DebugVariable) : Started Response :=
  match Handles_get variablesReference hs with
  | None => settled (rejected "TypeError")
  | Some variable =>
      match frameId variable with
      | Some frameId =>
          awaiting (mux_evaluateOnCallFrame
                      frameId
                      (makeExpressionHphpdCompatible helpers (name +:+ " = " +:+ value)))
      | None =>
          settled (fulfilled
            {| success := false;
               body := Some (FormatBody ("No frame found for variable: " +:+ name
                                           +:+ " in container: "
                                           +:+ pretty variablesReference)) |})
      end
  end.

Definition setVariable_answer (value : string) (hhResult : HhResult) : Response :=
  match hhResult with
  | wasThrown error => {| success := false; body := Some (error_body error) |}
  | evaluated _ => {| success := true; body := Some (ValueBody value) |}
  end.

(** *** The handles over a session *)

(** The answers of the multiplexer that continue a method which creates
    handles.  Nothing else writes [_variableHandles]. *)
Inductive Op :=
| scopes_answered (frameIndex : Z) (scopes : list ExpressionEvaluationManager.Scope)
| properties_answered (properties : list ExpressionEvaluationManager.PropertyDescriptor)
| evaluation_answered (hhResult : HhResult) (response : Response).

Definition perform (op : Op) (hs : Handles DebugVariable) : Handles DebugVariable :=
  match op with
  | scopes_answered frameIndex scopes => (getScopesForFrame_answer frameIndex scopes hs).1
  | properties_answered properties => (getProperties_answer properties hs).1
  | evaluation_answered hhResult response => (evaluate_answer hhResult response hs).1
  end.

Definition run (ops : list Op) (hs : Handles DebugVariable) : Handles DebugVariable :=
  foldl (λ hs op, perform op hs) hs ops.

(** A frame of two scopes, an object with one expandable and one plain
    property, and helpers that change nothing. *)
Definition example_scopes : list ExpressionEvaluationManager.Scope :=
  [ExpressionEvaluationManager.mkScope
     "local" (Some "Locals")
     (ExpressionEvaluationManager.mkRemoteObject "object" None (Some "scope-0") JUndefined None);
   ExpressionEvaluationManager.mkScope
     "global" None
     (ExpressionEvaluationManager.mkRemoteObject "object" None (Some "scope-1") JUndefined
                                                 (Some "Globals"))].

Definition example_properties : list ExpressionEvaluationManager.PropertyDescriptor :=
  [ExpressionEvaluationManager.mkPropertyDescriptor
     "$this"
     (Some (ExpressionEvaluationManager.mkRemoteObject "object" None (Some "obj-7") JUndefined
                                                       (Some "Foo")));
   ExpressionEvaluationManager.mkPropertyDescriptor
     "$n"
     (Some (ExpressionEvaluationManager.mkRemoteObject "number" None None (JNum 3) None))].

Definition example_helpers : Helpers string :=
  mkHelpers (λ expression, expression)
            (λ frame, mkFrameLocation frame 1)
            (λ frame, "main")
            (λ path, path).

(** Every handle is below the counter and not below [START_HANDLE], and
    stands for an object. *)
Definition handed_out (hs : Handles DebugVariable) : Prop :=
  (START_HANDLE ≤ _nextHandle hs)%Z
  ∧ ∀ handle variable,
      Handles_get handle hs = Some variable →
      (START_HANDLE ≤ handle < _nextHandle hs)%Z ∧ is_Some (objectId variable).

(** [hs'] has every handle of [hs], for the same variable. *)
Definition extends (hs hs' : Handles DebugVariable) : Prop :=
  (_nextHandle hs ≤ _nextHandle hs')%Z
  ∧ ∀ handle, (handle < _nextHandle hs)%Z →
              Handles_get handle hs' = Handles_get handle hs.

End DebuggerHandlerVariables.


(** ** PhpDebuggerService *)

(** The class [PhpDebuggerService] of
    [pkg/nuclide-debugger-php-rpc/lib/PhpDebuggerService.js]: the
    connection state, the translator of the session and the disposables.
    The translator, the client callback, the logger and the configuration
    are collaborators reached through effects. *)

Module PhpDebuggerService.

(** The connection states. *)
Inductive ConnectionState :=
| INITIAL
| CONNECTING
| CONNECTED
| CLOSED.

Definition state_name (s : ConnectionState) : string :=
  match s with
  | INITIAL => "initial"
  | CONNECTING => "connecting"
  | CONNECTED => "connected"
  | CLOSED => "closed"
  end.

(** [PhpDebuggerSessionConfig], by the fields that [debug] reads or
    writes. *)
Record Config := mkConfig {
  targetUri : string;
  logLevel : string;
  stopOneStopAll : bool
}.

(** What [_disposables] holds.  A translator is known by the number of
    the [debug] call that constructed it. *)
Inductive Teardown :=
| TheClientCallback
| TheTranslator (translator : nat)
| SessionEndSubscription (translator : nat)
| UnsetTranslator.

Inductive Effect :=
| LoggerInfo (text : string)
| LoggerDebug (text : string)
| LoggerSetLevel (level : string)
| SendAtomNotification (type text : string)
| SetConfig (config : Config)
| ClearConfig
| SetRootDirectoryUri (uri : string)
| NewTranslator (translator : nat)
| ObserveSessionEnd (translator : nat)
| Initilize (translator : nat)
| ProcessCommand (translator : nat) (command : JsVal)
| Dispose (teardown : Teardown).

(** [created] counts the translators constructed so far; [observed] are
    the translators whose session-end subscription has been made and not
    unsubscribed. *)
Record Service := mkService {
  _state : ConnectionState;
  _translator : option nat;
  disposed : bool;
  teardowns : list Teardown;
  created : nat;
  observed : list nat
}.

(** The service after its constructor. *)
Definition initial : Service :=
  {| _state := INITIAL;
     _translator := None;
     disposed := false;
     teardowns := [TheClientCallback];
     created := 0;
     observed := [] |}.

Definition with_state (state : ConnectionState) (s : Service) : Service :=
  mkService state (_translator s) (disposed s) (teardowns s) (created s) (observed s).

(** One teardown of [_disposables] runs: a collaborator is disposed or
    unsubscribed, or the closure unsets [_translator]. *)
Definition run_teardown (s : Service) (t : Teardown) : Service :=
  match t with
  | UnsetTranslator =>
      mkService (_state s) None (disposed s) (teardowns s) (created s) (observed s)
  | SessionEndSubscription translator =>
      mkService (_state s) (_translator s) (disposed s) (teardowns s) (created s)
                (filter (λ o, o ≠ translator) (observed s))
  | _ => s
  end.

Definition teardown_effect (t : Teardown) : list Effect :=
  match t with
  | UnsetTranslator => []
  | _ => [Dispose t]
  end.

(** [dispose]: the session is announced as ending and the configuration
    cleared on every call; [UniversalDisposable.dispose] runs the
    teardowns, in the order they were added, on the first call only. *)
Definition dispose (s : Service) : Run Service Effect :=
  let announce := [LoggerInfo "Proxy: Ending session"; ClearConfig] in
  if disposed s then returns s announce
  else
    let s1 :=
      mkService (_state s) (_translator s) true [] (created s) (observed s) in
    returns (foldl run_teardown s1 (teardowns s))
            (announce ++ (teardowns s ≫= teardown_effect)).

Definition _setState (newState : ConnectionState) (s : Service) : Run Service Effect :=
  let line :=
    LoggerDebug ("state change from " +:+ state_name (_state s) +:+ " to "
                   +:+ state_name newState) in
  let s1 := with_state newState s in
  match newState with
  | CLOSED =>
      let r := dispose s1 in
      mkRun (final r) (line :: effects r) (completion r)
  | _ => returns s1 [line]
  end.

Definition _onEnd (s : Service) : Run Service Effect := _setState CLOSED s.

(** [sendCommand]; [JSON_parse] gives [None] where [JSON.parse] throws. *)
Definition sendCommand (JSON_parse : string → option JsVal) (message : string) (s : Service)
  : Run Service Effect :=
  let line := LoggerInfo ("Received command: " +:+ message) in
  match _translator s with
  | None => returns s [line]
  | Some translator =>
      match JSON_parse message with
      | Some command => returns s [line; ProcessCommand translator command]
      | None => throws s [line] "SyntaxError"
      end
  end.

(** [debug] from its call to the [await] inside [_warnIfHphpdAttached]. *)
Definition debug (config : Config) (s : Service) : Run Service Effect :=
  returns s [LoggerInfo "Connecting config: "].

(** The configuration after [config.stopOneStopAll = false]. *)
Definition one_stop (config : Config) : Config :=
  mkConfig (targetUri config) (logLevel config) false.

(** [hphpdMightBeAttached] answered: the rest of [_warnIfHphpdAttached],
    then [debug] up to the [await] of [setRootDirectoryUri]. *)
Definition debug_warned (mightBeAttached : bool) (config : Config) (s : Service)
  : Run Service Effect :=
  returns s
    ((if mightBeAttached
      then [SendAtomNotification
              "warning"
              ("You may have an hphpd instance currently attached to your server!"
                 +:+ "<br />Please kill it, or the Nuclide debugger may not work properly.")]
      else [])
       ++ [SetConfig (one_stop config); SetRootDirectoryUri (targetUri config)]).

(** [debug] from there to the [await] of [translator.initilize()].  The
    translator is constructed and its session end observed before
    [_disposables.add] is entered, which throws when the disposables are
    disposed. *)
Definition debug_rooted (config : Config) (s : Service) : Run Service Effect :=
  let r1 := _setState CONNECTING s in
  let translator := created s in
  let s2 :=
    mkService (_state (final r1)) (_translator (final r1)) (disposed (final r1))
              (teardowns (final r1)) (S (created s)) (observed (final r1) ++ [translator]) in
  let es :=
    [LoggerSetLevel (logLevel config)] ++ effects r1
      ++ [NewTranslator translator; ObserveSessionEnd translator] in
  if disposed s2
  then throws s2 es "Cannot add to an already disposed UniversalDisposable!"
  else
    returns
      (mkService (_state s2) (Some translator) false
                 (teardowns s2 ++ [TheTranslator translator;
                                   SessionEndSubscription translator;
                                   UnsetTranslator])
                 (created s2) (observed s2))
      (es ++ [Initilize translator]).

(** [debug] after [translator.initilize()] was fulfilled. *)
Definition debug_initilized (s : Service) : Run Service Effect := _setState CONNECTED s.

(** *** The life of a service *)

(** What happens to a service: a method is called, an [await] of [debug]
    completes, or a translator reports the end of its session (which
    reaches [_onEnd] while the subscription is observed). *)
Inductive Op :=
| debug_called (config : Config)
| hphpd_answered (mightBeAttached : bool) (config : Config)
| root_directory_set (config : Config)
| translator_initilized
| command_sent (message : string)
| session_ended (translator : nat)
| dispose_called.

Definition perform (JSON_parse : string → option JsVal) (op : Op) (s : Service)
  : Run Service Effect :=
  match op with
  | debug_called config => debug config s
  | hphpd_answered mightBeAttached config => debug_warned mightBeAttached config s
  | root_directory_set config => debug_rooted config s
  | translator_initilized => debug_initilized s
  | command_sent message => sendCommand JSON_parse message s
  | session_ended translator =>
      if bool_decide (translator ∈ observed s) then _onEnd s else returns s []
  | dispose_called => dispose s
  end.

(** The service after [ops], with all effects in order; a rejected
    promise stops nothing. *)
Fixpoint run (JSON_parse : string → option JsVal) (ops : list Op) (s : Service)
  : Service * list Effect :=
  match ops with
  | [] => (s, [])
  | op :: rest =>
      let r := perform JSON_parse op s in
      let '(s', es) := run JSON_parse rest (final r) in
      (s', effects r ++ es)
  end.

(** A bound translator is registered with live disposables; disposed
    disposables hold nothing; a closed service is disposed. *)
Definition consistent (s : Service) : Prop :=
  (disposed s = true → _translator s = None ∧ teardowns s = [])
  ∧ (is_Some (_translator s) → UnsetTranslator ∈ teardowns s)
  ∧ (_state s = CLOSED → disposed s = true).

End PhpDebuggerService.


(** * Properties *)

(** ** The [switch] statement *)

Lemma strict_eq_str_true v label : strict_eq_str v label = true ↔ v = JStr label.
Proof.
  destruct v; simpl; try (split; [discriminate | intros [=]]).
  rewrite String.eqb_eq. split; [intros -> | intros [=]]; congruence.
Qed.

Lemma switch_default {A} v (cases : list (string * A)) default :
  (∀ label, label ∈ cases.*1 → v ≠ JStr label) →
  switch v cases default = default.
Proof.
  induction cases as [|[label body] rest IH]; simpl; intros Hno; [done|].
  destruct (strict_eq_str v label) eqn:E.
  - apply strict_eq_str_true in E. exfalso. eapply Hno; [|exact E].
    apply list_elem_of_here.
  - apply IH. intros l Hl. apply Hno. by apply list_elem_of_further.
Qed.

(** ** CommandDispatcher *)

Module CommandDispatcherFacts.
Import CommandDispatcher.

Lemma bound_connected : connected 7 bound.
Proof. reflexivity. Qed.

(** Before any setup no adapter is bound, and cleaning up a session that
    [setupNuclideChannel] completed unbinds the adapter again. *)
Lemma unbound_before_connect : _bridgeAdapter initial = None.
Proof. reflexivity. Qed.

Lemma unbound_after_disconnect a d ts :
  _sessionSubscriptions d = Some ts →
  _bridgeAdapter (final (cleanupSessionState
                           (final (setupNuclideChannel_bound a d)))) = None.
Proof.
  intros Hs. unfold setupNuclideChannel_bound, cleanupSessionState. rewrite Hs. simpl.
  rewrite foldl_app. simpl.
  destruct (foldl _ _ ts) as [[b|] es]; reflexivity.
Qed.

(** C6, counterexample: a [Continue] sent before any setup has no effect at
    all, so nothing is logged or reported. *)
Lemma send_unbound_logs_nothing :
  ¬ send_unbound_logs initial [JStr "Continue"].
Proof.
  intros H. destruct (H eq_refl) as [[e [He _]] _].
  simpl in He. by apply not_elem_of_nil in He.
Qed.

(** C6, amended: for every command name and argument list, [send] with no
    adapter bound returns at once; it has no effect (no adapter call, no
    report, no log), throws nothing and leaves the dispatcher unchanged. *)
Theorem send_unbound_is_silent (d : Dispatcher) (args : list JsVal) :
  _bridgeAdapter d = None →
  send args d = returns d [].
Proof.
  intros H. unfold send, _sendViaNuclideChannel. by rewrite H.
Qed.

Lemma send_unbound_is_silent_witness :
  send [JStr "Continue"] initial = returns initial [].
Proof. apply send_unbound_is_silent. reflexivity. Defined.

(** C7: with an adapter bound, a command whose name has no [case] in
    [_sendViaNuclideChannel] is reported exactly once through
    [reportError]; [send] returns, no adapter method is invoked and the
    dispatcher, with its bound adapter, is unchanged. *)
Theorem send_unknown_command_reported (d : Dispatcher) (a : nat) (args : list JsVal) :
  connected a d →
  unknown_in commandNames (arg args 0) →
  send args d =
    returns d [ReportError ("Command " +:+ toString (arg args 0)
                              +:+ " is not implemented yet.")]
  ∧ connected a (final (send args d)).
Proof.
  intros Ha Hun. unfold connected in Ha.
  assert (send args d =
    returns d [ReportError ("Command " +:+ toString (arg args 0)
                              +:+ " is not implemented yet.")]) as E.
  { unfold send, _sendViaNuclideChannel. rewrite Ha.
    apply switch_default. intros label Hl. by apply Hun. }
  split; [exact E|]. by rewrite E.
Qed.

Lemma FooBar_unknown : unknown_in commandNames (JStr "FooBar").
Proof.
  intros name Hin [= <-]. revert Hin.
  apply (bool_decide_unpack ("FooBar" ∉ commandNames)). vm_compute. exact I.
Defined.

Lemma send_unknown_command_reported_witness :
  send [JStr "FooBar"] bound =
    returns bound [ReportError "Command FooBar is not implemented yet."]
  ∧ connected 7 (final (send [JStr "FooBar"] bound)).
Proof.
  apply (send_unknown_command_reported bound 7 [JStr "FooBar"]).
  - reflexivity.
  - exact FooBar_unknown.
Defined.

Lemma bogus_action_unknown : unknown_in actionIds (JStr "debugger.bogus").
Proof.
  intros name Hin [= <-]. revert Hin.
  apply (bool_decide_unpack ("debugger.bogus" ∉ actionIds)). vm_compute. exact I.
Defined.

(** C8, counterexample: [triggerDebuggerAction] with the action id
    [debugger.bogus] leaves [send] by an exception. *)
Lemma trigger_unknown_action_throws :
  ¬ trigger_unknown_is_reported bound (JStr "debugger.bogus").
Proof.
  intros H. destruct (H (mk_is_Some _ _ eq_refl) bogus_action_unknown) as [Hc _].
  vm_compute in Hc. discriminate Hc.
Qed.

(** C8, amended: with an adapter bound, [triggerDebuggerAction] with an
    action id that has no [case] throws
    [_triggerDebuggerAction: unrecognized actionId: ...] out of [send];
    nothing is reported, no adapter method is invoked and the dispatcher,
    with its bound adapter, is unchanged. *)
Theorem trigger_unknown_action_is_thrown
  (d : Dispatcher) (a : nat) (actionId : JsVal) (more : list JsVal) :
  connected a d →
  unknown_in actionIds actionId →
  send (JStr "triggerDebuggerAction" :: actionId :: more) d =
    throws d [] ("_triggerDebuggerAction: unrecognized actionId: " +:+ toString actionId).
Proof.
  intros Ha Hun. unfold connected in Ha.
  unfold send, _sendViaNuclideChannel. rewrite Ha.
  cbn [arg nth switch strict_eq_str]. simpl String.eqb. cbv iota.
  unfold _triggerDebuggerAction. rewrite Ha.
  apply switch_default. intros label Hl. by apply Hun.
Qed.

Lemma trigger_unknown_action_is_thrown_witness :
  send [JStr "triggerDebuggerAction"; JStr "debugger.bogus"] bound =
    throws bound [] "_triggerDebuggerAction: unrecognized actionId: debugger.bogus".
Proof.
  apply (trigger_unknown_action_is_thrown bound 7 (JStr "debugger.bogus") []).
  - reflexivity.
  - exact bogus_action_unknown.
Defined.

End CommandDispatcherFacts.

(** ** ExpressionEvaluationManager *)

Module ExpressionEvaluationManagerFacts.
Import ExpressionEvaluationManager.

Lemma clear_forgets objectId m : getRemoteObjectFromId objectId (clear m) = None.
Proof. apply lookup_empty. Qed.

Lemma addObject_registers objectId m : registered objectId (addObject objectId m).
Proof. unfold registered, addObject. simpl. rewrite lookup_insert_eq. by eexists. Qed.

(** While the pause lasts, [getProperties] on a registered id asks the
    runtime dispatcher for the properties. *)
Lemma getProperties_registered id objectId m :
  registered objectId m →
  ∃ proxy, getProperties id objectId m = returns m [RuntimeGetProperties (_objectId proxy)].
Proof.
  intros [proxy Hp]. exists proxy. unfold getProperties, getRemoteObjectFromId.
  by rewrite Hp.
Qed.

Lemma registered_ids_addObject objectId m :
  registered_ids (addObject objectId m) = {[objectId]} ∪ registered_ids m.
Proof. unfold registered_ids, addObject. simpl. apply dom_insert_L. Qed.

Lemma registered_elem objectId m : registered objectId m ↔ objectId ∈ registered_ids m.
Proof. unfold registered, registered_ids. by rewrite elem_of_dom. Qed.

Lemma _propertiesToExpansionResult_ids properties m :
  registered_ids (_propertiesToExpansionResult properties m).1
  = registered_ids m ∪ list_to_set (property_objectIds properties).
Proof.
  revert m. induction properties as [|p rest IH]; intros m; simpl.
  - by rewrite union_empty_r_L.
  - unfold property_objectIds in *. simpl.
    destruct (pd_value p) as [v|]; simpl; [|apply IH].
    specialize (IH (match ro_objectId v with Some oid => addObject oid m | None => m end)).
    destruct (_propertiesToExpansionResult rest _) as [m2 entries]. simpl in *.
    rewrite IH. destruct (ro_objectId v) as [oid|]; simpl; [|done].
    rewrite registered_ids_addObject.
    by rewrite (comm_L (∪) {[oid]}), <- (assoc_L (∪)).
Qed.

Lemma map_getScopeSectionPayloadFor_ids scopes m :
  registered_ids (map_getScopeSectionPayloadFor scopes m).1
  = registered_ids m ∪ list_to_set (scope_objectIds scopes).
Proof.
  revert m. induction scopes as [|s rest IH]; intros m; simpl.
  - by rewrite union_empty_r_L.
  - unfold _getScopeSectionPayloadFor, scope_objectIds in *. simpl.
    destruct (ro_objectId (scope_object s)) as [oid|]; simpl.
    + specialize (IH (addObject oid m)).
      destruct (map_getScopeSectionPayloadFor rest _) as [m2 ps]. simpl in *.
      rewrite IH, registered_ids_addObject.
      by rewrite (comm_L (∪) {[oid]}), <- (assoc_L (∪)).
    + specialize (IH m).
      destruct (map_getScopeSectionPayloadFor rest m) as [m2 ps]. simpl in *.
      by rewrite IH.
Qed.

Lemma proxies_match_addObject objectId m :
  proxies_match m → proxies_match (addObject objectId m).
Proof.
  intros Hm k p. unfold addObject. simpl. rewrite lookup_insert.
  case_decide; [|apply Hm]. intros [= <-]. done.
Qed.

Lemma proxies_match_properties properties m :
  proxies_match m → proxies_match (_propertiesToExpansionResult properties m).1.
Proof.
  revert m. induction properties as [|p rest IH]; intros m Hm; simpl; [done|].
  destruct (pd_value p) as [v|]; [|by apply IH].
  specialize (IH (match ro_objectId v with Some oid => addObject oid m | None => m end)).
  destruct (_propertiesToExpansionResult rest _) as [m2 entries]. simpl in *.
  apply IH. destruct (ro_objectId v); [by apply proxies_match_addObject|done].
Qed.

Lemma proxies_match_scopes scopes m :
  proxies_match m → proxies_match (map_getScopeSectionPayloadFor scopes m).1.
Proof.
  revert m. induction scopes as [|s rest IH]; intros m Hm; simpl; [done|].
  unfold _getScopeSectionPayloadFor.
  destruct (ro_objectId (scope_object s)) as [oid|]; simpl.
  - specialize (IH (addObject oid m) (proxies_match_addObject _ _ Hm)).
    by destruct (map_getScopeSectionPayloadFor rest _).
  - specialize (IH m Hm). by destruct (map_getScopeSectionPayloadFor rest m).
Qed.

Lemma proxies_match_perform op m : proxies_match m → proxies_match (final (perform op m)).
Proof.
  intros Hm. destruct op; simpl; try done.
  - unfold evaluateOnCallFrame_callback. destruct error; [by case_match|]. simpl.
    repeat case_match; try done; by apply proxies_match_addObject.
  - unfold runtimeEvaluate_callback. destruct error; [done|].
    repeat case_match; try done; by apply proxies_match_addObject.
  - unfold getProperties. by case_match.
  - unfold getProperties_response. destruct error; [done|].
    pose proof (proxies_match_properties (gp_result response) m Hm) as H.
    by destruct (_propertiesToExpansionResult _ m).
  - unfold updateCurrentFrameScope.
    pose proof (proxies_match_scopes scopes m Hm) as H.
    destruct (map_getScopeSectionPayloadFor scopes m) as [m' ps]. simpl in H.
    by destruct (Promise_all ps).
Qed.

Lemma proxies_match_run ops m : proxies_match m → proxies_match (run ops m).1.
Proof.
  revert m. induction ops as [|op ops IH]; intros m Hm; [done|]. simpl.
  specialize (IH _ (proxies_match_perform op m Hm)). by destruct (run ops _).
Qed.

Lemma registered_ids_run ops m :
  registered_ids (run ops m).1 = registered_from (registered_ids m) ops.
Proof.
  revert m. induction ops as [|op ops IH]; intros m; [done|].
  simpl. specialize (IH (final (perform op m))).
  destruct (run ops (final (perform op m))) as [m' es]. simpl in *. rewrite IH.
  unfold registered_from. simpl. f_equal.
  destruct op; simpl; rewrite ?union_empty_r_L; try done.
  - unfold evaluateOnCallFrame_callback, result_objectId.
    destruct error; [by case_match; simpl; rewrite union_empty_r_L|]. simpl.
    destruct (result response) as [r|]; simpl; [|by rewrite union_empty_r_L].
    destruct (ro_objectId r) as [oid|]; simpl; [|by rewrite union_empty_r_L].
    by rewrite registered_ids_addObject, union_empty_r_L, (comm_L (∪)).
  - unfold runtimeEvaluate_callback, result_objectId.
    destruct error; simpl; [by rewrite union_empty_r_L|].
    destruct (result response) as [r|]; simpl; [|by rewrite union_empty_r_L].
    destruct (ro_objectId r) as [oid|]; simpl; [|by rewrite union_empty_r_L].
    by rewrite registered_ids_addObject, union_empty_r_L, (comm_L (∪)).
  - unfold getProperties. by case_match.
  - unfold getProperties_response. destruct error; simpl; [by rewrite union_empty_r_L|].
    pose proof (_propertiesToExpansionResult_ids (gp_result response) m) as H.
    by destruct (_propertiesToExpansionResult _ m).
  - unfold updateCurrentFrameScope.
    pose proof (map_getScopeSectionPayloadFor_ids scopes m) as H.
    destruct (map_getScopeSectionPayloadFor scopes m) as [m1 ps]. simpl in H.
    by destruct (Promise_all ps).
Qed.

Lemma proxies_match_clearPauseStates m : proxies_match (clearPauseStates m).
Proof. intros k p H. simpl in H. by rewrite lookup_empty in H. Qed.

Lemma paused_registers_child : registered "obj-1" (run paused initial).1.
Proof. vm_compute. by eexists. Qed.

(** C4, counterexample: the answer to an expansion requested during the
    pause arrives after [clearPauseStates] and registers the child
    [obj-1] again; [getProperties] on [obj-1], an id of the ended pause,
    then asks the debuggee instead of reporting. *)
Lemma late_answer_revives_stale_id :
  ¬ stale_id_is_refused (run paused initial).1 late_answer 4 "obj-1".
Proof.
  intros H. specialize (H paused_registers_child).
  apply (f_equal effects) in H. vm_compute in H. discriminate H.
Qed.

(** C4, amended: for an object id registered before the resume,
    [getProperties] asked the runtime dispatcher for the properties while
    the pause lasted.  After [clearPauseStates], and whatever calls and
    answers follow it, [getProperties] on that id reports
    [Cannot find object id ...] through [reportError] and returns, with
    no request and no [GetPropertiesResponse] event, as long as nothing
    since the clear has registered the id again; once an answer that
    arrived after the clear (to an evaluation, to an expansion, or a
    scope update) carried the id, [getProperties] asks the runtime
    dispatcher for its properties and reports nothing. *)
Theorem getProperties_after_clearPauseStates
  (m : Manager) (after : list Op) (id : Z) (objectId : RemoteObjectId) :
  registered objectId m →
  (∃ proxy, getProperties id objectId m
            = returns m [RuntimeGetProperties (_objectId proxy)])
  ∧ let m' := (run after (clearPauseStates m)).1 in
    ((objectId ∉ registered_since after) →
       getProperties id objectId m' =
         returns m'
           [ReportError ("Cannot find object id " +:+ objectId +:+ " for getProperties()")]
       ∧ filter (λ e, is_event e = true) (effects (getProperties id objectId m')) = []
       ∧ filter (λ e, is_request e = true) (effects (getProperties id objectId m')) = [])
    ∧ (objectId ∈ registered_since after →
       getProperties id objectId m' = returns m' [RuntimeGetProperties objectId]).
Proof.
  intros Hreg. split; [by apply getProperties_registered|]. intros m'.
  assert (proxies_match m') as Hm.
  { apply proxies_match_run, proxies_match_clearPauseStates. }
  assert (registered_ids m' = registered_since after) as Hids.
  { unfold m'. by rewrite registered_ids_run. }
  unfold getProperties, getRemoteObjectFromId.
  destruct (_remoteObjects m' !! objectId) as [p|] eqn:Hp.
  - assert (objectId ∈ registered_since after) as Hin.
    { rewrite <- Hids. apply registered_elem. by exists p. }
    split; [done|]. intros _. by rewrite (Hm _ _ Hp).
  - split; [by intros _|].
    intros Hin. rewrite <- Hids in Hin. apply registered_elem in Hin as [p Hp'].
    congruence.
Qed.

Lemma getProperties_after_clearPauseStates_witness :
  let m := (run paused initial).1 in
  (∃ proxy, getProperties 4 "obj-0" m
            = returns m [RuntimeGetProperties (_objectId proxy)])
  ∧ let m' := (run late_answer (clearPauseStates m)).1 in
    (("obj-0" ∉ registered_since late_answer) →
       getProperties 4 "obj-0" m' =
         returns m' [ReportError "Cannot find object id obj-0 for getProperties()"]
       ∧ filter (λ e, is_event e = true) (effects (getProperties 4 "obj-0" m')) = []
       ∧ filter (λ e, is_request e = true) (effects (getProperties 4 "obj-0" m')) = [])
    ∧ ("obj-0" ∈ registered_since late_answer →
       getProperties 4 "obj-0" m' = returns m' [RuntimeGetProperties "obj-0"]).
Proof.
  intros m. apply (getProperties_after_clearPauseStates m late_answer 4 "obj-0").
  vm_compute. by eexists.
Defined.

(** C5, counterexample: the exception object of a thrown evaluation is
    registered under its object id. *)
Lemma thrown_result_is_registered :
  ¬ thrown_registers_nothing initial 1 "x+1" "watch-group" thrown_with_object.
Proof.
  intros H. destruct (H eq_refl) as [_ Hreg]. simpl in Hreg.
  apply (f_equal (λ objs : gmap RemoteObjectId RemoteObjectProxy, objs !! "exc-1")) in Hreg.
  rewrite lookup_insert_eq, lookup_empty in Hreg. discriminate Hreg.
Qed.

(** C5, amended: when the answer to [evaluateOnCallFrame] says the
    evaluation threw, the callback returns, reports nothing as a failure
    and raises one [ExpressionEvaluationResponse] event with the exception
    details as its error; the result's object id, when the result has one,
    is registered as for any other answer, and nothing else is. *)
Theorem thrown_response_event
  (m : Manager) (transactionId : Z) (expression objectGroup : string)
  (response : EvaluateResponse) :
  wasThrown response = true →
  evaluateOnCallFrame_callback transactionId expression objectGroup None response m =
    returns
      (match result_objectId response with
       | Some objectId => addObject objectId m
       | None => m
       end)
      [Raise (ExpressionEvaluationResponse (result response) (exceptionDetails response)
                                           expression transactionId)].
Proof.
  intros Hthrown. unfold evaluateOnCallFrame_callback, result_objectId.
  rewrite Hthrown. destruct (result response) as [r|]; simpl; [|done].
  by destruct (ro_objectId r).
Qed.

Lemma thrown_response_event_witness :
  evaluateOnCallFrame_callback 1 "x+1" "watch-group" None thrown_with_object initial =
    returns (addObject "exc-1" initial)
      [Raise (ExpressionEvaluationResponse
                (result thrown_with_object)
                (Some (mkExceptionDetails "Uncaught Error: boom")) "x+1" 1)].
Proof.
  apply (thrown_response_event initial 1 "x+1" "watch-group" thrown_with_object).
  reflexivity.
Defined.

End ExpressionEvaluationManagerFacts.

(** ** DebuggerInstance *)

Module DebuggerInstanceFacts.
Import DebuggerInstance.

Lemma dispose_sets_flag i : _disposed (final (dispose i)) = true.
Proof. reflexivity. Qed.

Lemma sendNuclideMessage_disposed hooks message i :
  _disposed i = true →
  sendNuclideMessage hooks message i =
    returns i [LoggerError "sendNuclideMessage after dispose!" (Some message)].
Proof. intros H. unfold sendNuclideMessage. by rewrite H. Qed.

(** Whatever is sent once the flag is set, nothing reaches the RPC
    service and no call is left suspended. *)
Lemma sendAll_disposed hooks messages i :
  _disposed i = true →
  final (sendAll hooks messages i) = i
  ∧ forwarded (effects (sendAll hooks messages i)) = [].
Proof.
  intros H. induction messages as [|m rest [IH1 IH2]]; [done|].
  simpl. rewrite (sendNuclideMessage_disposed _ _ _ H). simpl. by split.
Qed.

(** C10: after [dispose], [sendNuclideMessage] logs
    [sendNuclideMessage after dispose!] as an error and returns: the
    message is not handed to [_handleChromeSocketMessage], so it is neither
    forwarded to the RPC service nor left waiting to be forwarded, and the
    instance is unchanged. *)
Theorem sendNuclideMessage_after_dispose
  (hooks : Hooks) (i : Instance) (message : string) :
  sendNuclideMessage hooks message (final (dispose i)) =
    returns (final (dispose i))
      [LoggerError "sendNuclideMessage after dispose!" (Some message)]
  ∧ forwarded (effects (sendNuclideMessage hooks message (final (dispose i)))) = []
  ∧ inFlight (final (sendNuclideMessage hooks message (final (dispose i)))) = inFlight i.
Proof.
  rewrite (sendNuclideMessage_disposed hooks message _ (dispose_sets_flag i)).
  repeat split.
Qed.

(** Before [dispose] the same call hands the message on: it is forwarded
    when the suspended call continues. *)
Lemma sendNuclideMessage_live hooks message :
  effects (_handleChromeSocketMessage_resume hooks
             (final (sendNuclideMessage hooks message initial))) =
    [RpcSendCommand (translateMessageToServer hooks
                       (preProcessClientMessage hooks message))].
Proof. reflexivity. Qed.

End DebuggerInstanceFacts.

(** ** DebuggerHandler: the end of the session *)

Module DebuggerHandlerFacts.
Import DebuggerHandler.

(** C1, counterexample: a [pause] issued after [End] is passed to the
    multiplexer. *)
Lemma pause_after_End_reaches_multiplexer :
  ¬ End_is_terminal (initial idle_multiplexer) cmd_pause.
Proof. intros (_ & _ & H). vm_compute in H. discriminate H. Qed.

Lemma commands_ignore_subscriptions c h u :
  c ≠ cmd_resume →
  calls (effects (execute c (with_subscriptions u h))) = calls (effects (execute c h)).
Proof. destruct c; intros Hc; try reflexivity. by destruct Hc. Qed.

(** C1, amended: [End] sends the terminated event, once, and disposes
    every subscription of the handler, the multiplexer with them; nothing
    is called on the multiplexer.  The handler keeps no closed state: a
    pause, a step or an exception setting issued afterwards is passed to
    the multiplexer as before, and so is a resume (the first one calls
    [listen]). *)
Theorem End_terminates_and_disposes (h : Handler) :
  completion (_onStatusChanged End h) = Returned
  ∧ effects (_onStatusChanged End h) =
      [Log "debug" "Sending status: ";
       Log "debug" "DebuggerHandler: Ending session";
       Send TerminatedEvent]
      ++ (if disposed (_subscriptions h) then []
          else Dispose <$> teardowns (_subscriptions h))
  ∧ disposed (_subscriptions (final (_onStatusChanged End h))) = true
  ∧ teardowns (_subscriptions (final (_onStatusChanged End h)))
    = (if disposed (_subscriptions h) then teardowns (_subscriptions h) else [])
  ∧ (∀ c, c ≠ cmd_resume →
          calls (effects (execute c (final (_onStatusChanged End h))))
          = calls (effects (execute c h))
          ∧ calls (effects (execute c h)) ≠ [])
  ∧ calls (effects (execute cmd_resume (final (_onStatusChanged End h))))
    = [if _hadFirstContinuationCommand h then mux_resume else mux_listen].
Proof.
  unfold _onStatusChanged, andThen, _endSession, UniversalDisposable_dispose. simpl.
  assert (∀ c u, c ≠ cmd_resume →
            calls (effects (execute c (with_subscriptions u h)))
            = calls (effects (execute c h))
            ∧ calls (effects (execute c h)) ≠ []) as Hcmd.
  { intros c u Hc. split; [by apply commands_ignore_subscriptions|]. by destruct c. }
  assert (∀ u, calls (effects (resume (with_subscriptions u h)))
               = [if _hadFirstContinuationCommand h then mux_resume else mux_listen])
    as Hres.
  { intros u. unfold resume. simpl. destruct (_hadFirstContinuationCommand h); [done|].
    unfold UniversalDisposable_add. simpl. by destruct (disposed u). }
  destruct (disposed (_subscriptions h)) eqn:Hd; simpl; rewrite ?Hd;
    split_and!; try done; try (intros c Hc; by apply Hcmd); apply Hres.
Qed.

(** Once the subscriptions are disposed the multiplexer's notifications
    no longer reach the handler. *)
Lemma no_notification_after_End w status notifyName :
  let closed := step (on_status End) w in
  step (on_status status) closed = closed
  ∧ step (on_notification notifyName) closed = closed.
Proof.
  simpl. destruct (disposed (_subscriptions (handler w))) eqn:Hd.
  - by rewrite Hd.
  - unfold perform, _onStatusChanged, andThen, _endSession, UniversalDisposable_dispose.
    simpl. by rewrite Hd.
Qed.

(** ** DebuggerHandler: hit counts *)

Lemma findBreakpoint_Some store file lineno k :
  findBreakpoint store file lineno = Some k →
  ∃ b, store !! k = Some b ∧ hh_filename b = file ∧ hh_lineNumber b = lineno.
Proof.
  unfold findBreakpoint. intros H.
  destruct (list_find _ store) as [[k' b]|] eqn:E; simplify_eq/=.
  apply list_find_Some in E as (Hk & [Hf Hl] & _). eauto.
Qed.

Lemma _getBreakpointById_Some bpId h r vs :
  _getBreakpointById bpId h = Some (r, vs) →
  ∃ d, heap h !! r = Some d ∧ d_id d = bpId ∧ vsBp d = Some vs.
Proof.
  unfold _getBreakpointById, find_descriptor. intros H.
  destruct (list_find _ _) as [[i r']|] eqn:E; simplify_eq/=.
  destruct (heap h !! r') as [d|] eqn:Hd; simplify_eq/=.
  destruct (vsBp d) as [b|] eqn:Hb; simplify_eq/=.
  apply list_find_Some in E as (_ & Hid & _).
  rewrite Hd in Hid. simplify_eq/=. eauto.
Qed.

Lemma _getBreakpointById_frame bpId h m :
  _getBreakpointById bpId (with_multiplexer m h) = _getBreakpointById bpId h.
Proof. reflexivity. Qed.

(** A stop for a reason other than [BREAKPOINT], or without a stop
    location, leaves everything as it is. *)
Lemma no_update_without_breakpoint_stop h c :
  enabledConnection (_connectionMultiplexer h) = Some c →
  conn_stopReason c ≠ BREAKPOINT ∨ conn_stopBreakpointLocation c = None →
  _updateBreakpointHitCount h = returns h [].
Proof.
  intros Hc Hstop. unfold _updateBreakpointHitCount. rewrite Hc.
  destruct (getEnabledConnection_defined _); [|done]. simpl.
  destruct (String.eqb_spec (conn_stopReason c) BREAKPOINT) as [Heq|Hne]; simpl; [|done].
  destruct Hstop as [Hne|Hloc]; [done|]. by rewrite Hloc.
Qed.

Lemma no_update_without_connection h :
  enabledConnection (_connectionMultiplexer h) = None →
  _updateBreakpointHitCount h = returns h [].
Proof.
  intros Hc. unfold _updateBreakpointHitCount. rewrite Hc.
  by destruct (getEnabledConnection_defined _).
Qed.

(** [_sendPausedMessage] touches neither the store nor the descriptors
    and sends no breakpoint event. *)
Lemma _sendPausedMessage_frame h :
  breakpointStore (_connectionMultiplexer (final (_sendPausedMessage h)))
  = breakpointStore (_connectionMultiplexer h)
  ∧ heap (final (_sendPausedMessage h)) = heap h
  ∧ ∀ reason bp, BreakpointEvent reason bp ∉ sent (effects (_sendPausedMessage h)).
Proof.
  unfold _sendPausedMessage.
  destruct (getEnabledConnectionId _), (requestSwitchMessage _); simpl;
    split_and!; try done; intros reason bp Hin;
    repeat (apply elem_of_cons in Hin as [Hin|Hin]; [discriminate Hin|]);
    by apply elem_of_nil in Hin.
Qed.

(** C9: the hit counts move only on a stop whose reason is [BREAKPOINT].
    When the enabled connection stopped for another reason, or has no stop
    location, [_updateBreakpointHitCount] changes nothing and the whole
    pause notification changes no stored breakpoint and no descriptor and
    sends no breakpoint event.  When it stopped on a breakpoint, the
    stored breakpoint found at the stop location has its [hitCount] raised
    by one and every other stored breakpoint is as before; of the
    descriptors only the one whose id is that breakpoint's can change, and
    it takes over the new count. *)
Theorem hit_count_only_on_breakpoint_stop (h : Handler) (c : Connection) :
  enabledConnection (_connectionMultiplexer h) = Some c →
  ((conn_stopReason c ≠ BREAKPOINT ∨ conn_stopBreakpointLocation c = None) →
   _updateBreakpointHitCount h = returns h []
   ∧ ∀ status,
       status = AllConnectionsPaused ∨ status = SingleConnectionPaused →
       breakpointStore (_connectionMultiplexer (final (_onStatusChanged status h)))
       = breakpointStore (_connectionMultiplexer h)
       ∧ heap (final (_onStatusChanged status h)) = heap h
       ∧ ∀ reason bp,
           BreakpointEvent reason bp ∉ sent (effects (_onStatusChanged status h)))
  ∧ (∀ stopLocation,
       conn_stopReason c = BREAKPOINT →
       conn_stopBreakpointLocation c = Some stopLocation →
       getEnabledConnection_defined (_connectionMultiplexer h) = true →
       let store := breakpointStore (_connectionMultiplexer h) in
       let found := findBreakpoint store (filename stopLocation) (lineNumber stopLocation) in
       let h' := final (_updateBreakpointHitCount h) in
       (∀ j b, store !! j = Some b →
               breakpointStore (_connectionMultiplexer h') !! j
               = Some (if decide (found = Some j) then bump_hitCount b else b))
       ∧ length (breakpointStore (_connectionMultiplexer h')) = length store
       ∧ (∀ r d, heap h !! r = Some d →
                 heap h' !! r = Some d
                 ∨ ∃ k b vs,
                     found = Some k ∧ store !! k = Some b ∧ d_id d = chromeId b
                     ∧ vsBp d = Some vs
                     ∧ heap h' !! r
                       = Some (set_vsBp (mkBreakpoint (bp_verified vs) (bp_line vs) (bp_id vs)
                                                      (Some (hitCount b + 1)%Z)) d))).
Proof.
  intros Hc. split.
  - intros Hstop. pose proof (no_update_without_breakpoint_stop h c Hc Hstop) as E.
    split; [exact E|]. intros status Hs.
    assert (_onStatusChanged status h
            = andThen (returns h [Log "debug" "Sending status: "]) _sendPausedMessage) as ->.
    { unfold _onStatusChanged, andThen. simpl.
      destruct Hs as [-> | ->]; rewrite E; reflexivity. }
    unfold andThen. simpl.
    destruct (_sendPausedMessage_frame h) as (Hs1 & Hs2 & Hs3).
    split_and!; [done|done|]. intros reason bp Hin. by apply (Hs3 reason bp).
  - intros stopLocation Hreason Hloc Hdef store found h'.
    subst h'. unfold _updateBreakpointHitCount.
    rewrite Hc, Hdef, Hreason, Hloc. simpl. fold store. fold found.
    destruct found as [k|] eqn:Hfound; simpl.
    2:{ split_and!; [|done|by left]. intros j b Hj.
        first [done | by rewrite decide_False]. }
    destruct (findBreakpoint_Some _ _ _ _ Hfound) as (hhBp & Hk & _).
    rewrite Hk.
    assert (∀ j b, store !! j = Some b →
                   <[k:=bump_hitCount hhBp]> store !! j
                   = Some (if decide (Some k = Some j) then bump_hitCount b else b)) as Hstore.
    { intros j b Hj. destruct (decide (k = j)) as [->|Hne].
      - rewrite decide_True by done. rewrite list_lookup_insert_eq.
        + congruence.
        + by eapply lookup_lt_Some.
      - rewrite decide_False by congruence. by rewrite list_lookup_insert_ne. }
    rewrite _getBreakpointById_frame.
    change (chromeId (bump_hitCount hhBp)) with (chromeId hhBp).
    destruct (_getBreakpointById (chromeId hhBp) h) as [[r0 vs]|] eqn:Hby; simpl.
    2:{ split_and!; [done|by rewrite length_insert|by left]. }
    split_and!; [done|by rewrite length_insert|].
    intros r d Hr. destruct (decide (r = r0)) as [->|Hne].
    + right. destruct (_getBreakpointById_Some _ _ _ _ Hby) as (d0 & Hd0 & Hid & Hvs).
      assert (d0 = d) as -> by congruence.
      exists k, hhBp, vs. split_and!; try done.
      rewrite list_lookup_alter_eq, Hr. reflexivity.
    + left. by rewrite list_lookup_alter_ne.
Qed.

(** ** DebuggerHandler: collections *)

Section Collections.
Context {A K : Type} `{EqDecision K} (key : A → K).

Lemma elem_of_new_Set_1 (l : list A) x : x ∈ new_Set key l → x ∈ l.
Proof.
  revert x. induction l as [|y l IH]; simpl; intros x Hx; [done|].
  apply elem_of_cons in Hx as [->|Hx]; [apply list_elem_of_here|].
  apply list_elem_of_filter in Hx as [_ Hx]. apply list_elem_of_further. by apply IH.
Qed.

Lemma elem_of_new_Set_2 (l : list A) x :
  x ∈ l → ∃ y, y ∈ new_Set key l ∧ key y = key x.
Proof.
  induction l as [|z l IH]; simpl; intros Hx; [by apply elem_of_nil in Hx|].
  apply elem_of_cons in Hx as [->|Hx].
  - exists z. split; [apply list_elem_of_here|done].
  - destruct (IH Hx) as (y & Hy & Hk).
    destruct (decide (key y = key z)) as [Heq|Hne].
    + exists z. split; [apply list_elem_of_here|congruence].
    + exists y. split; [|done]. apply list_elem_of_further.
      apply list_elem_of_filter. by split.
Qed.

End Collections.

Lemma elem_of_new_Set_id (l : list nat) x : x ∈ new_Set (λ r : nat, r) l ↔ x ∈ l.
Proof.
  split; [apply elem_of_new_Set_1|]. intros Hx.
  destruct (elem_of_new_Set_2 (λ r : nat, r) l x Hx) as (y & Hy & Heq).
  simpl in Heq. by subst.
Qed.

Lemma setDifference_nil {A B H} `{EqDecision H}
  (a : list A) (b : list B) (hash_a : A → H) (hash_b : B → H) :
  (∀ x, x ∈ a → hash_a x ∈ (hash_b <$> b)) →
  setDifference a b hash_a hash_b = [].
Proof.
  intros Hall. unfold setDifference. induction a as [|x a IH]; [done|].
  rewrite filter_cons. destruct (decide _) as [Hno|_].
  - destruct Hno. apply Hall. apply list_elem_of_here.
  - apply IH. intros y Hy. apply Hall. by apply list_elem_of_further.
Qed.

Lemma elem_of_setDifference {A B H} `{EqDecision H}
  (a : list A) (b : list B) (hash_a : A → H) (hash_b : B → H) x :
  x ∈ setDifference a b hash_a hash_b ↔ (hash_a x ∉ (hash_b <$> b)) ∧ x ∈ a.
Proof.
  unfold setDifference. apply (list_elem_of_filter (λ x, hash_a x ∉ (hash_b <$> b))).
Qed.

Lemma Map_get_set_eq {V} key (value : V) m :
  Map_get key (Map_set key value m) = Some value.
Proof.
  induction m as [|[k v] m IH]; simpl.
  - by rewrite String.eqb_refl.
  - destruct (String.eqb k key) eqn:E; simpl; by rewrite E.
Qed.

Lemma Map_get_set_ne {V} key key' (value : V) m :
  key ≠ key' → Map_get key' (Map_set key value m) = Map_get key' m.
Proof.
  intros Hne. induction m as [|[k v] m IH]; simpl.
  - destruct (String.eqb_spec key key'); [done|reflexivity].
  - destruct (String.eqb_spec k key) as [->|Hk]; simpl.
    + destruct (String.eqb_spec key key'); [done|reflexivity].
    + by destruct (String.eqb k key').
Qed.

Lemma Map_set_same {V} key (value : V) m :
  Map_get key m = Some value → Map_set key value m = m.
Proof.
  induction m as [|[k v] m IH]; simpl; [done|].
  destruct (String.eqb k key) eqn:E; [congruence|]. intros H. by rewrite IH.
Qed.

Lemma NoDup_fmap_eq {A B} (f : A → B) (l : list A) x y :
  NoDup (f <$> l) → x ∈ l → y ∈ l → f x = f y → x = y.
Proof.
  induction l as [|z l IH]; simpl; intros Hnd Hx Hy Hf; [by apply elem_of_nil in Hx|].
  apply NoDup_cons in Hnd as [Hz Hnd].
  apply elem_of_cons in Hx as [->|Hx]; apply elem_of_cons in Hy as [->|Hy]; try done.
  - destruct Hz. rewrite Hf. by apply list_elem_of_fmap_2.
  - destruct Hz. rewrite <- Hf. by apply list_elem_of_fmap_2.
  - by apply IH.
Qed.

(** ** DebuggerHandler: how the heap of descriptors evolves *)

Lemma later_state_refl d : later_state d d.
Proof. by repeat split. Qed.

Lemma later_state_trans d1 d2 d3 :
  later_state d1 d2 → later_state d2 d3 → later_state d1 d3.
Proof.
  intros (?&?&?&?&?) (?&?&?&?&?). repeat split; try congruence. auto.
Qed.

Lemma heap_le_refl heap : heap_le heap heap.
Proof. intros r d H. exists d. split; [done|apply later_state_refl]. Qed.

Lemma heap_le_trans h1 h2 h3 : heap_le h1 h2 → heap_le h2 h3 → heap_le h1 h3.
Proof.
  intros H12 H23 r d Hr. destruct (H12 r d Hr) as (d2 & Hr2 & Hl2).
  destruct (H23 r d2 Hr2) as (d3 & Hr3 & Hl3). exists d3. split; [done|].
  by eapply later_state_trans.
Qed.

Lemma heap_le_app heap objects : heap_le heap (heap ++ objects).
Proof.
  intros r d H. exists d. split; [|apply later_state_refl].
  by apply lookup_app_l_Some.
Qed.

Lemma heap_le_alter f r heap :
  (∀ d, later_state d (f d)) → heap_le heap (alter f r heap).
Proof.
  intros Hf r' d H. destruct (decide (r = r')) as [->|Hne].
  - exists (f d). split; [|apply Hf]. by rewrite list_lookup_alter_eq, H.
  - exists d. split; [|apply later_state_refl]. by rewrite list_lookup_alter_ne.
Qed.

Lemma none_settled_refl heap : none_settled heap heap.
Proof. intros r d H Hd. eauto. Qed.

Lemma none_settled_alter f r heap :
  (∀ d, vsBpDeferred (f d) = vsBpDeferred d) → none_settled heap (alter f r heap).
Proof.
  intros Hf r' d' H Hd. destruct (decide (r = r')) as [->|Hne].
  - rewrite list_lookup_alter_eq in H. destruct (heap !! r') as [d|] eqn:E; [|done].
    simpl in H. injection H as <-. exists d. split; [done|]. by rewrite <- Hf.
  - rewrite list_lookup_alter_ne in H by done. eauto.
Qed.

Lemma later_state_set_vsBp b d : later_state d (set_vsBp b d).
Proof. by repeat split. Qed.

Lemma later_state_settle b d : later_state d (set_vsBp b (resolve_deferred d)).
Proof. by repeat split. Qed.

Lemma benign_same h h' es completion :
  _breakpoints h' = _breakpoints h →
  _breakpointId h' = _breakpointId h →
  heap h' = heap h →
  forallb quiet es = true →
  benign h (mkRun h' es completion).
Proof.
  intros Hb Hi Hh Hq. unfold benign. simpl. rewrite Hh.
  split_and!; try done; [apply heap_le_refl|apply none_settled_refl].
Qed.

Lemma benign_andThen h r k :
  benign h r → (∀ h', benign h' (k h')) → benign h (andThen r k).
Proof.
  intros (Hb & Hi & Hle & Hns & Hq & Hlen) Hk. unfold andThen.
  destruct (completion r); [|by split_and!].
  destruct (Hk (final r)) as (Hb' & Hi' & Hle' & Hns' & Hq' & Hlen').
  unfold benign. simpl. split_and!.
  - congruence.
  - congruence.
  - by eapply heap_le_trans.
  - intros r0 d' H Hd. destruct (Hns' r0 d' H Hd) as (d1 & H1 & Hd1). eauto.
  - rewrite forallb_app. by rewrite Hq, Hq'.
  - congruence.
Qed.

Lemma benign_resolveBreakpoint bpId h : benign h (_resolveBreakpoint bpId h).
Proof.
  unfold _resolveBreakpoint. destruct (_getBreakpointById bpId h) as [[r b]|].
  - unfold benign. simpl. split_and!; try done.
    + apply heap_le_alter. intros d. apply later_state_set_vsBp.
    + by apply none_settled_alter.
    + apply length_alter.
  - by apply benign_same.
Qed.

Lemma benign_updateBreakpointHitCount h : benign h (_updateBreakpointHitCount h).
Proof.
  unfold _updateBreakpointHitCount.
  repeat (case_match; try by apply benign_same).
  unfold benign. simpl. split_and!; try done.
  - apply heap_le_alter. intros d. apply later_state_set_vsBp.
  - by apply none_settled_alter.
  - apply length_alter.
Qed.

Lemma benign_sendPausedMessage h : benign h (_sendPausedMessage h).
Proof.
  unfold _sendPausedMessage.
  destruct (getEnabledConnectionId _), (requestSwitchMessage _); by apply benign_same.
Qed.

Lemma benign_endSession h : benign h (_endSession h).
Proof.
  unfold _endSession, UniversalDisposable_dispose.
  destruct (disposed (_subscriptions h)); apply benign_same; try done.
  simpl. induction (teardowns (_subscriptions h)); by simpl.
Qed.

Lemma benign_onStatusChanged status h : benign h (_onStatusChanged status h).
Proof.
  unfold _onStatusChanged. apply benign_andThen; [by apply benign_same|].
  intros h'. destruct status.
  - apply benign_andThen; [apply benign_updateBreakpointHitCount|].
    apply benign_sendPausedMessage.
  - apply benign_andThen; [apply benign_updateBreakpointHitCount|].
    apply benign_sendPausedMessage.
  - apply benign_endSession.
  - by apply benign_same.
Qed.

Lemma benign_onNotification notifyName h : benign h (_onNotification notifyName h).
Proof.
  destruct notifyName; simpl; [apply benign_resolveBreakpoint| |]; by apply benign_same.
Qed.

Lemma benign_resume h : benign h (resume h).
Proof.
  unfold resume. destruct (_hadFirstContinuationCommand h); [by apply benign_same|].
  destruct (UniversalDisposable_add _ _); by apply benign_same.
Qed.

(** ** DebuggerHandler: one turn of the event loop *)

Lemma quiet_no_remove es i :
  forallb quiet es = true → Call (mux_removeBreakpoint i) ∉ es.
Proof.
  intros Hq Hin. rewrite forallb_forall in Hq.
  apply list_elem_of_In in Hin. by apply Hq in Hin.
Qed.

Lemma follows_quiet w w' es :
  trace w' = trace w ++ es →
  forallb quiet es = true →
  heap_le (heap (handler w)) (heap (handler w')) →
  none_settled (heap (handler w)) (heap (handler w')) →
  (_breakpointId (handler w) ≤ _breakpointId (handler w'))%nat →
  follows w w' es.
Proof.
  intros Ht Hq Hle Hns Hc. unfold follows. split_and!; try done.
  - intros i Hin. by apply quiet_no_remove in Hin.
  - intros r d' H Hd. left. by eapply Hns.
Qed.

Lemma follows_idle w w' :
  trace w' = trace w →
  heap (handler w') = heap (handler w) →
  _breakpointId (handler w') = _breakpointId (handler w) →
  follows w w' [].
Proof.
  intros Ht Hh Hi. apply follows_quiet; rewrite ?Hh, ?Hi, ?app_nil_r; try done.
  - apply heap_le_refl.
  - apply none_settled_refl.
Qed.

Lemma follows_perform r w : benign (handler w) r → follows w (perform r w) (effects r).
Proof.
  intros (Hb & Hi & Hle & Hns & Hq & _). apply follows_quiet; try done. simpl. lia.
Qed.

Lemma none_settled_app heap objects :
  Forall (λ d, vsBpDeferred d = Pending) objects → none_settled heap (heap ++ objects).
Proof.
  intros Hall r d' H Hd. apply lookup_app_Some in H as [H|[_ H]]; [eauto|].
  rewrite Forall_lookup in Hall. apply Hall in H. congruence.
Qed.

(** What [setBreakpoints_diff] does to the heap and to the counter: one
    pending descriptor per source to add, with the next ids. *)
Lemma setBreakpoints_diff_allocates path bpSources h :
  ∃ objects,
    heap (setBreakpoints_diff path bpSources h).1 = heap h ++ objects
    ∧ Forall (λ d, vsBpDeferred d = Pending) objects
    ∧ _breakpointId (setBreakpoints_diff path bpSources h).1
      = _breakpointId h + length objects.
Proof.
  unfold setBreakpoints_diff. simpl. eexists. split_and!; [done| |].
  - apply Forall_lookup. intros i d Hi. rewrite list_lookup_imap in Hi.
    destruct (_ !! i); simplify_eq/=. done.
  - by rewrite length_imap.
Qed.

Lemma follows_setBreakpoints path bpSources w :
  follows w (setBreakpoints path bpSources w) [].
Proof.
  unfold setBreakpoints.
  destruct (setBreakpoints_diff_allocates path bpSources (handler w))
    as (objects & Hheap & Hpending & Hid).
  destruct (setBreakpoints_diff path bpSources (handler w)) as [h diff]. simpl in *.
  apply follows_quiet; simpl; rewrite ?app_nil_r, ?Hheap, ?Hid; try done.
  - apply heap_le_app.
  - by apply none_settled_app.
  - lia.
Qed.

Lemma follows_continueToLocation_set t connection path line w :
  ∃ es, follows w (continueToLocation_set t connection path line w) es.
Proof.
  unfold continueToLocation_set.
  destruct path as [p|], t as [t|]; eexists;
    (apply follows_quiet; simpl;
     [try reflexivity; symmetry; apply app_nil_r | done
     | apply heap_le_refl | apply none_settled_refl | lia]).
Qed.

Lemma follows_continueToLocation path line w :
  ∃ es, follows w (continueToLocation path line w) es.
Proof.
  unfold continueToLocation.
  destruct (enabledConnection _) as [c|]; [|eexists; by apply follows_idle].
  destruct (_temporaryBreakpointpointId _) as [temporary|];
    [|apply follows_continueToLocation_set].
  eexists. apply follows_quiet; simpl;
    [reflexivity | done | apply heap_le_refl | apply none_settled_refl | lia].
Qed.

Lemma follows_run_task t w : ∃ es, follows w (run_task t w) es.
Proof.
  unfold run_task.
  destruct (tasks w !! t) as [task|]; [|eexists; by apply follows_idle].
  destruct task; try (eexists; by apply follows_idle).
  - (* await of the deferred in _removeBreakpoint *)
    destruct (heap (handler w) !! bpDescriptior) as [d|] eqn:Hd;
      [|eexists; by apply follows_idle].
    destruct (vsBpDeferred d) eqn:Hdef; [eexists; by apply follows_idle|].
    exists [Call (mux_removeBreakpoint (d_id d))].
    unfold follows. simpl. split_and!; try done.
    + apply heap_le_refl.
    + intros i Hin. apply elem_of_cons in Hin as [[= ->]|Hin];
        [|by apply elem_of_nil in Hin]. eauto.
    + intros r d' H Hr. left. eauto.
  - (* the then handler that fulfils the deferred *)
    exists [Settle bpDescriptior].
    unfold follows. simpl. split_and!; try done.
    + apply heap_le_alter. intros d. apply later_state_settle.
    + intros i Hin. apply elem_of_cons in Hin as [[=]|Hin].
      by apply elem_of_nil in Hin.
    + intros r d' H Hr. destruct (decide (bpDescriptior = r)) as [->|Hne].
      * right. apply list_elem_of_here.
      * left. rewrite list_lookup_alter_ne in H by done. eauto.
  - (* Promise.all of the removals *)
    destruct (existsb _ _); [eexists; by apply follows_idle|].
    destruct (forallb _ _); [|eexists; by apply follows_idle].
    eexists. apply follows_quiet; simpl;
      [reflexivity | | apply heap_le_refl | apply none_settled_refl | lia].
    apply forallb_forall. intros e He. apply list_elem_of_In in He.
    apply list_elem_of_bind in He as (r & He & _).
    unfold _setBreakpointFromDesciptior in He. destruct (heap _ !! r); simpl in He.
    + apply elem_of_cons in He as [->|He]; [done|by apply elem_of_nil in He].
    + by apply elem_of_nil in He.
  - (* Promise.all of the deferreds *)
    destruct (forallb _ _); [|eexists; by apply follows_idle].
    eexists. apply follows_quiet; simpl;
      [reflexivity | by case_decide | apply heap_le_refl | apply none_settled_refl | lia].
  - (* the timer of continueToLocation *)
    eexists. pose proof (follows_perform _ w (benign_resume (handler w))) as H.
    unfold follows in *. simpl in *. exact H.
Qed.

Lemma follows_fulfil t value w : ∃ es, follows w (fulfil t value w) es.
Proof.
  unfold fulfil.
  destruct (tasks w !! t) as [task|]; [|eexists; by apply follows_idle].
  destruct task; try (eexists; by apply follows_idle).
  - destruct (_setBreakpointFromDesciptior_result _ _ _); eexists; by apply follows_idle.
  - destruct (follows_continueToLocation_set (Some t) connection path line
                (update (with_temporaryBreakpointpointId None) w)) as (es & H).
    exists es. unfold follows in *. simpl in *. exact H.
  - destruct (getBreakpoint _ _); [case_decide|]; eexists; by apply follows_idle.
Qed.

Lemma follows_reject t w : follows w (reject t w) [].
Proof.
  unfold reject. destruct (tasks w !! t) as [[]|]; by apply follows_idle.
Qed.

Lemma follows_step a w : ∃ es, follows w (step a w) es.
Proof.
  destruct a; simpl.
  - eexists. apply follows_setBreakpoints.
  - case_decide; eexists; by apply follows_idle.
  - apply follows_continueToLocation.
  - eexists. apply follows_perform. by apply benign_same.
  - eexists. apply follows_perform. by apply benign_same.
  - eexists. apply follows_perform. apply benign_resume.
  - eexists. apply follows_perform. by apply benign_same.
  - eexists. apply follows_perform. by apply benign_same.
  - eexists. apply follows_perform. by apply benign_same.
  - eexists. apply follows_perform. apply benign_endSession.
  - destruct (disposed _); eexists; [by apply follows_idle|].
    apply follows_perform. apply benign_onStatusChanged.
  - destruct (disposed _); eexists; [by apply follows_idle|].
    apply follows_perform. apply benign_onNotification.
  - apply follows_run_task.
  - apply follows_fulfil.
  - eexists. apply follows_reject.
  - eexists. by apply follows_idle.
Qed.

Lemma run_snoc actions a w : run (actions ++ [a]) w = step a (run actions w).
Proof. unfold run. by rewrite foldl_app. Qed.

(** ** DebuggerHandler: a removal waits for the resolution *)

Lemma removal_order_boot m : removal_order (boot m).
Proof.
  split.
  - intros r d H. simpl in H. by rewrite lookup_nil in H.
  - intros before after i H. simpl in H. by destruct before.
Qed.

Lemma removal_order_follows w w' es :
  follows w w' es → removal_order w → removal_order w'.
Proof.
  intros (Ht & Hle & _ & Hrem & Hset) [Hsettled Horder]. split.
  - intros r d' H Hd. rewrite Ht. apply elem_of_app.
    destruct (Hset r d' H Hd) as [(d & Hr & Hres)|Hin]; [left; eauto|by right].
  - intros before after i Hsplit. rewrite Ht in Hsplit.
    assert (∀ r d, heap (handler w) !! r = Some d → d_id d = i →
                   vsBpDeferred d = Resolved → Settle r ∈ before →
                   ∃ r d, heap (handler w') !! r = Some d ∧ d_id d = i
                          ∧ vsBpDeferred d = Resolved ∧ Settle r ∈ before) as Hmove.
    { intros r d Hr Hid Hres Hin. destruct (Hle r d Hr) as (d' & Hr' & Hl).
      destruct Hl as (Hid' & _ & _ & _ & Hres'). exists r, d'.
      split_and!; [done|congruence|auto|done]. }
    assert (Call (mux_removeBreakpoint i) ∈ es → trace w `prefix_of` before →
            ∃ r d, heap (handler w') !! r = Some d ∧ d_id d = i
                   ∧ vsBpDeferred d = Resolved ∧ Settle r ∈ before) as Hnew.
    { intros Hin [l ->]. destruct (Hrem i Hin) as (r & d & Hr & Hid & Hres).
      apply (Hmove r d Hr Hid Hres). apply elem_of_app. left. by eapply Hsettled. }
    apply app_eq_app in Hsplit as [l [[H1 H2]|[H1 H2]]].
    + destruct l as [|e l]; simpl in H2.
      * rewrite app_nil_r in H1. subst before. apply Hnew; [|done].
        rewrite <- H2. apply list_elem_of_here.
      * injection H2 as <- ->.
        destruct (Horder before l i H1) as (r & d & Hr & Hid & Hres & Hin).
        by apply (Hmove r d).
    + apply Hnew; [|by exists l]. rewrite H2. apply elem_of_app. right.
      apply list_elem_of_here.
Qed.

Lemma removal_order_run actions w : removal_order w → removal_order (run actions w).
Proof.
  induction actions as [|a actions IH] using rev_ind; [done|]. intros Hw.
  rewrite run_snoc. destruct (follows_step a (run actions w)) as [es Hes].
  eapply removal_order_follows; [exact Hes|]. by apply IH.
Qed.

(** ** DebuggerHandler: the descriptors of a session *)

Lemma keeps_perform r w : benign (handler w) r → keeps w (perform r w).
Proof. intros (Hb & _ & _ & _ & _ & Hlen). by split. Qed.

Lemma keeps_continueToLocation_set t connection path line w :
  keeps w (continueToLocation_set t connection path line w).
Proof. unfold continueToLocation_set. by destruct path, t. Qed.

Lemma keeps_step a w :
  (∀ path bpSources, a ≠ do_setBreakpoints path bpSources) → keeps w (step a w).
Proof.
  intros Hnot. destruct a; simpl; try (by split).
  - by destruct (Hnot path bpSources).
  - by case_decide.
  - unfold continueToLocation. destruct (enabledConnection _); [|done].
    destruct (_temporaryBreakpointpointId _); [done|].
    apply keeps_continueToLocation_set.
  - apply keeps_perform, benign_resume.
  - apply keeps_perform, benign_endSession.
  - destruct (disposed _); [done|]. apply keeps_perform, benign_onStatusChanged.
  - destruct (disposed _); [done|]. apply keeps_perform, benign_onNotification.
  - unfold run_task. destruct (tasks w !! t) as [[]|]; try done.
    + destruct (heap _ !! _) as [d|]; [|done]. by destruct (vsBpDeferred d).
    + split; [done|]. simpl. apply length_alter.
    + destruct (existsb _ _); [done|]. by destruct (forallb _ _).
    + by destruct (forallb _ _).
    + pose proof (keeps_perform _ w (benign_resume (handler w))) as H. exact H.
  - unfold fulfil. destruct (tasks w !! t) as [[]|]; try done.
    + by destruct (_setBreakpointFromDesciptior_result _ _ _).
    + pose proof (keeps_continueToLocation_set (Some t) connection path line
                    (update (with_temporaryBreakpointpointId None) w)) as H.
      exact H.
    + destruct (getBreakpoint _ _); [by case_decide|done].
  - unfold reject. by destruct (tasks w !! t) as [[]|].
Qed.

Lemma well_formed_initial m : well_formed (initial m).
Proof.
  split_and!.
  - intros r d H. simpl in H. by rewrite lookup_nil in H.
  - intros r1 r2 d1 d2 H. simpl in H. by rewrite lookup_nil in H.
  - intros path existing r H. by simpl in H.
Qed.

Lemma well_formed_follows w w' es :
  follows w w' es → keeps w w' → well_formed (handler w) → well_formed (handler w').
Proof.
  intros (_ & Hle & Hc & _ & _) [Hmap Hlen] (Hid & Hinj & Hval).
  assert (∀ r d', heap (handler w') !! r = Some d' →
                  ∃ d, heap (handler w) !! r = Some d ∧ d_id d' = d_id d) as Hback.
  { intros r d' H. assert (is_Some (heap (handler w) !! r)) as [d Hd].
    { apply lookup_lt_is_Some. rewrite <- Hlen. by eapply lookup_lt_Some. }
    destruct (Hle r d Hd) as (d'' & H'' & Hl). exists d. split; [done|].
    rewrite H in H''. injection H'' as <-. by destruct Hl as [-> _]. }
  split_and!.
  - intros r d' H. destruct (Hback r d' H) as (d & Hd & ->).
    apply Hid in Hd. lia.
  - intros r1 r2 d1 d2 H1 H2 Heq.
    destruct (Hback r1 d1 H1) as (e1 & He1 & Hi1).
    destruct (Hback r2 d2 H2) as (e2 & He2 & Hi2).
    apply (Hinj r1 r2 e1 e2 He1 He2). congruence.
  - intros path existing r H Hr. rewrite Hmap in H. rewrite Hlen. by eapply Hval.
Qed.

Lemma well_formed_diff path bpSources h :
  well_formed h → well_formed (setBreakpoints_diff path bpSources h).1.
Proof.
  intros (Hid & Hinj & Hval). unfold setBreakpoints_diff, well_formed. simpl.
  set (existing := default [] (Map_get path (_breakpoints h))).
  set (toAdd := setDifference (new_Set sb_ref bpSources) _ _ _).
  set (objects := imap _ toAdd).
  assert (∀ r d, (heap h ++ objects) !! r = Some d →
                 (heap h !! r = Some d ∧ (d_id d ≤ _breakpointId h)%nat)
                 ∨ (∃ i, r = (length (heap h) + i)%nat ∧ (i < length toAdd)%nat
                         ∧ d_id d = (_breakpointId h + S i)%nat)) as Hcases.
  { intros r d H. apply lookup_app_Some in H as [H|[Hge H]].
    - left. split; [done|]. by eapply Hid.
    - right. exists (r - length (heap h))%nat. unfold objects in H.
      rewrite list_lookup_imap in H.
      destruct (toAdd !! (r - length (heap h))%nat) as [v|] eqn:Hv; simplify_eq/=.
      apply lookup_lt_Some in Hv. split_and!; [lia|done|done]. }
  assert (length objects = length toAdd) as Hlen by apply length_imap.
  split_and!.
  - intros r d H. destruct (Hcases r d H) as [[_ Hle]|(i & _ & Hi & ->)]; lia.
  - intros r1 r2 d1 d2 H1 H2 Heq.
    destruct (Hcases r1 d1 H1) as [[H1' Hle1]|(i1 & -> & Hi1 & Hd1)];
      destruct (Hcases r2 d2 H2) as [[H2' Hle2]|(i2 & -> & Hi2 & Hd2)];
      [by eapply Hinj | lia | lia | lia].
  - intros path' existing' r H Hr. rewrite length_app.
    destruct (decide (path = path')) as [<-|Hne].
    + rewrite Map_get_set_eq in H. injection H as <-.
      apply elem_of_app in Hr as [Hr|Hr].
      * apply (list_elem_of_filter (λ bp, id_of h bp ∉ _)) in Hr as [_ Hr].
        unfold existing in Hr.
        destruct (Map_get path (_breakpoints h)) as [E|] eqn:HE; simpl in Hr;
          [|by apply elem_of_nil in Hr].
        pose proof (Hval path E r HE Hr). lia.
      * apply elem_of_seq in Hr. lia.
    + rewrite Map_get_set_ne in H by done. pose proof (Hval path' existing' r H Hr). lia.
Qed.

Lemma well_formed_step a w : well_formed (handler w) → well_formed (handler (step a w)).
Proof.
  intros Hw. destruct a;
    try (match goal with
         | |- well_formed (handler (step ?a w)) =>
             destruct (follows_step a w) as [es Hes]
         end;
         eapply well_formed_follows;
         [exact Hes | apply keeps_step; intros p S; discriminate | exact Hw]).
  change (step (do_setBreakpoints path bpSources) w)
    with (setBreakpoints path bpSources w).
  unfold setBreakpoints.
  pose proof (well_formed_diff path bpSources (handler w) Hw) as H.
  destruct (setBreakpoints_diff path bpSources (handler w)) as [h' diff].
  exact H.
Qed.

Lemma well_formed_run m actions : well_formed (handler (run actions (boot m))).
Proof.
  induction actions as [|a actions IH] using rev_ind; [apply well_formed_initial|].
  rewrite run_snoc. by apply well_formed_step.
Qed.

(** ** DebuggerHandler: a removal is asked for after the resolution *)

(** C3: in every run of the handler, whatever its client asks and however
    the multiplexer answers, each [removeBreakpoint] call on the
    multiplexer comes after the [vsBpDeferred] of the descriptor with that
    id was fulfilled: the fulfilment stands earlier in the trace, the
    descriptor is on the heap with its deferred resolved, and no other
    descriptor has its id.  The removal is the one of a [setBreakpoints]
    diff or of a direct [_removeBreakpoint]. *)
Theorem remove_call_after_resolution
  (m : ConnectionMultiplexer) (actions : list Action)
  (before after : list Effect) (breakpointId : nat) :
  trace (run actions (boot m))
  = before ++ Call (mux_removeBreakpoint breakpointId) :: after →
  ∃ r d,
    heap (handler (run actions (boot m))) !! r = Some d
    ∧ d_id d = breakpointId
    ∧ vsBpDeferred d = Resolved
    ∧ Settle r ∈ before
    ∧ ∀ r' d', heap (handler (run actions (boot m))) !! r' = Some d' →
               d_id d' = breakpointId → r' = r.
Proof.
  intros Hsplit.
  destruct (removal_order_run actions (boot m) (removal_order_boot m)) as [_ Horder].
  destruct (Horder before after breakpointId Hsplit) as (r & d & Hr & Hid & Hres & Hin).
  exists r, d. split_and!; try done.
  intros r' d' Hr' Hid'.
  destruct (well_formed_run m actions) as (_ & Hinj & _).
  eapply Hinj; [exact Hr'|exact Hr|congruence].
Qed.

(** ** DebuggerHandler: syncing the same breakpoints twice *)

Lemma setBreakpoints_diff_unfold path bpSources h :
  let existing := default [] (Map_get path (_breakpoints h)) in
  let desired := new_Set sb_ref bpSources in
  let toAdd :=
    setDifference desired (new_Set (λ r : nat, r) existing)
                  (λ v, Some (sb_line v)) (line_of h) in
  let toRemove :=
    setDifference (new_Set (λ r : nat, r) existing) desired
                  (line_of h) (λ v, Some (sb_line v)) in
  let keep := filter (λ bp, id_of h bp ∉ (id_of h <$> toRemove)) existing in
  let objects :=
    imap (λ i bpSrc,
            mkDescriptor (_breakpointId h + S i) path (sb_line bpSrc)
                         (default EmptyString (sb_condition bpSrc)) None Pending)
         toAdd in
  let fresh := seq (length (heap h)) (length toAdd) in
  setBreakpoints_diff path bpSources h
  = (mkHandler (_connectionMultiplexer h) (_subscriptions h)
               (_hadFirstContinuationCommand h) (_temporaryBreakpointpointId h)
               (_breakpointId h + length toAdd)
               (Map_set path (keep ++ fresh) (_breakpoints h))
               (heap h ++ objects),
     mkDiff fresh toRemove (keep ++ fresh)).
Proof. reflexivity. Qed.

Lemma elem_of_fmap_new_Set_id {B} (f : nat → B) (l : list nat) y :
  y ∈ (f <$> new_Set (λ r : nat, r) l) ↔ y ∈ (f <$> l).
Proof.
  rewrite !list_elem_of_fmap. split; intros (x & -> & Hx); exists x;
    (split; [done|]); by apply elem_of_new_Set_id.
Qed.

Lemma filter_all {A} (P : A → Prop) `{∀ x, Decision (P x)} (l : list A) :
  (∀ x, x ∈ l → P x) → filter P l = l.
Proof.
  induction l as [|x l IH]; intros Hall; [done|].
  rewrite filter_cons_True by (apply Hall, list_elem_of_here).
  f_equal. apply IH. intros y Hy. by apply Hall, list_elem_of_further.
Qed.

(** Once in sync, a sync with the same sources adds nothing, removes
    nothing and leaves the handler as it is. *)
Lemma in_sync_no_churn path bpSources h :
  in_sync path (new_Set sb_ref bpSources) h →
  ∃ existing,
    Map_get path (_breakpoints h) = Some existing
    ∧ setBreakpoints_diff path bpSources h = (h, mkDiff [] [] existing).
Proof.
  intros (existing & Hget & Hlines & Hcovered). exists existing. split; [done|].
  rewrite setBreakpoints_diff_unfold. rewrite Hget. simpl.
  rewrite (setDifference_nil (new_Set sb_ref bpSources)).
  2:{ intros v Hv. apply elem_of_fmap_new_Set_id. by apply Hcovered. }
  rewrite (setDifference_nil (new_Set (λ r : nat, r) existing)).
  2:{ intros r Hr. apply Hlines. by apply elem_of_new_Set_id. }
  simpl. rewrite filter_all by (intros x _; apply not_elem_of_nil).
  rewrite !app_nil_r, Nat.add_0_r, (Map_set_same _ _ _ Hget).
  by destruct h.
Qed.

Lemma line_of_later (heap heap' : list VsBreakpointpointDescriptor) r line :
  heap_le heap heap' →
  d_line <$> heap !! r = Some line → d_line <$> heap' !! r = Some line.
Proof.
  intros Hle H. destruct (heap !! r) as [d|] eqn:Hd; simplify_eq/=.
  destruct (Hle r d Hd) as (d' & -> & (_ & _ & Hl & _)). simpl. by rewrite Hl.
Qed.

Lemma in_sync_later path desired h h' :
  heap_le (heap h) (heap h') →
  Map_get path (_breakpoints h') = Map_get path (_breakpoints h) →
  in_sync path desired h → in_sync path desired h'.
Proof.
  intros Hle Hmap (existing & Hget & Hlines & Hcovered).
  exists existing. split_and!; [congruence| |].
  - intros r Hr. pose proof (Hlines r Hr) as Hin.
    apply list_elem_of_fmap in Hin as (v & Hv & Hin).
    unfold line_of in *. rewrite (line_of_later _ _ _ _ Hle Hv).
    by apply (list_elem_of_fmap_2 (λ v, Some (sb_line v))).
  - intros v Hv. pose proof (Hcovered v Hv) as Hin.
    apply list_elem_of_fmap in Hin as (r & Hr & Hin).
    apply list_elem_of_fmap. exists r. split; [|done].
    unfold line_of in *. symmetry. by apply (line_of_later _ _ _ _ Hle).
Qed.

(** The first sync brings the descriptors of its path in line with its
    sources. *)
Lemma diff_in_sync path bpSources h :
  well_formed h →
  in_sync path (new_Set sb_ref bpSources) (setBreakpoints_diff path bpSources h).1.
Proof.
  intros (Hid & Hinj & Hval). rewrite setBreakpoints_diff_unfold. simpl.
  set (existing := default [] (Map_get path (_breakpoints h))).
  set (desired := new_Set sb_ref bpSources).
  set (toAdd := setDifference desired _ _ _).
  set (toRemove := setDifference _ desired _ _).
  set (keep := filter _ existing).
  set (objects := imap _ toAdd).
  assert (∀ r, r ∈ existing → ∃ d, heap h !! r = Some d) as Hvalid.
  { intros r Hr. apply lookup_lt_is_Some. unfold existing in Hr.
    destruct (Map_get path (_breakpoints h)) as [E|] eqn:HE; simpl in Hr;
      [by eapply Hval|by apply elem_of_nil in Hr]. }
  assert (∀ r, r ∈ existing → d_line <$> (heap h ++ objects) !! r = line_of h r) as Hold.
  { intros r Hr. destruct (Hvalid r Hr) as [d Hd]. unfold line_of.
    by rewrite (lookup_app_l_Some _ _ _ _ Hd), Hd. }
  assert (∀ i v, toAdd !! i = Some v →
                 d_line <$> (heap h ++ objects) !! (length (heap h) + i)%nat
                 = Some (sb_line v)) as Hnew.
  { intros i v Hi. rewrite lookup_app_r by lia.
    replace (length (heap h) + i - length (heap h))%nat with i by lia.
    unfold objects. by rewrite list_lookup_imap, Hi. }
  assert (∀ r, r ∈ keep ↔ r ∈ existing ∧ line_of h r ∈ ((λ v, Some (sb_line v)) <$> desired))
    as Hkeep.
  { intros r. unfold keep.
    rewrite (list_elem_of_filter (λ bp, id_of h bp ∉ (id_of h <$> toRemove))).
    split.
    - intros [Hno Hr]. split; [done|].
      destruct (decide (line_of h r ∈ ((λ v, Some (sb_line v)) <$> desired)))
        as [Hin|Hout]; [done|].
      destruct Hno. apply list_elem_of_fmap_2. apply elem_of_setDifference.
      split; [done|]. by apply elem_of_new_Set_id.
    - intros [Hr Hin]. split; [|done]. intros Hids.
      apply list_elem_of_fmap in Hids as (r' & Heq & Hr').
      apply elem_of_setDifference in Hr' as [Hout Hr'].
      apply (proj1 (elem_of_new_Set_id _ _)) in Hr'.
      destruct (Hvalid r Hr) as [d Hd]. destruct (Hvalid r' Hr') as [d' Hd'].
      unfold id_of in Heq. rewrite Hd, Hd' in Heq. simpl in Heq.
      assert (r = r') as <- by (eapply Hinj; [exact Hd|exact Hd'|congruence]).
      done. }
  exists (keep ++ seq (length (heap h)) (length toAdd)).
  split_and!; [apply Map_get_set_eq| |].
  - intros r Hr. unfold line_of. simpl. apply elem_of_app in Hr as [Hr|Hr].
    + apply Hkeep in Hr as [Hr Hin]. by rewrite Hold.
    + apply elem_of_seq in Hr as [Hge Hlt].
      assert (is_Some (toAdd !! (r - length (heap h))%nat)) as [v Hv]
        by (apply lookup_lt_is_Some; lia).
      replace r with (length (heap h) + (r - length (heap h)))%nat by lia.
      rewrite (Hnew _ _ Hv). apply (list_elem_of_fmap_2 (λ v, Some (sb_line v))).
      apply list_elem_of_lookup_2 in Hv. by apply elem_of_setDifference in Hv as [_ Hv].
  - intros v Hv. unfold line_of. simpl. apply list_elem_of_fmap.
    destruct (decide (Some (sb_line v) ∈ (line_of h <$> new_Set (λ r : nat, r) existing)))
      as [Hin|Hout].
    + apply (proj1 (elem_of_fmap_new_Set_id _ _ _)) in Hin.
      apply list_elem_of_fmap in Hin as (r & Hline & Hr). exists r. split.
      * rewrite Hold by done. done.
      * apply elem_of_app. left. apply Hkeep. split; [done|].
        rewrite <- Hline. by apply (list_elem_of_fmap_2 (λ v, Some (sb_line v))).
    + assert (v ∈ toAdd) as Hadd by by apply elem_of_setDifference.
      apply list_elem_of_lookup in Hadd as [i Hi].
      exists (length (heap h) + i)%nat. split; [by rewrite (Hnew _ _ Hi)|].
      apply elem_of_app. right. apply elem_of_seq.
      apply lookup_lt_Some in Hi. lia.
Qed.

Lemma step_keeps_path a w path :
  (∀ bpSources, a ≠ do_setBreakpoints path bpSources) →
  Map_get path (_breakpoints (handler (step a w)))
  = Map_get path (_breakpoints (handler w)).
Proof.
  intros Hnot. destruct a as [path' bpSources| | | | | | | | | | | | | | |];
    try (by (erewrite (proj1 (keeps_step _ w _)); [done|]));
    try (f_equal; apply keeps_step; intros p S; discriminate).
  change (step (do_setBreakpoints path' bpSources) w)
    with (setBreakpoints path' bpSources w).
  unfold setBreakpoints.
  pose proof (setBreakpoints_diff_unfold path' bpSources (handler w)) as H.
  destruct (setBreakpoints_diff path' bpSources (handler w)) as [h' diff].
  simpl in H. injection H as -> _. simpl.
  apply Map_get_set_ne. intros ->. by destruct (Hnot bpSources).
Qed.

Lemma in_sync_run path desired between w :
  Forall (λ a, ∀ bpSources, a ≠ do_setBreakpoints path bpSources) between →
  in_sync path desired (handler w) →
  in_sync path desired (handler (run between w)).
Proof.
  induction between as [|a between IH] using rev_ind; [done|].
  intros Hall Hsync. apply Forall_app in Hall as [Hall Ha].
  rewrite Forall_singleton in Ha. rewrite run_snoc.
  destruct (follows_step a (run between w)) as (es & _ & Hle & _).
  eapply in_sync_later; [exact Hle|exact (step_keeps_path _ _ _ Ha)|by apply IH].
Qed.

(** C2: the sync is idempotent.  In any run of the handler, after
    [setBreakpoints(path, S)] has been called, a second call with the same
    [S] computes an empty add set and an empty remove set, creates no
    descriptor and leaves the map, the id counter and the heap as they
    are; the call and its continuation after the [await] of the removals
    ask nothing of the multiplexer.  This holds right after the first call
    and after any further turns of the event loop other than a sync of the
    same path. *)
Theorem setBreakpoints_twice_no_churn
  (m : ConnectionMultiplexer) (actions between : list Action)
  (path : string) (bpSources : list SourceBreakpoint) :
  Forall (λ a, ∀ bpSources', a ≠ do_setBreakpoints path bpSources') between →
  let first := step (do_setBreakpoints path bpSources) (run actions (boot m)) in
  let later := run between first in
  ∃ existing,
    Map_get path (_breakpoints (handler first)) = Some existing
    ∧ setBreakpoints_diff path bpSources (handler later)
      = (handler later, mkDiff [] [] existing)
    ∧ trace (run [do_setBreakpoints path bpSources;
                  continue_task (length (tasks later))] later)
      = trace later.
Proof.
  intros Hbetween first later.
  assert (in_sync path (new_Set sb_ref bpSources) (handler first)) as Hfirst.
  { unfold first.
    change (step (do_setBreakpoints path bpSources) (run actions (boot m)))
      with (setBreakpoints path bpSources (run actions (boot m))).
    unfold setBreakpoints.
    pose proof (diff_in_sync path bpSources _ (well_formed_run m actions)) as H.
    destruct (setBreakpoints_diff path bpSources _) as [h' diff]. exact H. }
  pose proof (in_sync_run path _ between first Hbetween Hfirst) as Hlater.
  fold later in Hlater.
  destruct (in_sync_no_churn path bpSources (handler later) Hlater) as (existing & Hget & Hdiff).
  exists existing. split_and!; [|done|].
  - rewrite <- Hget. unfold later. clear -Hbetween.
    induction between as [|a between IH] using rev_ind; [done|].
    apply Forall_app in Hbetween as [Hall Ha]. rewrite Forall_singleton in Ha.
    rewrite run_snoc, (step_keeps_path _ _ _ Ha). by apply IH.
  - unfold run. simpl foldl.
    change (step (do_setBreakpoints path bpSources) later)
      with (setBreakpoints path bpSources later).
    unfold setBreakpoints. rewrite Hdiff. simpl. unfold run_task. simpl.
    rewrite list_lookup_middle by done. simpl. by rewrite app_nil_r.
Qed.

(** ** DebuggerHandler: the properties on a session *)

Lemma setBreakpoints_twice_no_churn_witness :
  let first := step (do_setBreakpoints "a.php" example_sources) (boot idle_multiplexer) in
  let later := run [continue_task 0; do_pause] first in
  ∃ existing,
    Map_get "a.php" (_breakpoints (handler first)) = Some existing
    ∧ setBreakpoints_diff "a.php" example_sources (handler later)
      = (handler later, mkDiff [] [] existing)
    ∧ trace (run [do_setBreakpoints "a.php" example_sources;
                  continue_task (length (tasks later))] later)
      = trace later.
Proof.
  apply (setBreakpoints_twice_no_churn idle_multiplexer [] [continue_task 0; do_pause]
                                       "a.php" example_sources).
  repeat constructor; intros S'; discriminate.
Defined.

(** The first of the two calls did create descriptors. *)
Example first_sync_adds_two :
  (setBreakpoints_diff "a.php" example_sources (initial idle_multiplexer)).2
  = mkDiff [0; 1] [] [0; 1].
Proof. reflexivity. Qed.

(** A changed condition on an existing line is no change for the diff. *)
Example condition_change_is_no_churn :
  let first := step (do_setBreakpoints "a.php" example_sources) (boot idle_multiplexer) in
  (setBreakpoints_diff "a.php" [mkSourceBreakpoint 2 10 (Some "y"); mkSourceBreakpoint 3 20 None]
                       (handler first)).2
  = mkDiff [] [] [0; 1].
Proof. reflexivity. Qed.

(** While the deferred is pending the removal is not issued. *)
Example removal_waits_while_pending :
  trace (run pending_removal (boot (stopped_at "step" None)))
  = [Call (store_setFileLineBreakpoint 1 "a.php" 10 EmptyString)]
  ∧ tasks (run pending_removal (boot (stopped_at "step" None))) !! 2
    = Some (remove_await_deferred 0).
Proof. split; reflexivity. Qed.

Example removal_after_resolution_trace :
  trace (run resolved_removal (boot (stopped_at "step" None)))
  = [Call (store_setFileLineBreakpoint 1 "a.php" 10 EmptyString); Settle 0]
    ++ Call (mux_removeBreakpoint 1) :: [].
Proof. reflexivity. Qed.

Lemma remove_call_after_resolution_witness :
  ∃ r d,
    heap (handler (run resolved_removal (boot (stopped_at "step" None)))) !! r = Some d
    ∧ d_id d = 1
    ∧ vsBpDeferred d = Resolved
    ∧ Settle r ∈ [Call (store_setFileLineBreakpoint 1 "a.php" 10 EmptyString); Settle 0]
    ∧ ∀ r' d',
        heap (handler (run resolved_removal (boot (stopped_at "step" None)))) !! r' = Some d' →
        d_id d' = 1 → r' = r.
Proof.
  apply (remove_call_after_resolution (stopped_at "step" None) resolved_removal
           [Call (store_setFileLineBreakpoint 1 "a.php" 10 EmptyString); Settle 0] [] 1).
  reflexivity.
Defined.

Lemma hit_count_only_on_breakpoint_stop_witness :
  (let h := handler (run example_session (boot (stopped_at "step" (Some 20%Z)))) in
   _updateBreakpointHitCount h = returns h [])
  ∧ (let h := handler (run example_session (boot (stopped_at BREAKPOINT (Some 20%Z)))) in
     let h' := final (_updateBreakpointHitCount h) in
     breakpointStore (_connectionMultiplexer h') !! 0
     = Some (mkHhBreakpoint 1 "a.php" 10 0 true None)
     ∧ breakpointStore (_connectionMultiplexer h') !! 1
       = Some (mkHhBreakpoint 2 "a.php" 20 1 true None)).
Proof.
  split.
  - intros h.
    apply (proj1 (hit_count_only_on_breakpoint_stop
                    h (mkConnection 5 "step" (Some (mkLocation "a.php" 20))) eq_refl)).
    left. discriminate.
  - intros h h'.
    destruct (proj2 (hit_count_only_on_breakpoint_stop
                       h (mkConnection 5 BREAKPOINT (Some (mkLocation "a.php" 20))) eq_refl)
                    (mkLocation "a.php" 20) eq_refl eq_refl eq_refl) as (Hstore & _ & _).
    split.
    + exact (Hstore 0 (mkHhBreakpoint 1 "a.php" 10 0 true None) eq_refl).
    + exact (Hstore 1 (mkHhBreakpoint 2 "a.php" 20 0 true None) eq_refl).
Defined.

(** On the same session the descriptor of line 20 takes over the count
    and the client is told. *)
Example hit_count_reaches_descriptor :
  let h := handler (run example_session (boot (stopped_at BREAKPOINT (Some 20%Z)))) in
  sent (effects (_updateBreakpointHitCount h))
  = [BreakpointEvent "update" (mkBreakpoint true 20 (Some 2) (Some 1%Z))]
  ∧ (vsBp <$> heap (final (_updateBreakpointHitCount h)) !! 0)
    = (vsBp <$> heap h !! 0).
Proof. split; reflexivity. Qed.

End DebuggerHandlerFacts.

(** * Further properties *)

(** ** CommandDispatcher: routing and the session life cycle *)

Module CommandDispatcherRouting.
Import CommandDispatcher.

Lemma switch_ind {A} (P : A → Prop) v (cases : list (string * A)) default :
  Forall (λ c, P c.2) cases → P default → P (switch v cases default).
Proof.
  intros Hall Hd. induction Hall as [|[label body] rest Hb Hrest IH]; simpl; [done|].
  by destruct (strict_eq_str v label).
Qed.

Lemma _triggerDebuggerAction_final actionId d :
  final (_triggerDebuggerAction actionId d) = d.
Proof.
  unfold _triggerDebuggerAction. destruct (_bridgeAdapter d) as [a|]; [|done].
  apply (switch_ind (λ r, final r = d)); [|done]. by repeat constructor.
Qed.

(** X1: [send] never writes a field of the dispatcher: whatever the
    arguments, bound or not, and also when it throws, the dispatcher after
    the call is the dispatcher before it. *)
Theorem send_leaves_dispatcher (args : list JsVal) (d : Dispatcher) :
  final (send args d) = d.
Proof.
  unfold send, _sendViaNuclideChannel. destruct (_bridgeAdapter d) as [a|]; [|done].
  apply (switch_ind (λ r, final r = d)); [|done].
  repeat constructor. simpl. apply _triggerDebuggerAction_final.
Qed.

(** X2: with an adapter bound, every command name with a [case] of its
    own, other than [triggerDebuggerAction], makes exactly one call on the
    bound adapter, reports nothing and returns. *)
Theorem send_known_command_calls_once
  (d : Dispatcher) (a : nat) (name : string) (more : list JsVal) :
  connected a d →
  name ∈ commandNames →
  name ≠ "triggerDebuggerAction" →
  ∃ c, send (JStr name :: more) d = returns d [Call a c].
Proof.
  intros Ha Hin Hne. unfold connected in Ha.
  unfold send, _sendViaNuclideChannel. rewrite Ha. unfold commandNames in Hin.
  repeat (apply elem_of_cons in Hin as [->|Hin]; [try done; eexists; reflexivity|]).
  by apply elem_of_nil in Hin.
Qed.

Lemma send_known_command_calls_once_witness :
  ∃ c, send [JStr "DeleteBreakpoint"; JNum 4] bound = returns bound [Call 7 c].
Proof.
  apply (send_known_command_calls_once bound 7 "DeleteBreakpoint" [JNum 4]).
  - reflexivity.
  - apply (bool_decide_unpack ("DeleteBreakpoint" ∈ commandNames)). vm_compute. exact I.
  - discriminate.
Defined.

(** X3: the step and run actions of [triggerDebuggerAction] are the
    commands [StepOver], [StepInto], [StepOut] and [Continue] under another
    name: on every dispatcher both spellings run alike. *)
Theorem trigger_action_is_command
  (action name : string) (more : list JsVal) (d : Dispatcher) :
  (action, name) ∈ actionCommands →
  send (JStr "triggerDebuggerAction" :: JStr action :: more) d = send [JStr name] d.
Proof.
  intros Hin. unfold send, _sendViaNuclideChannel, actionCommands in *.
  destruct (_bridgeAdapter d) as [a|] eqn:Ha; [|done].
  repeat (apply elem_of_cons in Hin as [[= -> ->]|Hin];
          [cbn -[_triggerDebuggerAction]; unfold _triggerDebuggerAction;
           rewrite Ha; reflexivity|]).
  by apply elem_of_nil in Hin.
Qed.

Lemma trigger_action_is_command_witness :
  send [JStr "triggerDebuggerAction"; JStr "debugger.step-into"] bound
  = send [JStr "StepInto"] bound.
Proof.
  apply (trigger_action_is_command "debugger.step-into" "StepInto" [] bound).
  apply (bool_decide_unpack (("debugger.step-into", "StepInto") ∈ actionCommands)).
  vm_compute. exact I.
Defined.

(** X4: [runtimeEvaluate] is [evaluateOnSelectedCallFrame] in the object
    group [console]: whatever follows the expression in the arguments is
    ignored. *)
Theorem runtimeEvaluate_is_console_evaluation
  (transactionId expression : JsVal) (more : list JsVal) (d : Dispatcher) :
  send (JStr "runtimeEvaluate" :: transactionId :: expression :: more) d
  = send [JStr "evaluateOnSelectedCallFrame"; transactionId; expression; JStr "console"] d.
Proof.
  unfold send, _sendViaNuclideChannel. by destruct (_bridgeAdapter d).
Qed.

Lemma run_teardowns adapter ts :
  foldl (λ acc t, run_teardown t acc) (adapter, []) ts
  = match ts, adapter with
    | [], _ => (adapter, [])
    | _ :: _, Some a => (None, [Call a dispose])
    | _ :: _, None => (None, [])
    end.
Proof.
  destruct ts as [|[] ts]; [done|]. simpl.
  assert (∀ es, foldl (λ acc t, run_teardown t acc) (None, es) ts = (None, es)) as Hnone.
  { induction ts as [|[] ts IH]; intros es; [done|]. simpl. apply IH. }
  destruct adapter; apply Hnone.
Qed.

Lemma cleanup_unsets_subscriptions d :
  _sessionSubscriptions (final (cleanupSessionState d)) = None.
Proof.
  unfold cleanupSessionState. destruct (_sessionSubscriptions d) as [ts|] eqn:Hs; [|done].
  by destruct (foldl _ _ ts).
Qed.

Lemma cleanup_without_subscriptions d :
  _sessionSubscriptions d = None → cleanupSessionState d = returns d [].
Proof. intros Hs. unfold cleanupSessionState. by rewrite Hs. Qed.

(** X5: [cleanupSessionState] returns, leaves no session subscriptions,
    and disposes at most one adapter, the one bound when it is called;
    called again at once it does nothing. *)
Theorem cleanup_disposes_bound_adapter_once (d : Dispatcher) :
  completion (cleanupSessionState d) = Returned
  ∧ _sessionSubscriptions (final (cleanupSessionState d)) = None
  ∧ (effects (cleanupSessionState d) = []
     ∨ ∃ a, _bridgeAdapter d = Some a
            ∧ _bridgeAdapter (final (cleanupSessionState d)) = None
            ∧ effects (cleanupSessionState d) = [Call a dispose])
  ∧ cleanupSessionState (final (cleanupSessionState d))
    = returns (final (cleanupSessionState d)) [].
Proof.
  split_and!.
  - unfold cleanupSessionState. destruct (_sessionSubscriptions d) as [ts|]; [|done].
    by destruct (foldl _ _ ts).
  - apply cleanup_unsets_subscriptions.
  - unfold cleanupSessionState. destruct (_sessionSubscriptions d) as [ts|]; [|by left].
    rewrite run_teardowns. destruct ts as [|t ts], (_bridgeAdapter d) as [a|];
      simpl; (try by left). right. by exists a.
  - apply cleanup_without_subscriptions, cleanup_unsets_subscriptions.
Qed.

Lemma setupNuclideChannel_binds adapter d :
  setupNuclideChannel adapter d
  = returns {| _sessionSubscriptions :=
                 Some (default [] (_sessionSubscriptions d) ++ [UnbindBridgeAdapter]);
               _bridgeAdapter := Some adapter |} [].
Proof.
  unfold setupNuclideChannel, setupNuclideChannel_begin, _ensureSessionCreated,
    setupNuclideChannel_bound.
  destruct (_sessionSubscriptions d) as [ts|] eqn:Hs; simpl; by rewrite ?Hs.
Qed.

(** X6: an adapter replaced by a second [setupNuclideChannel] is never
    disposed: cleaning up after two setups disposes the second adapter
    only, although each setup registered its teardown. *)
Theorem replaced_adapter_is_not_disposed (d : Dispatcher) (a b : nat) :
  effects (cleanupSessionState
             (final (setupNuclideChannel b (final (setupNuclideChannel a d)))))
  = [Call b dispose].
Proof.
  rewrite !setupNuclideChannel_binds. unfold cleanupSessionState. simpl.
  rewrite run_teardowns. simpl.
  by destruct (default [] (_sessionSubscriptions d) ++ [UnbindBridgeAdapter]).
Qed.

(** X7: when the session is cleaned up while [setupNuclideChannel] awaits
    the bootstrap, the setup fails its [invariant] after it has bound the
    new adapter and before it registers the teardown: the adapter stays
    bound, a later [cleanupSessionState] does nothing, and commands still
    reach the adapter. *)
Theorem cleanup_during_bootstrap_leaves_adapter (d : Dispatcher) (a : nat) :
  let interrupted := final (cleanupSessionState (setupNuclideChannel_begin d)) in
  completion (setupNuclideChannel_bound a interrupted) = Thrown "AssertionError"
  ∧ _bridgeAdapter (final (setupNuclideChannel_bound a interrupted)) = Some a
  ∧ cleanupSessionState (final (setupNuclideChannel_bound a interrupted))
    = returns (final (setupNuclideChannel_bound a interrupted)) []
  ∧ send [JStr "Pause"] (final (setupNuclideChannel_bound a interrupted))
    = returns (final (setupNuclideChannel_bound a interrupted)) [Call a pause].
Proof.
  intros interrupted.
  assert (_sessionSubscriptions interrupted = None) as Hs
    by apply cleanup_unsets_subscriptions.
  unfold setupNuclideChannel_bound. rewrite Hs. by split_and!.
Qed.

End CommandDispatcherRouting.

(** ** ExpressionEvaluationManager: answers, registrations, scopes *)

Module ExpressionEvaluationManagerSessions.
Import ExpressionEvaluationManager.
Import ExpressionEvaluationManagerFacts.

Lemma run_app ops1 ops2 m :
  run (ops1 ++ ops2) m
  = ((run ops2 (run ops1 m).1).1, (run ops1 m).2 ++ (run ops2 (run ops1 m).1).2).
Proof.
  revert m. induction ops1 as [|op ops1 IH]; intros m; simpl.
  - by destruct (run ops2 m).
  - rewrite IH. destruct (run ops1 (final (perform op m))) as [m1 es1]. simpl.
    destruct (run ops2 m1) as [m2 es2]. simpl. by rewrite app_assoc.
Qed.

(** X8: every evaluation event belongs to an answered evaluation.  In
    any sequence of calls and answers, however the answers are
    interleaved with each other, with property requests, scope updates
    and resumes, the [ExpressionEvaluationResponse] events raised carry,
    in order, the transaction ids and expressions of exactly those
    answers that came without a protocol error (and, for
    [runtimeEvaluate], with a result): such an answer raises one event,
    an answer with a protocol error raises none, and nothing else raises
    such an event. *)
Theorem answers_raise_their_own_events (ops : list Op) (m : Manager) :
  omap evaluation_event (events (run ops m).2) = omap answered_evaluation ops.
Proof.
  revert m. induction ops as [|op ops IH]; intros m; [done|].
  simpl. specialize (IH (final (perform op m))).
  destruct (run ops (final (perform op m))) as [m' es]. simpl in *.
  unfold events in *. rewrite omap_app, omap_app, IH.
  assert (omap evaluation_event
            (omap (λ e, match e with Raise ev => Some ev | _ => None end)
                  (effects (perform op m)))
          = option_list (answered_evaluation op)) as ->.
  { destruct op; simpl; try done.
    - unfold evaluateOnCallFrame_callback. destruct error; [by case_match | done].
    - unfold runtimeEvaluate_callback. destruct error; [done|].
      by destruct (result response).
    - unfold getProperties. by case_match.
    - unfold getProperties_response. destruct error; [done|].
      by destruct (_propertiesToExpansionResult _ m).
    - unfold updateCurrentFrameScope.
      destruct (map_getScopeSectionPayloadFor scopes m) as [m1 ps].
      by destruct (Promise_all ps). }
  by destruct (answered_evaluation op).
Qed.

(** X9: an object that an evaluation returned can be expanded: after the
    answer to [evaluateOnCallFrame], [getProperties] on the object id of
    the result asks the runtime dispatcher for the properties of that very
    id. *)
Theorem evaluated_object_can_be_expanded
  (m : Manager) (transactionId id : Z) (expression objectGroup : string)
  (response : EvaluateResponse) (objectId : RemoteObjectId) :
  result_objectId response = Some objectId →
  let m' := final (evaluateOnCallFrame_callback transactionId expression objectGroup
                                                None response m) in
  getProperties id objectId m' = returns m' [RuntimeGetProperties objectId].
Proof.
  unfold result_objectId, evaluateOnCallFrame_callback. intros Hid.
  destruct (result response) as [r|]; simplify_eq/=. rewrite Hid. simpl.
  unfold getProperties, getRemoteObjectFromId, addObject. simpl.
  by rewrite lookup_insert_eq.
Qed.

Lemma evaluated_object_can_be_expanded_witness :
  let m' := final (evaluateOnCallFrame_callback 1 "x+1" "watch-group" None
                                                thrown_with_object initial) in
  getProperties 2 "exc-1" m' = returns m' [RuntimeGetProperties "exc-1"].
Proof.
  apply (evaluated_object_can_be_expanded initial 1 2 "x+1" "watch-group"
                                          thrown_with_object "exc-1").
  reflexivity.
Defined.

(** X10: [_propertiesToExpansionResult] keeps the properties that have a
    value, in their order and with name and value unchanged, and registers
    exactly the object ids those values carry: the ids registered
    afterwards are the ids registered before and these. *)
Theorem _propertiesToExpansionResult_keeps_values
  (properties : list PropertyDescriptor) (m : Manager) :
  (_propertiesToExpansionResult properties m).2
  = omap (λ p, mkExpansionEntry (pd_name p) <$> pd_value p) properties
  ∧ registered_ids (_propertiesToExpansionResult properties m).1
    = registered_ids m ∪ list_to_set (property_objectIds properties).
Proof.
  split; [|apply _propertiesToExpansionResult_ids].
  revert m. induction properties as [|p rest IH]; intros m; simpl; [done|].
  destruct (pd_value p) as [v|]; simpl; [|apply IH].
  specialize (IH (match ro_objectId v with Some oid => addObject oid m | None => m end)).
  destruct (_propertiesToExpansionResult rest _) as [m2 entries]. simpl in *.
  by rewrite IH.
Qed.

Lemma map_getScopeSectionPayloadFor_all scopes m :
  Promise_all (map_getScopeSectionPayloadFor scopes m).2
  = if forallb (λ s, bool_decide (is_Some (ro_objectId (scope_object s)))) scopes
    then Some ((λ s, {| ssp_name := default EmptyString (ro_description (scope_object s));
                        scopeObjectId := default EmptyString (ro_objectId (scope_object s)) |})
                 <$> scopes)
    else None.
Proof.
  revert m. induction scopes as [|s rest IH]; intros m; simpl; [done|].
  unfold _getScopeSectionPayloadFor.
  destruct (ro_objectId (scope_object s)) as [oid|]; simpl.
  - specialize (IH (addObject oid m)).
    destruct (map_getScopeSectionPayloadFor rest _) as [m2 ps]. simpl in *.
    rewrite IH. by destruct (forallb _ rest).
  - by destruct (map_getScopeSectionPayloadFor rest m).
Qed.

(** X11: [updateCurrentFrameScope] registers the object id of every scope
    that has one, and raises the [ScopesUpdate] event only when every
    scope has one: a single scope without an object id suppresses the
    event for all scopes, although the others have been registered. *)
Theorem updateCurrentFrameScope_all_or_no_event (scopes : list Scope) (m : Manager) :
  registered_ids (final (updateCurrentFrameScope scopes m))
  = registered_ids m ∪ list_to_set (scope_objectIds scopes)
  ∧ events (effects (updateCurrentFrameScope scopes m))
    = if forallb (λ s, bool_decide (is_Some (ro_objectId (scope_object s)))) scopes
      then [ScopesUpdate
              ((λ s, {| ssp_name := default EmptyString (ro_description (scope_object s));
                        scopeObjectId := default EmptyString (ro_objectId (scope_object s)) |})
                 <$> scopes)]
      else [].
Proof.
  unfold updateCurrentFrameScope.
  pose proof (map_getScopeSectionPayloadFor_ids scopes m) as Hids.
  pose proof (map_getScopeSectionPayloadFor_all scopes m) as Hall.
  destruct (map_getScopeSectionPayloadFor scopes m) as [m' promises]. simpl in *.
  rewrite Hall. by destruct (forallb _ scopes).
Qed.

(** X12: [getProperties] never asks for another object than the one it
    was called for: after any sequence of calls and answers, it either
    reports that the id is unknown or requests the properties of exactly
    that id. *)
Theorem getProperties_requests_the_id_asked
  (ops : list Op) (id : Z) (objectId : RemoteObjectId) :
  let m := (run ops initial).1 in
  getProperties id objectId m
  = returns m [if bool_decide (registered objectId m)
               then RuntimeGetProperties objectId
               else ReportError ("Cannot find object id " +:+ objectId
                                   +:+ " for getProperties()")].
Proof.
  intros m.
  assert (proxies_match m) as Hm.
  { apply proxies_match_run. intros k p H. simpl in H. by rewrite lookup_empty in H. }
  unfold getProperties, getRemoteObjectFromId, registered.
  destruct (_remoteObjects m !! objectId) as [p|] eqn:Hp.
  - rewrite bool_decide_eq_true_2 by eauto. by rewrite (Hm _ _ Hp).
  - rewrite bool_decide_eq_false_2; [done|]. by intros [? ?].
Qed.

Lemma registered_ids_perform op m :
  op ≠ clearPauseStates_called →
  registered_ids m ⊆ registered_ids (final (perform op m)).
Proof.
  intros Hop. destruct op; simpl; try done.
  - unfold evaluateOnCallFrame_callback. destruct error; [by case_match|]. simpl.
    repeat case_match; try done; rewrite registered_ids_addObject;
      apply union_subseteq_r.
  - unfold runtimeEvaluate_callback. destruct error; [done|].
    repeat case_match; try done; simpl; rewrite registered_ids_addObject;
      apply union_subseteq_r.
  - unfold getProperties. by case_match.
  - unfold getProperties_response. destruct error; [done|].
    pose proof (_propertiesToExpansionResult_ids (gp_result response) m) as H.
    destruct (_propertiesToExpansionResult _ m). simpl in *. rewrite H.
    apply union_subseteq_l.
  - unfold updateCurrentFrameScope.
    pose proof (map_getScopeSectionPayloadFor_ids scopes m) as H.
    destruct (map_getScopeSectionPayloadFor scopes m) as [m' ps]. simpl in H.
    destruct (Promise_all ps); simpl; rewrite H; apply union_subseteq_l.
Qed.

(** X13: only [clearPauseStates] forgets an object: through any sequence
    of calls and answers without a [clearPauseStates], an id that is
    registered stays registered. *)
Theorem only_clearPauseStates_unregisters
  (ops : list Op) (m : Manager) (objectId : RemoteObjectId) :
  clearPauseStates_called ∉ ops →
  registered objectId m →
  registered objectId (run ops m).1.
Proof.
  revert m. induction ops as [|op ops IH]; intros m Hno Hreg; [done|]. simpl.
  apply not_elem_of_cons in Hno as [Hop Hno].
  specialize (IH (final (perform op m)) Hno).
  destruct (run ops (final (perform op m))) as [m' es]. simpl in *. apply IH.
  apply registered_elem. apply registered_elem in Hreg.
  by apply (registered_ids_perform op m); [congruence|].
Qed.

Lemma only_clearPauseStates_unregisters_witness :
  registered "obj-1"
    (run [getProperties_called 1 "obj-1";
          evaluateOnCallFrame_answered 2 "x+1" "watch-group" None thrown_with_object]
         (addObject "obj-1" initial)).1.
Proof.
  apply (only_clearPauseStates_unregisters
           [getProperties_called 1 "obj-1";
            evaluateOnCallFrame_answered 2 "x+1" "watch-group" None thrown_with_object]
           (addObject "obj-1" initial) "obj-1").
  - intros Hin. repeat (apply elem_of_cons in Hin as [Hin|Hin]; [discriminate Hin|]).
    by apply elem_of_nil in Hin.
  - apply addObject_registers.
Defined.

End ExpressionEvaluationManagerSessions.

(** ** DebuggerInstance: the way of a client message *)

Module DebuggerInstanceSessions.
Import DebuggerInstance.

Lemma forwarded_app es1 es2 : forwarded (es1 ++ es2) = forwarded es1 ++ forwarded es2.
Proof. unfold forwarded. apply omap_app. Qed.

Lemma teardown_runs_app es1 es2 :
  teardown_runs (es1 ++ es2) = (teardown_runs es1 + teardown_runs es2)%nat.
Proof. unfold teardown_runs. by rewrite filter_app, length_app. Qed.

(** One step keeps the account of the client messages: what has been
    forwarded and what still waits is what waited before and what was
    accepted. *)
Lemma perform_account hooks op i :
  forwarded (effects (perform hooks op i))
    ++ (translateMessageToServer hooks <$> inFlight (final (perform hooks op i)))
  = (translateMessageToServer hooks <$> inFlight i)
      ++ (to_server hooks <$> match op with
                              | client_sends message =>
                                  if _disposed i then [] else [message]
                              | _ => []
                              end).
Proof.
  destruct op; simpl.
  - unfold sendNuclideMessage. destruct (_disposed i); simpl.
    + by rewrite app_nil_r.
    + by rewrite fmap_app.
  - unfold _handleChromeSocketMessage_resume.
    destruct (inFlight i) as [|m rest] eqn:E; simpl; rewrite ?E; simpl.
    + done.
    + by rewrite app_nil_r.
  - destruct (_disposables_disposed i); simpl; by rewrite app_nil_r.
  - unfold _handleSessionEnd, dispose.
    destruct (_disposables_disposed i); simpl; by rewrite app_nil_r.
  - destruct (_disposables_disposed i); simpl; by rewrite app_nil_r.
Qed.

(** X14: no client message is lost, doubled, reordered or let through
    late.  After any sequence of sends, continuations, disposals and
    server events, the messages handed to the RPC service followed by the
    ones still suspended are exactly the messages the client sent while
    the instance was not disposed, each preprocessed and translated once,
    in the order they were sent. *)
Theorem client_messages_accounted (hooks : Hooks) (ops : list Op) :
  forwarded (run hooks ops initial).2
    ++ (translateMessageToServer hooks <$> inFlight (run hooks ops initial).1)
  = to_server hooks <$> accepted hooks ops initial.
Proof.
  change (to_server hooks <$> accepted hooks ops initial)
    with ((translateMessageToServer hooks <$> inFlight initial)
            ++ (to_server hooks <$> accepted hooks ops initial)).
  generalize initial. induction ops as [|op ops IH]; intros i.
  - simpl. by rewrite app_nil_r.
  - simpl. specialize (IH (final (perform hooks op i))).
    destruct (run hooks ops (final (perform hooks op i))) as [i' es]. simpl in *.
    rewrite forwarded_app, <- app_assoc, IH, fmap_app, !app_assoc.
    by rewrite perform_account.
Qed.

Lemma perform_teardowns hooks op i :
  (teardown_runs (effects (perform hooks op i))
   + (if _disposables_disposed i then 1 else 0)
   = if _disposables_disposed (final (perform hooks op i)) then 1 else 0)%nat.
Proof.
  destruct i as [d dd q].
  destruct op; simpl;
    unfold sendNuclideMessage, _handleChromeSocketMessage_resume, _handleSessionEnd,
      dispose; simpl.
  - by destruct d, dd.
  - by destruct q, dd.
  - by destruct dd.
  - by destruct dd.
  - by destruct dd.
Qed.

Lemma instance_teardowns hooks ops i :
  (teardown_runs (run hooks ops i).2 + (if _disposables_disposed i then 1 else 0)
   = if _disposables_disposed (run hooks ops i).1 then 1 else 0)%nat.
Proof.
  revert i. induction ops as [|op ops IH]; intros i; [done|].
  simpl. specialize (IH (final (perform hooks op i))).
  destruct (run hooks ops (final (perform hooks op i))) as [i' es]. simpl in *.
  rewrite teardown_runs_app, <- IH, <- (perform_teardowns hooks op i). lia.
Qed.

(** X15: the teardowns of an instance run at most once: through any
    sequence of sends, continuations, disposals and server events they ran
    once if the instance ends disposed, and not at all otherwise. *)
Theorem teardowns_run_at_most_once (hooks : Hooks) (ops : list Op) :
  teardown_runs (run hooks ops initial).2
  = if _disposables_disposed (run hooks ops initial).1 then 1%nat else 0%nat.
Proof.
  rewrite <- (instance_teardowns hooks ops initial). simpl. lia.
Qed.

(** X16: a message accepted before [dispose] is still handed to the RPC
    service afterwards: the continuation of [_handleChromeSocketMessage]
    does not look at [_disposed]. *)
Theorem accepted_message_outlives_dispose
  (hooks : Hooks) (i : Instance) (message : string) :
  _disposed i = false →
  inFlight i = [] →
  (run hooks [client_sends message; owner_disposes; await_completes] i).2
  = (if _disposables_disposed i then [] else [DisposeTeardowns])
      ++ [RpcSendCommand (to_server hooks message)].
Proof.
  intros Hd Hq. simpl. unfold sendNuclideMessage. rewrite Hd. simpl.
  rewrite Hq. simpl. by destruct (_disposables_disposed i).
Qed.

Lemma accepted_message_outlives_dispose_witness :
  (run (mkHooks (λ m, m) (λ m, m))
       [client_sends "Debugger.resume"; owner_disposes; await_completes] initial).2
  = [DisposeTeardowns; RpcSendCommand "Debugger.resume"].
Proof.
  apply (accepted_message_outlives_dispose (mkHooks (λ m, m) (λ m, m)) initial
                                           "Debugger.resume"); reflexivity.
Defined.

(** X17: the end of the server stream is announced before anything is
    torn down, and closes the instance for its client: the session-end
    event comes first, the teardowns after it, and every message sent
    afterwards is dropped with an error in the log. *)
Theorem session_end_closes_instance
  (hooks : Hooks) (i : Instance) (messages : list string) :
  _disposables_disposed i = false →
  effects (_handleSessionEnd i)
  = [LoggerDebug "Ending Session"; Emit SESSION_END_EVENT None; DisposeTeardowns]
  ∧ effects (sendAll hooks messages (final (_handleSessionEnd i)))
    = (λ m, LoggerError "sendNuclideMessage after dispose!" (Some m)) <$> messages
  ∧ final (sendAll hooks messages (final (_handleSessionEnd i))) = final (_handleSessionEnd i).
Proof.
  intros Hd. unfold _handleSessionEnd, dispose. rewrite Hd. simpl.
  split; [done|].
  induction messages as [|m rest [IH1 IH2]]; [done|]. simpl in *.
  rewrite IH1, IH2. by split.
Qed.

Lemma session_end_closes_instance_witness :
  effects (_handleSessionEnd initial)
  = [LoggerDebug "Ending Session"; Emit SESSION_END_EVENT None; DisposeTeardowns]
  ∧ effects (sendAll (mkHooks (λ m, m) (λ m, m)) ["a"; "b"] (final (_handleSessionEnd initial)))
    = (λ m, LoggerError "sendNuclideMessage after dispose!" (Some m)) <$> ["a"; "b"]
  ∧ final (sendAll (mkHooks (λ m, m) (λ m, m)) ["a"; "b"] (final (_handleSessionEnd initial)))
    = final (_handleSessionEnd initial).
Proof.
  apply (session_end_closes_instance (mkHooks (λ m, m) (λ m, m)) initial ["a"; "b"]).
  reflexivity.
Defined.

End DebuggerInstanceSessions.

(** ** DebuggerHandler: variable references *)

Module DebuggerHandlerReferences.
Import DebuggerHandlerVariables.

Lemma extends_refl hs : extends hs hs.
Proof. split; [lia | done]. Qed.

Lemma extends_trans hs1 hs2 hs3 : extends hs1 hs2 → extends hs2 hs3 → extends hs1 hs3.
Proof.
  intros [Hn1 Hg1] [Hn2 Hg2]. split; [lia|].
  intros handle Hlt. rewrite Hg2 by lia. by apply Hg1.
Qed.

Lemma extends_create variable hs : extends hs (Handles_create variable hs).2.
Proof.
  split; simpl; [lia|]. intros handle Hlt. unfold Handles_get. simpl.
  apply lookup_insert_ne. lia.
Qed.

Lemma Handles_get_create {T} (variable : T) (hs : Handles T) :
  Handles_get (Handles_create variable hs).1 (Handles_create variable hs).2 = Some variable.
Proof. unfold Handles_get. simpl. apply lookup_insert_eq. Qed.

Lemma getScopesForFrame_answer_extends frameIndex scopes hs :
  extends hs (getScopesForFrame_answer frameIndex scopes hs).1.
Proof.
  revert hs. induction scopes as [|scope rest IH]; intros hs; simpl.
  - apply extends_refl.
  - destruct (ExpressionEvaluationManager.ro_objectId _) as [id|]; [|apply extends_refl].
    specialize (IH (Handles_create {| objectId := Some id; frameId := Some frameIndex |} hs).2).
    simpl in IH.
    destruct (getScopesForFrame_answer frameIndex rest _) as [hs2 outcome]. simpl in *.
    eapply extends_trans; [|exact IH]. apply extends_create.
Qed.

Lemma toVariable_extends prop hs : extends hs (toVariable prop hs).1.
Proof.
  unfold toVariable. destruct (expandable prop) as [id|]; simpl.
  - apply (extends_create {| objectId := Some id; frameId := None |}).
  - apply extends_refl.
Qed.

Lemma getProperties_answer_extends properties hs :
  extends hs (getProperties_answer properties hs).1.
Proof.
  revert hs. induction properties as [|prop rest IH]; intros hs; simpl.
  - apply extends_refl.
  - pose proof (toVariable_extends prop hs) as H1.
    destruct (toVariable prop hs) as [hs1 variable]. simpl in H1.
    specialize (IH hs1). destruct (getProperties_answer rest hs1) as [hs2 variables].
    simpl in *. by eapply extends_trans.
Qed.

Lemma evaluate_answer_extends hhResult response hs :
  extends hs (evaluate_answer hhResult response hs).1.
Proof.
  destruct hhResult as [error|result]; simpl; [apply extends_refl|].
  destruct (truthy _) as [id|]; simpl.
  - apply (extends_create {| objectId := Some id; frameId := None |}).
  - apply extends_refl.
Qed.

Lemma perform_extends op hs : extends hs (perform op hs).
Proof.
  destruct op; simpl.
  - apply getScopesForFrame_answer_extends.
  - apply getProperties_answer_extends.
  - apply evaluate_answer_extends.
Qed.

Lemma run_extends ops hs : extends hs (run ops hs).
Proof.
  revert hs. induction ops as [|op ops IH]; intros hs; simpl.
  - apply extends_refl.
  - eapply extends_trans; [apply perform_extends | apply IH].
Qed.

Lemma handed_out_new : handed_out new_Handles.
Proof.
  split; [done|]. intros handle variable H. unfold Handles_get in H. simpl in H.
  by rewrite lookup_empty in H.
Qed.

Lemma handed_out_create variable hs :
  is_Some (objectId variable) → handed_out hs → handed_out (Handles_create variable hs).2.
Proof.
  intros Hid [Hn Hall]. split; simpl; [lia|].
  intros handle v. unfold Handles_get. simpl.
  destruct (decide (handle = _nextHandle hs)) as [->|Hne].
  - rewrite lookup_insert_eq. intros [= <-]. split; [lia | done].
  - rewrite lookup_insert_ne by done. intros H.
    destruct (Hall handle v H) as [Hr Hv]. split; [lia | done].
Qed.

Lemma handed_out_getScopesForFrame_answer frameIndex scopes hs :
  handed_out hs → handed_out (getScopesForFrame_answer frameIndex scopes hs).1.
Proof.
  revert hs. induction scopes as [|scope rest IH]; intros hs Hhs; simpl; [done|].
  destruct (ExpressionEvaluationManager.ro_objectId _) as [id|]; [|done].
  specialize (IH (Handles_create {| objectId := Some id; frameId := Some frameIndex |} hs).2).
  simpl in IH.
  destruct (getScopesForFrame_answer frameIndex rest _) as [hs2 outcome]. simpl in *.
  apply IH.
  by apply (handed_out_create {| objectId := Some id; frameId := Some frameIndex |}).
Qed.

Lemma handed_out_toVariable prop hs : handed_out hs → handed_out (toVariable prop hs).1.
Proof.
  intros Hhs. unfold toVariable. destruct (expandable prop) as [id|]; simpl; [|done].
  by apply (handed_out_create {| objectId := Some id; frameId := None |}).
Qed.

Lemma handed_out_getProperties_answer properties hs :
  handed_out hs → handed_out (getProperties_answer properties hs).1.
Proof.
  revert hs. induction properties as [|prop rest IH]; intros hs Hhs; simpl; [done|].
  pose proof (handed_out_toVariable prop hs Hhs) as H1.
  destruct (toVariable prop hs) as [hs1 variable]. simpl in H1.
  specialize (IH hs1 H1). by destruct (getProperties_answer rest hs1) as [hs2 variables].
Qed.

Lemma handed_out_evaluate_answer hhResult response hs :
  handed_out hs → handed_out (evaluate_answer hhResult response hs).1.
Proof.
  intros Hhs. destruct hhResult as [error|result]; simpl; [done|].
  destruct (truthy _) as [id|]; simpl; [|done].
  by apply (handed_out_create {| objectId := Some id; frameId := None |}).
Qed.

Lemma handed_out_perform op hs : handed_out hs → handed_out (perform op hs).
Proof.
  destruct op; simpl.
  - apply handed_out_getScopesForFrame_answer.
  - apply handed_out_getProperties_answer.
  - apply handed_out_evaluate_answer.
Qed.

Lemma handed_out_run ops hs : handed_out hs → handed_out (run ops hs).
Proof.
  revert hs. induction ops as [|op ops IH]; intros hs Hhs; simpl; [done|].
  apply IH. by apply handed_out_perform.
Qed.

Lemma handles_run_app ops more hs : run (ops ++ more) hs = run more (run ops hs).
Proof. apply foldl_app. Qed.

(** X18: a reference stays good for the whole session.  Whatever scopes,
    properties and evaluations are answered later, a handle that stood
    for a variable still stands for the same variable: nothing removes,
    resets or reuses a handle. *)
Theorem handles_are_permanent
  (ops more : list Op) (handle : Z) (variable : DebugVariable) :
  Handles_get handle (run ops new_Handles) = Some variable →
  Handles_get handle (run (ops ++ more) new_Handles) = Some variable.
Proof.
  intros Hget. rewrite handles_run_app.
  destruct (handed_out_run ops new_Handles handed_out_new) as [_ Hall].
  destruct (Hall handle variable Hget) as [Hr _].
  destruct (run_extends more (run ops new_Handles)) as [_ Hsame].
  rewrite Hsame by lia. exact Hget.
Qed.

Lemma handles_are_permanent_witness :
  Handles_get 1001 (run ([scopes_answered 2 example_scopes]
                           ++ [properties_answered example_properties]) new_Handles)
  = Some {| frameId := Some 2%Z; objectId := Some "scope-1" |}.
Proof.
  apply (handles_are_permanent [scopes_answered 2 example_scopes]
                               [properties_answered example_properties]).
  vm_compute. reflexivity.
Defined.

(** X19: a reference below [START_HANDLE], such as the 0 reported for a
    value without children, is never a handle: at any time of a session
    [getProperties] and [setVariable] on it are rejected with a
    [TypeError] before anything is asked of the multiplexer. *)
Theorem small_reference_is_rejected {Frame} (helpers : Helpers Frame)
  (ops : list Op) (variablesReference : Z) (name value : string) (response : Response) :
  (variablesReference < START_HANDLE)%Z →
  getProperties variablesReference (run ops new_Handles) = settled (rejected "TypeError")
  ∧ setVariable helpers variablesReference name value response (run ops new_Handles)
    = settled (rejected "TypeError").
Proof.
  intros Hlt.
  destruct (handed_out_run ops new_Handles handed_out_new) as [_ Hall].
  assert (Handles_get variablesReference (run ops new_Handles) = None) as Hnone.
  { destruct (Handles_get variablesReference (run ops new_Handles)) as [v|] eqn:E; [|done].
    destruct (Hall _ _ E) as [Hr _]. lia. }
  unfold getProperties, setVariable. by rewrite Hnone.
Qed.

Lemma small_reference_is_rejected_witness :
  getProperties 0 (run [properties_answered example_properties] new_Handles)
  = settled (rejected "TypeError")
  ∧ setVariable example_helpers 0 "$n" "4" (mkResponse true None)
                (run [properties_answered example_properties] new_Handles)
    = settled (rejected "TypeError").
Proof.
  apply (small_reference_is_rejected example_helpers
           [properties_answered example_properties] 0 "$n" "4" (mkResponse true None)).
  vm_compute. reflexivity.
Defined.

(** X20: the early return of [getProperties] for a handle without an
    object id never happens in a session: at any time [getProperties]
    either is rejected for an unknown reference or asks the multiplexer
    for the properties of the object the handle stands for. *)
Theorem getProperties_rejects_or_asks (ops : list Op) (variablesReference : Z) :
  getProperties variablesReference (run ops new_Handles) = settled (rejected "TypeError")
  ∨ ∃ id,
      objectId <$> Handles_get variablesReference (run ops new_Handles) = Some (Some id)
      ∧ getProperties variablesReference (run ops new_Handles)
        = awaiting (mux_getProperties id).
Proof.
  destruct (handed_out_run ops new_Handles handed_out_new) as [_ Hall].
  unfold getProperties.
  destruct (Handles_get variablesReference (run ops new_Handles)) as [v|] eqn:E;
    [|by left].
  destruct (Hall _ _ E) as [_ [id Hid]]. right. exists id. rewrite Hid. simpl.
  by rewrite Hid.
Qed.

Lemma getScopesForFrame_answer_lookup frameIndex scopes hs hs' converted :
  getScopesForFrame_answer frameIndex scopes hs = (hs', fulfilled converted) →
  length converted = length scopes
  ∧ ∀ i scope s,
      scopes !! i = Some scope → converted !! i = Some s →
      s_name s = scope_label scope
      ∧ ∃ id, ExpressionEvaluationManager.ro_objectId
                (ExpressionEvaluationManager.scope_object scope) = Some id
              ∧ Handles_get (s_variablesReference s) hs'
                = Some {| frameId := Some frameIndex; objectId := Some id |}.
Proof.
  revert hs hs' converted.
  induction scopes as [|scope rest IH]; intros hs hs' converted; simpl.
  - intros [= <- <-]. split; [done|]. intros i scope s H. by rewrite lookup_nil in H.
  - destruct (ExpressionEvaluationManager.ro_objectId _) as [id|] eqn:Eid; [|done].
    pose proof (getScopesForFrame_answer_extends frameIndex rest
      (Handles_create {| objectId := Some id; frameId := Some frameIndex |} hs).2) as Hext.
    simpl in Hext.
    specialize (IH (Handles_create {| objectId := Some id; frameId := Some frameIndex |} hs).2).
    simpl in IH.
    destruct (getScopesForFrame_answer frameIndex rest _) as [hs2 outcome].
    destruct outcome as [l|reason]; [|done].
    intros [= <- <-]. destruct (IH hs2 l eq_refl) as [Hlen Hall].
    split; [simpl; by rewrite Hlen|].
    intros [|i] scope' s; simpl.
    + intros [= <-] [= <-]. simpl. split; [done|]. exists id. split; [done|].
      destruct Hext as [_ Hsame]. simpl in Hsame. rewrite Hsame by (simpl; lia).
      unfold Handles_get. simpl. apply lookup_insert_eq.
    + apply Hall.
Qed.

(** X21: the reference of a scope leads back to the scope.  When
    [getScopesForFrame] is fulfilled it has one scope per scope of the
    multiplexer, in order; [getProperties] on the reference of a scope
    asks for the properties of that scope's object, and [setVariable] on
    it evaluates the assignment on the frame the scopes were asked for. *)
Theorem scope_reference_round_trip {Frame} (helpers : Helpers Frame)
  (frameIndex : Z) (scopes : list ExpressionEvaluationManager.Scope)
  (hs hs' : Handles DebugVariable) (converted : list Scope)
  (i : nat) (scope : ExpressionEvaluationManager.Scope) (s : Scope)
  (name value : string) (response : Response) :
  getScopesForFrame_answer frameIndex scopes hs = (hs', fulfilled converted) →
  scopes !! i = Some scope →
  converted !! i = Some s →
  length converted = length scopes
  ∧ (∃ id, ExpressionEvaluationManager.ro_objectId
             (ExpressionEvaluationManager.scope_object scope) = Some id
           ∧ getProperties (s_variablesReference s) hs' = awaiting (mux_getProperties id))
  ∧ setVariable helpers (s_variablesReference s) name value response hs'
    = awaiting (mux_evaluateOnCallFrame
                  frameIndex
                  (makeExpressionHphpdCompatible helpers (name +:+ " = " +:+ value))).
Proof.
  intros Hanswer Hscope Hs.
  destruct (getScopesForFrame_answer_lookup _ _ _ _ _ Hanswer) as [Hlen Hall].
  destruct (Hall i scope s Hscope Hs) as [_ [id [Hid Hget]]].
  split; [done|]. unfold getProperties, setVariable. rewrite Hget. simpl.
  split; [|done]. by exists id.
Qed.

Lemma scope_reference_round_trip_witness :
  length [mkScope "Locals" 1000 true; mkScope "Globals" 1001 true] = length example_scopes
  ∧ (∃ id, Some "scope-1" = Some id
           ∧ getProperties 1001 (run [scopes_answered 2 example_scopes] new_Handles)
             = awaiting (mux_getProperties id))
  ∧ setVariable example_helpers 1001 "$n" "4" (mkResponse true None)
                (run [scopes_answered 2 example_scopes] new_Handles)
    = awaiting (mux_evaluateOnCallFrame 2 "$n = 4").
Proof.
  apply (scope_reference_round_trip
           example_helpers 2 example_scopes new_Handles
           (run [scopes_answered 2 example_scopes] new_Handles)
           [mkScope "Locals" 1000 true; mkScope "Globals" 1001 true]
           1 (ExpressionEvaluationManager.mkScope
                "global" None
                (ExpressionEvaluationManager.mkRemoteObject
                   "object" None (Some "scope-1") JUndefined (Some "Globals")))
           (mkScope "Globals" 1001 true) "$n" "4" (mkResponse true None)).
  - vm_compute. reflexivity.
  - reflexivity.
  - reflexivity.
Defined.

Lemma getProperties_answer_lookup properties hs hs' variables :
  getProperties_answer properties hs = (hs', variables) →
  length variables = length properties
  ∧ ∀ i prop variable,
      properties !! i = Some prop → variables !! i = Some variable →
      v_name variable = ExpressionEvaluationManager.pd_name prop
      ∧ match expandable prop with
        | Some id =>
            Handles_get (v_variablesReference variable) hs'
            = Some {| frameId := None; objectId := Some id |}
        | None => v_variablesReference variable = 0%Z
        end.
Proof.
  revert hs hs' variables.
  induction properties as [|prop rest IH]; intros hs hs' variables; simpl.
  - intros [= <- <-]. split; [done|]. intros i prop v H. by rewrite lookup_nil in H.
  - destruct (toVariable prop hs) as [hs1 variable] eqn:E1.
    pose proof (getProperties_answer_extends rest hs1) as Hext.
    specialize (IH hs1).
    destruct (getProperties_answer rest hs1) as [hs2 l].
    intros [= <- <-]. destruct (IH hs2 l eq_refl) as [Hlen Hall].
    split; [simpl; by rewrite Hlen|].
    intros [|i] prop' variable'; simpl; [|apply Hall].
    intros [= <-] [= <-]. unfold toVariable in E1.
    destruct (expandable prop) as [id|]; simpl in E1; injection E1 as <- <-; simpl.
    + split; [done|]. destruct Hext as [_ Hsame]. simpl in Hsame.
      rewrite Hsame by (simpl; lia). unfold Handles_get. simpl. apply lookup_insert_eq.
    + done.
Qed.

(** X22: the reference of a property expands the property and cannot be
    assigned through.  [getProperties] gives one variable per property,
    in order and under its name; for a property whose value has an object
    id, [getProperties] on the variable's reference asks for the
    properties of that object, and [setVariable] on it fails with
    [No frame found ...] without asking the multiplexer anything. *)
Theorem property_reference_expands_only {Frame} (helpers : Helpers Frame)
  (properties : list ExpressionEvaluationManager.PropertyDescriptor)
  (hs hs' : Handles DebugVariable) (variables : list VsVariable)
  (i : nat) (prop : ExpressionEvaluationManager.PropertyDescriptor)
  (variable : VsVariable) (id : ExpressionEvaluationManager.RemoteObjectId)
  (name value : string) (response : Response) :
  getProperties_answer properties hs = (hs', variables) →
  properties !! i = Some prop →
  variables !! i = Some variable →
  expandable prop = Some id →
  v_name variable = ExpressionEvaluationManager.pd_name prop
  ∧ getProperties (v_variablesReference variable) hs' = awaiting (mux_getProperties id)
  ∧ setVariable helpers (v_variablesReference variable) name value response hs'
    = settled (fulfilled
        {| success := false;
           body := Some (FormatBody ("No frame found for variable: " +:+ name
                                       +:+ " in container: "
                                       +:+ pretty (v_variablesReference variable))) |}).
Proof.
  intros Hanswer Hprop Hvar Hid.
  destruct (getProperties_answer_lookup _ _ _ _ Hanswer) as [_ Hall].
  destruct (Hall i prop variable Hprop Hvar) as [Hname Hget]. rewrite Hid in Hget.
  split; [done|]. unfold getProperties, setVariable. by rewrite Hget.
Qed.

Lemma property_reference_expands_only_witness :
  "$this" = "$this"
  ∧ getProperties 1000 (run [properties_answered example_properties] new_Handles)
    = awaiting (mux_getProperties "obj-7")
  ∧ setVariable example_helpers 1000 "$n" "4" (mkResponse true None)
                (run [properties_answered example_properties] new_Handles)
    = settled (fulfilled
        {| success := false;
           body := Some (FormatBody ("No frame found for variable: " +:+ "$n"
                                       +:+ " in container: " +:+ pretty 1000%Z)) |}).
Proof.
  apply (property_reference_expands_only
           example_helpers example_properties new_Handles
           (run [properties_answered example_properties] new_Handles)
           [mkVariable "$this" "object" "Foo" 1000; mkVariable "$n" "number" "3" 0]
           0 (ExpressionEvaluationManager.mkPropertyDescriptor
                "$this"
                (Some (ExpressionEvaluationManager.mkRemoteObject
                         "object" None (Some "obj-7") JUndefined (Some "Foo"))))
           (mkVariable "$this" "object" "Foo" 1000) "obj-7" "$n" "4" (mkResponse true None)).
  - vm_compute. reflexivity.
  - reflexivity.
  - reflexivity.
  - reflexivity.
Defined.

(** X23: a property without an object to expand is reported with the
    reference 0 and takes no handle: [getProperties] over properties none
    of which has a truthy object id leaves the handles as they were. *)
Theorem plain_properties_take_no_handle
  (properties : list ExpressionEvaluationManager.PropertyDescriptor)
  (hs : Handles DebugVariable) :
  Forall (λ prop, expandable prop = None) properties →
  (getProperties_answer properties hs).1 = hs
  ∧ v_variablesReference <$> (getProperties_answer properties hs).2
    = replicate (length properties) 0%Z.
Proof.
  induction 1 as [|prop rest Hprop _ IH]; simpl; [done|].
  unfold toVariable. rewrite Hprop.
  destruct (getProperties_answer rest hs) as [hs2 l]. simpl in *.
  destruct IH as [-> IH]. split; [done|]. f_equal. exact IH.
Qed.

Lemma plain_properties_take_no_handle_witness :
  (getProperties_answer (drop 1 example_properties) new_Handles).1 = new_Handles
  ∧ v_variablesReference <$> (getProperties_answer (drop 1 example_properties) new_Handles).2
    = replicate (length (drop 1 example_properties)) 0%Z.
Proof.
  apply (plain_properties_take_no_handle (drop 1 example_properties) new_Handles).
  simpl. repeat constructor.
Defined.

(** X24: the reference in the answer to an evaluation expands its
    result.  When the evaluation did not throw and its result has an
    object id, [evaluate] writes a reference into the body on which
    [getProperties] asks for the properties of that object; the
    [success] of the response is left as the caller set it. *)
Theorem evaluated_reference_expands
  (result : ExpressionEvaluationManager.RemoteObject) (response : Response)
  (hs : Handles DebugVariable) (id : ExpressionEvaluationManager.RemoteObjectId) :
  truthy (ExpressionEvaluationManager.ro_objectId result) = Some id →
  ∃ text variablesReference,
    (evaluate_answer (evaluated result) response hs).2
    = {| success := success response;
         body := Some (EvaluateBody (ExpressionEvaluationManager.ro_type result)
                                    text variablesReference) |}
    ∧ getProperties variablesReference (evaluate_answer (evaluated result) response hs).1
      = awaiting (mux_getProperties id).
Proof.
  intros Hid. simpl. rewrite Hid. simpl. eexists _, _. split; [done|].
  unfold getProperties, Handles_get. simpl. by rewrite lookup_insert_eq.
Qed.

Lemma evaluated_reference_expands_witness :
  let result :=
    ExpressionEvaluationManager.mkRemoteObject "object" None (Some "obj-9") JUndefined
                                               (Some "Bar") in
  ∃ text variablesReference,
    (evaluate_answer (evaluated result) (mkResponse true None) new_Handles).2
    = {| success := true; body := Some (EvaluateBody "object" text variablesReference) |}
    ∧ getProperties variablesReference
        (evaluate_answer (evaluated result) (mkResponse true None) new_Handles).1
      = awaiting (mux_getProperties "obj-9").
Proof.
  intros result.
  apply (evaluated_reference_expands result (mkResponse true None) new_Handles "obj-9").
  reflexivity.
Defined.

(** X25: a scope without an object id rejects [getScopesForFrame], and
    the handles created for the scopes before it stay allocated. *)
Theorem scope_without_id_rejects
  (frameIndex : Z) (before after : list ExpressionEvaluationManager.Scope)
  (bad : ExpressionEvaluationManager.Scope) (hs : Handles DebugVariable) :
  Forall (λ scope, is_Some (ExpressionEvaluationManager.ro_objectId
                              (ExpressionEvaluationManager.scope_object scope))) before →
  ExpressionEvaluationManager.ro_objectId
    (ExpressionEvaluationManager.scope_object bad) = None →
  (getScopesForFrame_answer frameIndex (before ++ bad :: after) hs).2
  = rejected "nullthrows"
  ∧ _nextHandle (getScopesForFrame_answer frameIndex (before ++ bad :: after) hs).1
    = (_nextHandle hs + Z.of_nat (length before))%Z.
Proof.
  intros Hbefore Hbad. revert hs.
  induction Hbefore as [|scope rest [id Hid] _ IH]; intros hs; simpl.
  - rewrite Hbad. simpl. split; [done | lia].
  - rewrite Hid.
    specialize (IH (Handles_create {| objectId := Some id; frameId := Some frameIndex |} hs).2).
    simpl in IH.
    destruct (getScopesForFrame_answer frameIndex (rest ++ bad :: after) _)
      as [hs2 outcome]. simpl in *.
    destruct IH as [-> ->]. split; [done | lia].
Qed.

Lemma scope_without_id_rejects_witness :
  let bad :=
    ExpressionEvaluationManager.mkScope
      "closure" None
      (ExpressionEvaluationManager.mkRemoteObject "object" None None JUndefined None) in
  (getScopesForFrame_answer 0 (example_scopes ++ bad :: example_scopes) new_Handles).2
  = rejected "nullthrows"
  ∧ _nextHandle
      (getScopesForFrame_answer 0 (example_scopes ++ bad :: example_scopes) new_Handles).1
    = (_nextHandle (new_Handles (T := DebugVariable)) + Z.of_nat (length example_scopes))%Z.
Proof.
  intros bad.
  apply (scope_without_id_rejects 0 example_scopes example_scopes bad new_Handles).
  - repeat constructor; simpl; by eexists.
  - reflexivity.
Defined.

Lemma imap_convertFrame_ids {Frame} (helpers : Helpers Frame) (stack : list Frame) k :
  sf_id <$> imap (λ frameIndex frame, _convertFrame helpers frame (k + frameIndex)) stack
  = seq k (length stack).
Proof.
  revert k. induction stack as [|frame rest IH]; intros k; [done|].
  simpl. rewrite Nat.add_0_r. f_equal.
  rewrite <- (IH (S k)). f_equal. apply imap_ext. intros i x _. simpl.
  f_equal. lia.
Qed.

Lemma imap_convertFrame_paths {Frame} (helpers : Helpers Frame) (stack : list Frame)
  (f : nat → nat) :
  (λ fr, src_path (sf_source fr))
    <$> imap (λ frameIndex frame, _convertFrame helpers frame (f frameIndex)) stack
  = (λ frame, scriptId (locationOfFrame helpers frame)) <$> stack.
Proof.
  revert f. induction stack as [|frame rest IH]; intros f; [done|].
  simpl. f_equal. apply (IH (f ∘ S)).
Qed.

(** X26: the id of a stack frame is its position in the stack, which is
    the frame index that [getScopesForFrame] expects: [getStackFrames]
    converts every frame of the answer, in order, and numbers them from
    0; the path of a frame's source is the script id of its location. *)
Theorem stack_frame_ids_are_positions {Frame} (helpers : Helpers Frame)
  (stack : list Frame) :
  sf_id <$> getStackFrames_answer helpers (Some (Some stack)) = seq 0 (length stack)
  ∧ (λ f, src_path (sf_source f)) <$> getStackFrames_answer helpers (Some (Some stack))
    = (λ frame, scriptId (locationOfFrame helpers frame)) <$> stack.
Proof.
  split.
  - apply (imap_convertFrame_ids helpers stack 0).
  - apply (imap_convertFrame_paths helpers stack (λ i, i)).
Qed.

End DebuggerHandlerReferences.

(** ** DebuggerHandler: the order of a session *)

Module DebuggerHandlerSessions.
Import DebuggerHandler.

Lemma calls_app es1 es2 : calls (es1 ++ es2) = calls es1 ++ calls es2.
Proof. apply omap_app. Qed.

Lemma sent_app es1 es2 : sent (es1 ++ es2) = sent es1 ++ sent es2.
Proof. apply omap_app. Qed.

Lemma resumptions_app es1 es2 :
  resumptions (es1 ++ es2) = resumptions es1 ++ resumptions es2.
Proof. unfold resumptions. by rewrite calls_app, filter_app. Qed.

Lemma disposals_app es1 es2 : disposals (es1 ++ es2) = disposals es1 ++ disposals es2.
Proof. apply omap_app. Qed.

Lemma plain_effects es :
  forallb plain es = true →
  resumptions es = [] ∧ disposals es = [] ∧ TerminatedEvent ∉ sent es.
Proof.
  induction es as [|e es IH].
  - intros _. split_and!; try done. apply not_elem_of_nil.
  - intros H. cbn [forallb] in H. apply andb_prop in H as [He Hes].
    destruct (IH Hes) as (Hc & Hd & Hs).
    change (e :: es) with ([e] ++ es).
    rewrite resumptions_app, disposals_app, sent_app, Hc, Hd.
    destruct e as [ev|c|level text|t|r]; simpl in *; try done.
    + destruct ev; try done; split_and!; try done;
        rewrite elem_of_cons; intros [?|?]; done.
    + destruct c; done.
Qed.

Lemma calm_same h h' es completion :
  _hadFirstContinuationCommand h' = _hadFirstContinuationCommand h →
  _subscriptions h' = _subscriptions h →
  forallb plain es = true →
  calm h (mkRun h' es completion).
Proof. by intros; split_and!. Qed.

Lemma calm_andThen h r k : calm h r → (∀ h', calm h' (k h')) → calm h (andThen r k).
Proof.
  intros (Hf & Hs & Hp) Hk. unfold andThen.
  destruct (completion r); [|by split_and!].
  destruct (Hk (final r)) as (Hf' & Hs' & Hp').
  unfold calm. simpl. split_and!; [congruence | congruence |].
  rewrite forallb_app. by rewrite Hp, Hp'.
Qed.

Lemma calm_resolveBreakpoint bpId h : calm h (_resolveBreakpoint bpId h).
Proof.
  unfold _resolveBreakpoint. destruct (_getBreakpointById bpId h) as [[r b]|];
    by apply calm_same.
Qed.

Lemma calm_updateBreakpointHitCount h : calm h (_updateBreakpointHitCount h).
Proof.
  unfold _updateBreakpointHitCount. repeat (case_match; try by apply calm_same).
Qed.

Lemma calm_sendPausedMessage h : calm h (_sendPausedMessage h).
Proof.
  unfold _sendPausedMessage.
  destruct (getEnabledConnectionId _), (requestSwitchMessage _); by apply calm_same.
Qed.

Lemma calm_onNotification notifyName h : calm h (_onNotification notifyName h).
Proof.
  destruct notifyName; simpl; [apply calm_resolveBreakpoint| |]; by apply calm_same.
Qed.

Lemma turn_plain w w' es :
  trace w' = trace w ++ es →
  forallb plain es = true →
  _hadFirstContinuationCommand (handler w') = _hadFirstContinuationCommand (handler w) →
  _subscriptions (handler w') = _subscriptions (handler w) →
  turn w w'.
Proof.
  intros Ht Hp Hf Hs. exists es, (returns (handler w) []). simpl.
  rewrite app_nil_r. split_and!; try done. by left.
Qed.

Lemma turn_idle w w' :
  trace w' = trace w →
  _hadFirstContinuationCommand (handler w') = _hadFirstContinuationCommand (handler w) →
  _subscriptions (handler w') = _subscriptions (handler w) →
  turn w w'.
Proof. intros Ht. apply (turn_plain w w' []); [by rewrite app_nil_r | done]. Qed.

Lemma turn_calm r w : calm (handler w) r → turn w (perform r w).
Proof. intros (Hf & Hs & Hp). by apply (turn_plain _ _ (effects r)). Qed.

Lemma turn_resume w w' :
  trace w' = trace w ++ effects (resume (handler w)) →
  handler w' = final (resume (handler w)) →
  turn w w'.
Proof.
  intros Ht Hh. exists [], (resume (handler w)). rewrite Hh.
  split_and!; try done. right. by left.
Qed.

Lemma turn_endSession before w w' :
  forallb plain before = true →
  trace w' = trace w ++ before ++ effects (_endSession (handler w)) →
  handler w' = final (_endSession (handler w)) →
  turn w w'.
Proof.
  intros Hp Ht Hh. exists before, (_endSession (handler w)). rewrite Hh.
  split_and!; try done. right. by right.
Qed.

Lemma turn_setBreakpoints path bpSources w : turn w (setBreakpoints path bpSources w).
Proof.
  unfold setBreakpoints.
  destruct (setBreakpoints_diff path bpSources (handler w)) as [h diff] eqn:E.
  unfold setBreakpoints_diff in E. injection E as <- _.
  by apply turn_idle.
Qed.

Lemma plain_continueToLocation_set t connection path line w :
  ∃ es,
    trace (continueToLocation_set t connection path line w) = trace w ++ es
    ∧ forallb plain es = true
    ∧ _hadFirstContinuationCommand (handler (continueToLocation_set t connection path line w))
      = _hadFirstContinuationCommand (handler w)
    ∧ _subscriptions (handler (continueToLocation_set t connection path line w))
      = _subscriptions (handler w).
Proof.
  unfold continueToLocation_set. destruct path as [p|], t as [t|]; simpl.
  - by eexists [_].
  - by eexists [_].
  - exists []. by rewrite app_nil_r.
  - exists []. by rewrite app_nil_r.
Qed.

Lemma turn_continueToLocation_set t connection path line w :
  turn w (continueToLocation_set t connection path line w).
Proof.
  destruct (plain_continueToLocation_set t connection path line w)
    as (es & Ht & Hp & Hf & Hs).
  by apply (turn_plain _ _ es).
Qed.

Lemma turn_continueToLocation path line w : turn w (continueToLocation path line w).
Proof.
  unfold continueToLocation.
  destruct (enabledConnection _) as [c|]; [|by apply turn_idle].
  destruct (_temporaryBreakpointpointId _) as [temporary|].
  - by eapply turn_plain.
  - apply turn_continueToLocation_set.
Qed.

Lemma plain_setBreakpointFromDesciptior h rs :
  forallb plain (rs ≫= _setBreakpointFromDesciptior h) = true.
Proof.
  apply forallb_forall. intros e He. apply list_elem_of_In in He.
  apply list_elem_of_bind in He as (r & He & _).
  unfold _setBreakpointFromDesciptior in He. destruct (heap _ !! r); simpl in He.
  - apply elem_of_cons in He as [->|He]; [done | by apply elem_of_nil in He].
  - by apply elem_of_nil in He.
Qed.

Lemma turn_run_task t w : turn w (run_task t w).
Proof.
  unfold run_task.
  destruct (tasks w !! t) as [task|]; [|by apply turn_idle].
  destruct task; try by apply turn_idle.
  - destruct (heap (handler w) !! bpDescriptior) as [d|]; [|by apply turn_idle].
    destruct (vsBpDeferred d); [by apply turn_idle|]. by eapply turn_plain.
  - by eapply turn_plain.
  - destruct (existsb _ _); [by apply turn_idle|].
    destruct (forallb _ _); [|by apply turn_idle].
    eapply turn_plain; simpl; [reflexivity | | done | done].
    apply plain_setBreakpointFromDesciptior.
  - destruct (forallb _ _); [|by apply turn_idle].
    eapply turn_plain; simpl; [reflexivity | by case_decide | done | done].
  - by apply turn_resume.
Qed.

Lemma turn_fulfil t value w : turn w (fulfil t value w).
Proof.
  unfold fulfil.
  destruct (tasks w !! t) as [task|]; [|by apply turn_idle].
  destruct task; try by apply turn_idle.
  - destruct (_setBreakpointFromDesciptior_result _ _ _); by apply turn_idle.
  - destruct (plain_continueToLocation_set (Some t) connection path line
                (update (with_temporaryBreakpointpointId None) w))
      as (es & Ht & Hp & Hf & Hs).
    by apply (turn_plain _ _ es).
  - destruct (getBreakpoint _ _); [case_decide|]; by apply turn_idle.
Qed.

Lemma turn_reject t w : turn w (reject t w).
Proof. unfold reject. destruct (tasks w !! t) as [[]|]; by apply turn_idle. Qed.

Lemma turn_onStatusChanged status w :
  turn w (perform (_onStatusChanged status (handler w)) w).
Proof.
  destruct status.
  - apply turn_calm. unfold _onStatusChanged.
    apply calm_andThen; [by apply calm_same|]. intros h'.
    apply calm_andThen; [apply calm_updateBreakpointHitCount|].
    apply calm_sendPausedMessage.
  - apply turn_calm. unfold _onStatusChanged.
    apply calm_andThen; [by apply calm_same|]. intros h'.
    apply calm_andThen; [apply calm_updateBreakpointHitCount|].
    apply calm_sendPausedMessage.
  - by apply (turn_endSession [Log "debug" "Sending status: "]).
  - apply turn_calm. unfold _onStatusChanged.
    apply calm_andThen; [by apply calm_same|]. intros h'. by apply calm_same.
Qed.

Lemma turn_step a w : turn w (step a w).
Proof.
  destruct a; simpl.
  - apply turn_setBreakpoints.
  - case_decide; by apply turn_idle.
  - apply turn_continueToLocation.
  - apply turn_calm. by apply calm_same.
  - apply turn_calm. by apply calm_same.
  - by apply turn_resume.
  - apply turn_calm. by apply calm_same.
  - apply turn_calm. by apply calm_same.
  - apply turn_calm. by apply calm_same.
  - by apply (turn_endSession []).
  - destruct (disposed _); [by apply turn_idle|]. apply turn_onStatusChanged.
  - destruct (disposed _); [by apply turn_idle|].
    apply turn_calm. apply calm_onNotification.
  - apply turn_run_task.
  - apply turn_fulfil.
  - apply turn_reject.
  - by apply turn_idle.
Qed.

Lemma session_order_boot m : session_order (boot m).
Proof.
  unfold session_order. simpl. split_and!; try done. apply not_elem_of_nil.
Qed.

Lemma replicate_snoc {A} n (x : A) : replicate n x ++ [x] = replicate (S n) x.
Proof. induction n as [|n IH]; simpl; [done | by rewrite IH]. Qed.

Lemma disposals_Dispose l : disposals (Dispose <$> l) = l.
Proof.
  induction l as [|t l IH]; [done|].
  change (disposals (Dispose <$> t :: l)) with (t :: disposals (Dispose <$> l)).
  by rewrite IH.
Qed.

Lemma resumptions_Dispose l : resumptions (Dispose <$> l) = [].
Proof. unfold resumptions. induction l as [|t l IH]; [done | exact IH]. Qed.

Lemma session_order_turn w w' : turn w w' → session_order w → session_order w'.
Proof.
  intros (before & r & Hp & Ht & Hf & Hs & Hr) [Hc Hd].
  destruct (plain_effects before Hp) as (Hbc & Hbd & Hbs).
  assert (TerminatedEvent ∈ sent (trace w) →
          ∀ rest, TerminatedEvent ∈ sent (trace w) ++ rest) as Hin.
  { intros H rest. apply elem_of_app. by left. }
  assert (TerminatedEvent ∉ sent (trace w) →
          TerminatedEvent ∉ sent (trace w) ++ sent before) as Hout.
  { intros H. rewrite elem_of_app. by intros [?|?]. }
  unfold session_order. rewrite Ht, Hf, Hs.
  rewrite !resumptions_app, !disposals_app, !sent_app, Hbc, Hbd. simpl.
  destruct Hr as [-> | [-> | ->]].
  - (* nothing *)
    simpl. rewrite ?app_nil_r. split; [done|].
    destruct (disposed (_subscriptions (handler w)));
      destruct Hd as (H1 & H2 & H3); split_and!; auto.
  - (* resume *)
    unfold resume. destruct (_hadFirstContinuationCommand (handler w)) eqn:Eflag.
    + simpl. rewrite ?Eflag, ?app_nil_r. destruct Hc as [n Hc]. split.
      * exists (S n). rewrite Hc, <- replicate_snoc. reflexivity.
      * destruct (disposed (_subscriptions (handler w)));
          destruct Hd as (H1 & H2 & H3); split_and!; auto.
    + unfold UniversalDisposable_add. simpl.
      destruct (disposed (_subscriptions (handler w))) eqn:Edis; simpl;
        rewrite ?Edis, ?app_nil_r;
        (split; [exists 0%nat; by rewrite Hc|]);
        destruct Hd as (H1 & H2 & H3); split_and!; auto.
      by rewrite H3.
  - (* _endSession *)
    unfold _endSession, UniversalDisposable_dispose.
    destruct (disposed (_subscriptions (handler w))) eqn:Edis; simpl;
      rewrite ?Edis, ?app_nil_r.
    + split; [done|]. destruct Hd as (H1 & H2 & H3). split_and!; auto.
    + change (resumptions
                (Log "debug" "DebuggerHandler: Ending session"
                 :: Send TerminatedEvent
                 :: (Dispose <$> teardowns (_subscriptions (handler w)))))
        with (resumptions (Dispose <$> teardowns (_subscriptions (handler w)))).
      rewrite resumptions_Dispose, disposals_Dispose, app_nil_r.
      split; [done|]. destruct Hd as (H1 & H2 & H3). split_and!; [done | |].
      * rewrite !elem_of_app. right. right. apply list_elem_of_here.
      * rewrite H1, H3. simpl. eexists. split; [reflexivity|].
        destruct (_hadFirstContinuationCommand (handler w)); [by right | by left].
Qed.

Lemma session_order_run m actions : session_order (run actions (boot m)).
Proof.
  induction actions as [|a actions IH] using rev_ind.
  - apply session_order_boot.
  - unfold run. rewrite foldl_app. simpl.
    eapply session_order_turn; [apply turn_step | exact IH].
Qed.

Lemma resumptions_continuations es :
  filter (λ c, is_step c = false) (continuations es) = resumptions es.
Proof.
  unfold continuations, resumptions.
  induction (calls es) as [|c cs IH]; [done|].
  destruct c;
    first
      [ rewrite (filter_cons_False (λ c, is_continuation c = true)) by done;
        rewrite (filter_cons_False (λ c, is_resumption c = true)) by done;
        exact IH
      | rewrite (filter_cons_True (λ c, is_continuation c = true)) by done;
        rewrite (filter_cons_True (λ c, is_step c = false)) by done;
        rewrite (filter_cons_True (λ c, is_resumption c = true)) by done;
        by rewrite IH
      | rewrite (filter_cons_True (λ c, is_continuation c = true)) by done;
        rewrite (filter_cons_False (λ c, is_step c = false)) by done;
        rewrite (filter_cons_False (λ c, is_resumption c = true)) by done;
        exact IH ].
Qed.

(** X27: the [listen] is made once, before every [resume]; the step
    commands are not guarded.  Among the calls that start or continue
    the debuggee in the trace of any session, those that are no step
    commands are: none while [_hadFirstContinuationCommand] is unset,
    and afterwards one [listen] followed by [resume]s only, whoever asked
    for them (the client or the timer of [continueToLocation]).  A step
    command is sent to the multiplexer in every state of a session, and
    leaves the handler as it is. *)
Theorem listen_once_then_resume (m : ConnectionMultiplexer) (actions : list Action) :
  let w := run actions (boot m) in
  (∃ n, filter (λ c, is_step c = false) (continuations (trace w))
        = if _hadFirstContinuationCommand (handler w)
          then mux_listen :: replicate n mux_resume
          else [])
  ∧ ∀ command,
      continuations (trace (perform (_sendContinuationCommand command (handler w)) w))
      = continuations (trace w) ++ [mux_sendContinuationCommand command]
      ∧ handler (perform (_sendContinuationCommand command (handler w)) w) = handler w.
Proof.
  intros w. split.
  - rewrite resumptions_continuations.
    destruct (session_order_run m actions) as [Hc _]. fold w in Hc.
    destruct (_hadFirstContinuationCommand (handler w)); [done | by exists 0%nat].
  - intros command. split; [|done]. simpl.
    unfold continuations. rewrite calls_app, filter_app. reflexivity.
Qed.

(** X28: a session is torn down once, when its end is announced.  In
    the trace of any session no teardown is disposed twice, however
    often the session is disposed or its end reported; the multiplexer
    is disposed exactly if the subscriptions are, and that is exactly if
    a terminated event was sent. *)
Theorem subscriptions_disposed_once (m : ConnectionMultiplexer) (actions : list Action) :
  let w := run actions (boot m) in
  NoDup (disposals (trace w))
  ∧ (disposed (_subscriptions (handler w)) = true
     ↔ TheConnectionMultiplexer ∈ disposals (trace w))
  ∧ (disposed (_subscriptions (handler w)) = true ↔ TerminatedEvent ∈ sent (trace w)).
Proof.
  intros w. destruct (session_order_run m actions) as [_ Hd]. fold w in Hd.
  destruct (disposed (_subscriptions (handler w))).
  - destruct Hd as (_ & Hsent & l & -> & Hl). split_and!.
    + destruct Hl as [-> | ->]; simpl;
        repeat (constructor;
                [rewrite ?elem_of_cons, elem_of_nil; intuition discriminate|]);
        constructor.
    + split; [intros _|done]. simpl. do 2 apply list_elem_of_further.
      apply list_elem_of_here.
    + done.
  - destruct Hd as (-> & Hsent & _). split_and!.
    + constructor.
    + split; [done|]. intros H. by apply elem_of_nil in H.
    + split; [done|]. intros H. by destruct Hsent.
Qed.

End DebuggerHandlerSessions.

(** ** PhpDebuggerService: the translator and the disposables *)

Module PhpDebuggerServiceFacts.
Import PhpDebuggerService.

Lemma run_teardowns_frame s ts :
  _state (foldl run_teardown s ts) = _state s
  ∧ disposed (foldl run_teardown s ts) = disposed s
  ∧ teardowns (foldl run_teardown s ts) = teardowns s
  ∧ (_translator (foldl run_teardown s ts) = None
     ∨ ((UnsetTranslator ∉ ts)
        ∧ _translator (foldl run_teardown s ts) = _translator s)).
Proof.
  revert s. induction ts as [|t ts IH]; intros s; simpl.
  - split_and!; try done. right. split; [apply not_elem_of_nil | done].
  - destruct (IH (run_teardown s t)) as (H1 & H2 & H3 & H4).
    rewrite H1, H2, H3. destruct t; simpl in *; split_and!; try done.
    + destruct H4 as [H4|[Hn H4]]; [by left|]. right. split; [|done].
      rewrite elem_of_cons. by intros [?|?].
    + destruct H4 as [H4|[Hn H4]]; [by left|]. right. split; [|done].
      rewrite elem_of_cons. by intros [?|?].
    + destruct H4 as [H4|[Hn H4]]; [by left|]. right. split; [|done].
      rewrite elem_of_cons. by intros [?|?].
    + destruct H4 as [H4|[Hn H4]]; by left.
Qed.

Lemma consistent_initial : consistent initial.
Proof.
  split_and!; simpl; done.
Qed.

Lemma dispose_disposed s : disposed (final (dispose s)) = true.
Proof.
  unfold dispose. destruct (disposed s) eqn:Edis; simpl; [done|].
  by destruct (run_teardowns_frame
                 (mkService (_state s) (_translator s) true [] (created s) (observed s))
                 (teardowns s)) as (_ & -> & _).
Qed.

Lemma dispose_state s : _state (final (dispose s)) = _state s.
Proof.
  unfold dispose. destruct (disposed s) eqn:Edis; simpl; [done|].
  by destruct (run_teardowns_frame
                 (mkService (_state s) (_translator s) true [] (created s) (observed s))
                 (teardowns s)) as (-> & _).
Qed.

(** [dispose] makes a service consistent whatever its state says. *)
Lemma dispose_consistent s :
  (disposed s = true → _translator s = None ∧ teardowns s = []) →
  (is_Some (_translator s) → UnsetTranslator ∈ teardowns s) →
  consistent (final (dispose s)).
Proof.
  intros Hd Ht.
  assert (_translator (final (dispose s)) = None ∧ teardowns (final (dispose s)) = [])
    as [Hnone Hnil].
  { unfold dispose. destruct (disposed s) eqn:Edis; simpl; [by apply Hd|].
    destruct (run_teardowns_frame
                (mkService (_state s) (_translator s) true [] (created s) (observed s))
                (teardowns s)) as (H1 & H2 & H3 & H4).
    simpl in *. split; [|done].
    destruct H4 as [H4|[Hn H4]]; [done|]. rewrite H4.
    destruct (_translator s) as [t|] eqn:E; [|done].
    destruct Hn. apply Ht. by eexists. }
  split_and!.
  - by intros _.
  - rewrite Hnone. intros [t Hs]. discriminate Hs.
  - intros _. apply dispose_disposed.
Qed.

Lemma consistent_setState newState s :
  consistent s → consistent (final (_setState newState s)).
Proof.
  intros (Hd & Ht & Hc). unfold _setState.
  destruct newState; simpl; try by split_and!.
  by apply dispose_consistent.
Qed.

Lemma consistent_perform JSON_parse op s :
  consistent s → consistent (final (perform JSON_parse op s)).
Proof.
  intros Hs. destruct op; simpl.
  - done.
  - done.
  - destruct Hs as (Hd & Ht & Hc). unfold debug_rooted. simpl.
    destruct (disposed s) eqn:Edis; simpl.
    + split_and!; simpl; done.
    + split_and!; simpl; try done. intros _.
      rewrite !elem_of_app, !elem_of_cons. right. right. right. by left.
  - by apply (consistent_setState CONNECTED).
  - unfold sendCommand. destruct (_translator s); [|done].
    by destruct (JSON_parse message).
  - case_bool_decide; [|done]. by apply (consistent_setState CLOSED).
  - destruct Hs as (Hd & Ht & Hc). by apply dispose_consistent.
Qed.

Lemma consistent_run JSON_parse ops s :
  consistent s → consistent (run JSON_parse ops s).1.
Proof.
  revert s. induction ops as [|op ops IH]; intros s Hs; simpl; [done|].
  specialize (IH _ (consistent_perform JSON_parse op s Hs)).
  by destruct (run JSON_parse ops (final (perform JSON_parse op s))).
Qed.

(** X29: a service that is closed or disposed forwards no command.  At
    any time of its life, once the state is [CLOSED] or the disposables
    are disposed, [sendCommand] logs the command and hands nothing to a
    translator, whatever the message. *)
Theorem closed_service_forwards_nothing
  (JSON_parse : string → option JsVal) (ops : list Op) (message : string) :
  let s := (run JSON_parse ops initial).1 in
  _state s = CLOSED ∨ disposed s = true →
  sendCommand JSON_parse message s
  = returns s [LoggerInfo ("Received command: " +:+ message)].
Proof.
  intros s Hs.
  destruct (consistent_run JSON_parse ops initial consistent_initial) as (Hd & _ & Hc).
  fold s in Hd, Hc.
  assert (disposed s = true) as Hdis by (destruct Hs; auto).
  destruct (Hd Hdis) as [Hnone _]. unfold sendCommand. by rewrite Hnone.
Qed.

Lemma closed_service_forwards_nothing_witness :
  let config := mkConfig "/www" "INFO" true in
  let ops := [debug_called config; hphpd_answered false config;
              root_directory_set config; session_ended 0] in
  let s := (run (λ m, Some (JStr m)) ops initial).1 in
  sendCommand (λ m, Some (JStr m)) "Debugger.resume" s
  = returns s [LoggerInfo ("Received command: " +:+ "Debugger.resume")].
Proof.
  intros config ops s.
  apply (closed_service_forwards_nothing (λ m, Some (JStr m)) ops "Debugger.resume").
  left. vm_compute. reflexivity.
Defined.

(** X30: [CLOSED] is not the last state.  When the session ends while
    [debug] waits for the translator to initialise, the continuation of
    [debug] sets the state to [CONNECTED] on a service that is disposed
    and has no translator: it logs the change from [closed] to
    [connected] and tears nothing down again. *)
Theorem end_during_initilize_is_overwritten
  (JSON_parse : string → option JsVal) (ops : list Op) :
  let s := (run JSON_parse ops initial).1 in
  let ended := final (_onEnd s) in
  let resumed := debug_initilized ended in
  _state ended = CLOSED
  ∧ effects resumed = [LoggerDebug "state change from closed to connected"]
  ∧ _state (final resumed) = CONNECTED
  ∧ disposed (final resumed) = true
  ∧ _translator (final resumed) = None.
Proof.
  intros s ended resumed.
  pose proof (consistent_run JSON_parse ops initial consistent_initial) as Hs.
  fold s in Hs.
  pose proof (consistent_setState CLOSED s Hs) as (Hd & _ & _).
  assert (_state ended = CLOSED) as Hstate.
  { unfold ended, _onEnd, _setState. simpl. by rewrite dispose_state. }
  assert (disposed ended = true) as Hdis.
  { unfold ended, _onEnd, _setState. simpl. apply dispose_disposed. }
  destruct (Hd Hdis) as [Hnone _].
  unfold resumed, debug_initilized, _setState. simpl. fold ended.
  rewrite Hstate. by split_and!.
Qed.

End PhpDebuggerServiceFacts.
